(** * companion-keeper: generation engine, packet builder, streamer

    A shallow embedding of the parts of the pipeline that the checked
    properties speak about, with one module per component:

    - [Js]          strings as UTF-16 code units, dynamically typed values and
                    the narrowing helpers ([safeText], [safeString],
                    [toStringArray], [asRecord]);
    - [Compaction]  [compactMemories];
    - [Packets]     [buildConversationPacket] and [buildChunksFromFiles];
    - [Resume]      [normalizeResumeCheckpoint] and the resume bookkeeping at
                    the head of [runGenerationLlm];
    - [Retry]       [isRetryableError] and [fetchJsonWithRetry];
    - [Models]      [choosePrimaryModel];
    - [Prompts]     [fillPromptTemplate];
    - [Streamer]    [streamJsonArrayObjectsFromReadable].

    Further modules cover the code around these components:

    - [TextFacts]     facts on [trim];
    - [StreamerEdges] the streamer on inputs that are not an array of
                      objects, and the buffer it keeps;
    - [PacketFacts]   the accounting of a packet, [normalizeNewlines];
    - [TokenBudget]   [truncateToTokenBudget];
    - [MemoryRows]    [toMemoryCandidates], [splitKeywords] and what
                      [compactMemories] does with their rows;
    - [ResumeFacts]   the resumed and the pending calls of a run;
    - [Shaping]       [normalizeKeys] and [compactMemoryCandidates];
    - [Png]           [stripTextChunks], [createTextChunk] and
                      [embedCardInPng];
    - [FileNames]     [sanitizeFilename] and [sanitizeFileStem];
    - [Hashing]       [stableHashInt]. *)

From Stdlib Require Import ZArith NArith Lia DecimalString Ascii String QArith Qminmax.
From Stdlib Require Import Qround Lqa.
From Equations Require Import Equations.
From stdpp Require Import base list gmap sets strings.

Set Warnings "-register-all,-clear-no-such-hyp".
Local Open Scope N_scope.

(* ===================================================================== *)
(** ** JavaScript strings and values *)
(* ===================================================================== *)

Module Js.

(** A JavaScript string is a sequence of UTF-16 code units; [length] is
    [String.prototype.length]. *)
Abbreviation jschar := N (only parsing).
Abbreviation jsstring := (list N) (only parsing).

(** Literals of the source, written as Rocq strings of ASCII characters. *)
Definition lit (s : string) : jsstring := N_of_ascii <$> list_ascii_of_string s.

(** ECMAScript WhiteSpace and LineTerminator code units: what [trim] strips
    and what the regular expression class [\s] matches. *)
Definition isWhiteSpace (c : jschar) : bool :=
  bool_decide (c ∈ [9; 10; 11; 12; 13; 32; 160; 5760; 8232; 8233; 8239; 8287; 12288; 65279])
  || ((8192 <=? c) && (c <=? 8202)).

Fixpoint trimStart (s : jsstring) : jsstring :=
  match s with
  | c :: t => if isWhiteSpace c then trimStart t else s
  | [] => []
  end.

Definition trimEnd (s : jsstring) : jsstring := reverse (trimStart (reverse s)).

Definition trim (s : jsstring) : jsstring := trimEnd (trimStart s).

(** [text.replace(/\r\n/g, "\n")]. *)
Fixpoint replaceCrLf (s : jsstring) : jsstring :=
  match s with
  | [] => []
  | c :: t =>
      match t with
      | d :: t' => if (c =? 13) && (d =? 10) then 10 :: replaceCrLf t' else c :: replaceCrLf t
      | [] => [c]
      end
  end.

(** [text.replace(/\s+/g, " ")]; [inRun] records that the previous code unit
    was white space, so that a run is replaced once. *)
Fixpoint collapseWhiteSpace (inRun : bool) (s : jsstring) : jsstring :=
  match s with
  | [] => []
  | c :: t =>
      if isWhiteSpace c
      then (if inRun then collapseWhiteSpace true t else 32 :: collapseWhiteSpace true t)
      else c :: collapseWhiteSpace false t
  end.

(** [String.prototype.toLowerCase] on the ASCII letters; every other code
    unit is kept (the Unicode case tables of the platform are not part of
    the repository). *)
Definition lowerChar (c : jschar) : jschar :=
  if (65 <=? c) && (c <=? 90) then c + 32 else c.

Definition toLowerCase (s : jsstring) : jsstring := lowerChar <$> s.

(** [Array.prototype.join]. *)
Fixpoint join (sep : jsstring) (parts : list jsstring) : jsstring :=
  match parts with
  | [] => []
  | [p] => p
  | p :: rest => p ++ sep ++ join sep rest
  end.

(** [String.prototype.startsWith] and [String.prototype.includes]. *)
Fixpoint startsWith (s prefix : jsstring) {struct prefix} : bool :=
  match prefix with
  | [] => true
  | p :: prefix' =>
      match s with
      | c :: s' => (c =? p) && startsWith s' prefix'
      | [] => false
      end
  end.

Fixpoint includes (s sub : jsstring) : bool :=
  startsWith s sub ||
  match s with
  | [] => false
  | _ :: t => includes t sub
  end.

(** [String(n)] for a non-negative integer. *)
Definition decimal (n : nat) : jsstring := lit (NilEmpty.string_of_uint (Nat.to_uint n)).

(** [[...new Set(xs)]]: the distinct elements in order of first insertion. *)
Fixpoint setOfList (seen : list jsstring) (xs : list jsstring) : list jsstring :=
  match xs with
  | [] => []
  | x :: t => if bool_decide (x ∈ seen) then setOfList seen t else x :: setOfList (x :: seen) t
  end.

(** Numbers: the integers (priorities, counts) and [NaN], which [Number]
    returns for what it cannot read. *)
Inductive jsnum :=
| Finite (z : Z)
| NaN.

(** Dynamically typed values, as [JSON.parse] and object literals build them. *)
Inductive jsval :=
| JUndefined
| JNull
| JBool (b : bool)
| JNum (x : jsnum)
| JStr (s : jsstring)
| JArr (items : list jsval)
| JObj (fields : list (jsstring * jsval)).

Definition isString (v : jsval) : option jsstring :=
  match v with JStr s => Some s | _ => None end.

(** [safeText]: strings have their CR LF pairs replaced, anything else is the
    empty string. *)
Definition safeText (value : jsval) : jsstring :=
  match value with
  | JStr s => replaceCrLf s
  | _ => []
  end.

(** [safeString(value, defaultValue)]: [text || defaultValue]. *)
Definition safeString (value : jsval) (defaultValue : jsstring) : jsstring :=
  let text := trim (safeText value) in
  match text with
  | [] => defaultValue
  | _ => text
  end.

(** [toStringArray]: the string rows of an array, trimmed, empty ones dropped. *)
Definition toStringArray (value : jsval) : list jsstring :=
  match value with
  | JArr items => filter (λ row, row ≠ []) (trim <$> omap isString items)
  | _ => []
  end.

(** [asRecord]: the fields of a plain object, [None] for [null], arrays and
    primitives. *)
Definition asRecord (value : jsval) : option (list (jsstring * jsval)) :=
  match value with
  | JObj fields => Some fields
  | _ => None
  end.

(** Property read [root.key]: the last write of a key wins in an object that
    [JSON.parse] built; a missing key reads as [undefined]. *)
Fixpoint getField (fields : list (jsstring * jsval)) (key : jsstring) : jsval :=
  match fields with
  | [] => JUndefined
  | (k, v) :: rest =>
      match getField rest key with
      | JUndefined => if bool_decide (k = key) then v else JUndefined
      | later => later
      end
  end.

(** [Object.keys(record)]: the distinct keys, first insertion first. *)
Definition objectKeys (fields : list (jsstring * jsval)) : list jsstring :=
  setOfList [] (fields.*1).

(** [Object.entries(record)]. *)
Definition objectEntries (fields : list (jsstring * jsval)) : list (jsstring * jsval) :=
  (λ k, (k, getField fields k)) <$> objectKeys fields.

(** [a ?? b]. *)
Definition nullish (a b : jsval) : jsval :=
  match a with
  | JUndefined | JNull => b
  | _ => a
  end.

(** [Number(text)] for a string: white space is trimmed, the empty string is
    0, an optionally signed run of decimal digits is its value; the other
    numeric literals of the language are outside the integers of this model
    and read as [NaN]. *)
Fixpoint digitsValue (acc : Z) (s : jsstring) : jsnum :=
  match s with
  | [] => Finite acc
  | c :: t =>
      if (48 <=? c) && (c <=? 57)
      then digitsValue (10 * acc + Z.of_N (c - 48))%Z t
      else NaN
  end.

Definition negate (x : jsnum) : jsnum :=
  match x with Finite z => Finite (- z)%Z | NaN => NaN end.

Definition stringToNumber (text : jsstring) : jsnum :=
  match trim text with
  | [] => Finite 0
  | [c] => if (48 <=? c) && (c <=? 57) then Finite (Z.of_N (c - 48)) else NaN
  | c :: rest =>
      if c =? 45 then negate (digitsValue 0 rest)
      else if c =? 43 then digitsValue 0 rest
      else digitsValue 0 (c :: rest)
  end.

(** [Number(value)]. Arrays and objects convert through their string form,
    which is not modelled: they read as [NaN]. *)
Definition toNumber (value : jsval) : jsnum :=
  match value with
  | JUndefined => NaN
  | JNull => Finite 0
  | JBool b => Finite (if b then 1 else 0)
  | JNum x => x
  | JStr s => stringToNumber s
  | JArr _ | JObj _ => NaN
  end.

Lemma trimStart_no_leading (s : jsstring) c t :
  trimStart s = c :: t → isWhiteSpace c = false.
Proof.
  induction s as [|d s IH]; simpl; [done|].
  destruct (isWhiteSpace d) eqn:E; [exact IH|].
  intros [= -> _]. exact E.
Qed.

Lemma trimStart_length (s : jsstring) : (length (trimStart s) ≤ length s)%nat.
Proof.
  induction s as [|d s IH]; simpl; [lia|].
  destruct (isWhiteSpace d); simpl; lia.
Qed.

Lemma trim_length (s : jsstring) : (length (trim s) ≤ length s)%nat.
Proof.
  unfold trim, trimEnd. rewrite length_reverse.
  pose proof (trimStart_length (reverse (trimStart s))) as H1.
  rewrite length_reverse in H1. pose proof (trimStart_length s). lia.
Qed.

Lemma safeString_nonempty v d : d ≠ [] → safeString v d ≠ [].
Proof. unfold safeString. by destruct (trim (safeText v)). Qed.

Lemma toStringArray_nonempty_rows v k : k ∈ toStringArray v → k ≠ [].
Proof.
  destruct v; simpl; try (by intros ?%elem_of_nil).
  by intros [? _]%list_elem_of_filter.
Qed.

Lemma filter_keeps_all {A} (P : A → Prop) `{∀ x, Decision (P x)} (l : list A) :
  (∀ x, x ∈ l → P x) → filter P l = l.
Proof.
  induction l as [|x l IH]; intros Hall; [done|].
  rewrite filter_cons_True by (apply Hall; left).
  f_equal. apply IH. intros y Hy. apply Hall. by right.
Qed.

End Js.

(* ===================================================================== *)
(** ** Memory compaction *)
(* ===================================================================== *)

Module Compaction.
Import Js.

(** [MemoryCandidate]. The text fields are held as dynamically typed values,
    because [compactMemories] narrows each of them with [safeString] and
    [toStringArray], and reads [priority] through [Number]. *)
Record MemoryCandidate := mkCandidate {
  name : jsval;
  keys : jsval;
  content : jsval;
  category : jsval;
  priority : jsval;
  sourceConversation : jsval;
  sourceDate : jsval;
}.

(** [Number(candidate.priority ?? 0)]. *)
Definition priorityNumber (p : jsval) : jsnum := toNumber (nullish p (JNum (Finite 0))).

(** [normalize] of [compactMemories]. *)
Definition normalize (text : jsstring) : jsstring :=
  trim (collapseWhiteSpace false (toLowerCase text)).

(** The dedup signature: normalized content, a bar, the lower-cased keys
    joined with bars. *)
Definition signatureOf (content : jsstring) (keys : list jsstring) : jsstring :=
  normalize content ++ lit "|" ++ join (lit "|") (toLowerCase <$> keys).

Definition entrySignature (item : MemoryCandidate) : jsstring :=
  signatureOf (safeString (content item) []) (toStringArray (keys item)).

Definition strings (ks : list jsstring) : jsval := JArr (JStr <$> ks).

(** The body of [if (existing) { ... }]: the in-place update of the entry
    that [out.find] returned. *)
Definition mergeInto (existing : MemoryCandidate) (content' : jsstring)
    (keys' : list jsstring) (candidate : MemoryCandidate) : MemoryCandidate :=
  let existingPriority := priorityNumber (priority existing) in
  let priority' := priorityNumber (priority candidate) in
  {| name := name existing;
     keys := strings (setOfList [] (toStringArray (keys existing) ++ keys'));
     content :=
       if bool_decide (length (safeString (content existing) []) < length content')%nat
       then JStr content' else content existing;
     category := category existing;
     priority :=
       match priority', existingPriority with
       | Finite p, Finite e => if bool_decide (e < p)%Z then JNum priority' else priority existing
       | _, _ => priority existing
       end;
     sourceConversation := sourceConversation existing;
     sourceDate := sourceDate existing |}.

(** [out.find(...)] followed by the update of the found object: the first
    entry with the candidate's signature is replaced by its merge. *)
Fixpoint mergeFirst (signature : jsstring) (content' : jsstring) (keys' : list jsstring)
    (candidate : MemoryCandidate) (out : list MemoryCandidate) : option (list MemoryCandidate) :=
  match out with
  | [] => None
  | item :: rest =>
      if bool_decide (entrySignature item = signature)
      then Some (mergeInto item content' keys' candidate :: rest)
      else cons item <$> mergeFirst signature content' keys' candidate rest
  end.

(** One iteration of [for (const candidate of candidates)]. *)
Definition compactStep (out : list MemoryCandidate) (candidate : MemoryCandidate)
    : list MemoryCandidate :=
  let content' := safeString (content candidate) [] in
  let keys' := toStringArray (keys candidate) in
  if bool_decide (content' = []) || bool_decide (length keys' = 0%nat) then out
  else
    match mergeFirst (signatureOf content' keys') content' keys' candidate out with
    | Some out' => out'
    | None =>
        out ++ [ {| name := JStr (safeString (name candidate)
                                     (lit "Memory " ++ decimal (length out + 1)));
                    keys := strings keys';
                    content := JStr content';
                    category := JStr (safeString (category candidate) (lit "shared_memory"));
                    priority := JNum (priorityNumber (priority candidate));
                    sourceConversation := JStr (safeString (sourceConversation candidate) []);
                    sourceDate := JStr (safeString (sourceDate candidate) []) |} ]
    end.

Definition compactMemories (candidates : list MemoryCandidate) : list MemoryCandidate :=
  foldl compactStep [] candidates.

(** *** Facts about the loop *)

Definition hasContentAndKey (e : MemoryCandidate) : Prop :=
  ∃ c ks, content e = JStr c ∧ c ≠ [] ∧ keys e = strings ks ∧ ks ≠ [].

(** A candidate that the guard [!content || keys.length === 0] skips. *)
Definition skipped (x : MemoryCandidate) : Prop :=
  safeString (content x) [] = [] ∨ toStringArray (keys x) = [].

(** Candidates as an extraction call returns them: two strings, keys, a
    priority, and the source conversation and date. *)
Definition candidate (text : string) (ks : list string) (p : Z) (conversation date : string)
    : MemoryCandidate :=
  {| name := JUndefined; keys := strings (lit <$> ks); content := JStr (lit text);
     category := JUndefined; priority := JNum (Finite p);
     sourceConversation := JStr (lit conversation); sourceDate := JStr (lit date) |}.

(** Two candidates with one signature, the second one carrying its source. *)
Definition teaFirst : MemoryCandidate := candidate "Likes tea" ["Tea"] 3 "" "".
Definition teaSecond : MemoryCandidate := candidate "likes  tea" ["tea"] 5 "conv-2" "2024-01-01".

(** Three candidates about one fact whose keys differ by case. *)
Definition teaVariants : list MemoryCandidate :=
  [ candidate "Likes tea" ["Tea"] 1 "" "";
    candidate "likes tea" ["tea"; "TEA"] 1 "" "";
    candidate "likes tea" ["tea"] 1 "" "" ].

(** A candidate without content beside a sound one. *)
Definition withBlank : list MemoryCandidate :=
  [ candidate "Likes tea" ["tea"] 1 "" ""; candidate "" ["coffee"] 1 "" "" ].

Lemma setOfList_nonempty seen x xs : x ∉ seen → setOfList seen (x :: xs) ≠ [].
Proof. intros Hx. simpl. by rewrite bool_decide_eq_false_2. Qed.

Lemma compactStep_skipped out x : skipped x → compactStep out x = out.
Proof.
  intros [H|H]; unfold compactStep; rewrite H; simpl; [done|].
  by rewrite orb_true_r.
Qed.

Lemma mergeInto_hasContentAndKey item c ks x :
  hasContentAndKey item → c ≠ [] → ks ≠ [] →
  hasContentAndKey (mergeInto item c ks x).
Proof.
  intros (c0 & ks0 & Hc & Hc0 & Hk & Hks0) Hcne Hksne.
  assert (setOfList [] (toStringArray (keys item) ++ ks) ≠ []) as Hunion.
  { destruct (toStringArray (keys item) ++ ks) as [|k l] eqn:E.
    - apply app_eq_nil in E as [_ ->]. done.
    - apply setOfList_nonempty, not_elem_of_nil. }
  unfold hasContentAndKey, mergeInto; simpl.
  case_bool_decide.
  - exists c, (setOfList [] (toStringArray (keys item) ++ ks)). done.
  - exists c0, (setOfList [] (toStringArray (keys item) ++ ks)). done.
Qed.

Lemma mergeFirst_hasContentAndKey sig c ks x out out' :
  Forall hasContentAndKey out → c ≠ [] → ks ≠ [] →
  mergeFirst sig c ks x out = Some out' → Forall hasContentAndKey out'.
Proof.
  intros Hall Hc Hks. revert out'.
  induction Hall as [|item rest Hitem Hrest IH]; intros out'; simpl; [done|].
  case_bool_decide.
  - intros [= <-]. constructor; [by apply mergeInto_hasContentAndKey|done].
  - destruct (mergeFirst sig c ks x rest) as [r|]; simpl; [|done].
    intros [= <-]. constructor; [done|by apply IH].
Qed.

Lemma compactStep_hasContentAndKey out x :
  Forall hasContentAndKey out → Forall hasContentAndKey (compactStep out x).
Proof.
  intros Hall. unfold compactStep.
  destruct (bool_decide (safeString (content x) [] = [])) eqn:Ec; simpl; [done|].
  destruct (bool_decide (length (toStringArray (keys x)) = 0%nat)) eqn:Ek; simpl; [done|].
  apply bool_decide_eq_false in Ec, Ek.
  assert (toStringArray (keys x) ≠ []) as Hks by (intros E; apply Ek; by rewrite E).
  destruct (mergeFirst _ _ _ _ _) as [out'|] eqn:Em.
  - eapply mergeFirst_hasContentAndKey; eauto.
  - apply Forall_app. split; [done|]. constructor; [|done].
    eexists _, _. simpl. split_and!; eauto.
Qed.

Lemma compactMemories_from_hasContentAndKey xs out :
  Forall hasContentAndKey out → Forall hasContentAndKey (foldl compactStep out xs).
Proof.
  revert out. induction xs as [|x xs IH]; intros out Hout; simpl; [done|].
  by apply IH, compactStep_hasContentAndKey.
Qed.

Lemma safeString_not_string v : isString v = None → safeString v [] = [].
Proof. by destruct v. Qed.

Lemma toStringArray_no_strings items :
  omap isString items = [] → toStringArray (JArr items) = [].
Proof. simpl. by intros ->. Qed.

(** C10. Every entry that [compactMemories] returns has non-empty content
    and at least one key. A candidate whose content is not a string or is
    empty, or whose keys hold no string, is skipped wherever it stands in
    the input; so the output can be shorter than an input in which no two
    candidates share a signature. *)
Theorem compactMemories_drops_blank_candidates :
  (∀ xs e, e ∈ compactMemories xs → hasContentAndKey e) ∧
  (∀ xs x ys,
     isString (content x) = None ∨ content x = JStr [] ∨
     (∃ items, keys x = JArr items ∧ omap isString items = []) →
     compactMemories (xs ++ x :: ys) = compactMemories (xs ++ ys)) ∧
  (NoDup (entrySignature <$> withBlank) ∧
   (length (compactMemories withBlank) < length withBlank)%nat).
Proof.
  split_and!.
  - intros xs e He.
    assert (Forall hasContentAndKey (compactMemories xs)) as Hall
      by (apply compactMemories_from_hasContentAndKey; constructor).
    rewrite Forall_forall in Hall. by apply Hall.
  - intros xs x ys Hx. unfold compactMemories.
    rewrite !foldl_app. simpl. f_equal. apply compactStep_skipped.
    destruct Hx as [Hx|[Hx|(items & Hk & Hx)]].
    + left. by apply safeString_not_string.
    + left. by rewrite Hx.
    + right. rewrite Hk. by apply toStringArray_no_strings.
  - vm_compute. apply NoDup_cons. split; [|apply NoDup_singleton].
    intros [=]%list_elem_of_singleton.
  - vm_compute. lia.
Qed.

Lemma compactMemories_drops_blank_candidates_witness :
  compactMemories ([teaFirst] ++ candidate "" ["coffee"] 1 "" "" :: [teaSecond])
  = compactMemories ([teaFirst] ++ [teaSecond]).
Proof.
  apply (proj1 (proj2 compactMemories_drops_blank_candidates)).
  right. left. reflexivity.
Defined.

(** C6, evaluated on [teaFirst; teaSecond]. Both candidates have the
    signature of "likes tea" with the key "tea". The merged entry takes the
    greater priority and the longer content, but it keeps "Tea" and "tea" as
    two keys, and its source conversation and date stay empty although the
    second candidate carries both. *)
Theorem compactMemories_merge_keeps_case_variants :
  entrySignature teaFirst = entrySignature teaSecond ∧
  compactMemories [teaFirst; teaSecond] =
    [ {| name := JStr (lit "Memory 1");
         keys := strings [lit "Tea"; lit "tea"];
         content := JStr (lit "likes  tea");
         category := JStr (lit "shared_memory");
         priority := JNum (Finite 5);
         sourceConversation := JStr [];
         sourceDate := JStr [] |} ].
Proof. split; vm_compute; reflexivity. Qed.

(** C7, evaluated on [teaVariants]. The third candidate merges into the
    first entry and turns that entry's signature into the signature of the
    second entry, so a second pass merges the two entries that the first
    pass kept apart. *)
Theorem compactMemories_second_pass_merges :
  length (compactMemories teaVariants) = 2%nat ∧
  length (compactMemories (compactMemories teaVariants)) = 1%nat ∧
  compactMemories (compactMemories teaVariants) ≠ compactMemories teaVariants.
Proof.
  split_and!; [vm_compute; reflexivity..|].
  intros E. apply (f_equal length) in E. vm_compute in E. discriminate.
Qed.

End Compaction.

(* ===================================================================== *)
(** ** Conversation packets under character and message budgets *)
(* ===================================================================== *)

Module Packets.
Import Js.
Local Open Scope Z_scope.

Inductive SupportedRole := system | user | assistant.

Definition roleText (r : SupportedRole) : jsstring :=
  match r with
  | system => lit "system"
  | user => lit "user"
  | assistant => lit "assistant"
  end.

Record RoleContentMessage := mkMessage {
  role : SupportedRole;
  content : jsstring;
}.

Record ConversationPacket := mkPacket {
  conversationId : jsstring;
  transcript : jsstring;
  messagesUsed : Z;
  charCount : Z;
}.

Record ConversationScore := mkScore {
  fileName : jsstring;
  filePath : jsstring;
}.

Record ConversationChunk := mkChunk {
  chunkConversationId : jsstring;
  sourceFile : jsstring;
  sourcePath : jsstring;
  chunkTranscript : jsstring;
  chunkMessagesUsed : Z;
  chunkCharCount : Z;
  tokenEstimate : Z;
}.

Definition len (s : jsstring) : Z := Z.of_nat (length s).

(** [normalizeNewlines]: CR LF and lone CR become LF, NUL is removed. *)
Definition normalizeNewlines (value : jsstring) : jsstring :=
  filter (λ c, c ≠ 0%N) ((λ c, if (c =? 13)%N then 10%N else c) <$> replaceCrLf value).

(** The loop of [buildConversationPacket]; the three results are [lines],
    [charCount] and [used] when the loop ends or breaks. *)
Fixpoint packetLoop (maxMessages maxChars : Z) (messages : list RoleContentMessage)
    (lines : list jsstring) (count used : Z) : list jsstring * Z * Z :=
  match messages with
  | [] => (lines, count, used)
  | message :: rest =>
      if (0 <? maxMessages) && (maxMessages <=? used) then (lines, count, used)
      else
        let text := normalizeNewlines (content message) in
        if bool_decide (length text = 0%nat)
        then packetLoop maxMessages maxChars rest lines count used
        else
          let line := lit "[" ++ roleText (role message) ++ lit "] " ++ text in
          if (0 <? maxChars) && (maxChars <? count + len line) then (lines, count, used)
          else packetLoop maxMessages maxChars rest (lines ++ [line]) (count + len line) (used + 1)
  end.

Definition buildConversationPacket (id : jsstring) (messages : list RoleContentMessage)
    (maxMessages maxChars : Z) : ConversationPacket :=
  let '(lines, count, used) := packetLoop maxMessages maxChars messages [] 0 0 in
  {| conversationId := id;
     transcript := join (lit (String "010" EmptyString)) lines;
     messagesUsed := used;
     charCount := count |}.

(** [estimateTokens]. *)
Definition estimateTokens (text : jsstring) : Z :=
  match text with
  | [] => 0
  | _ => Z.max 1 ((len text + 3) / 4)
  end.

Definition MAX_SAFE_INTEGER : Z := 2 ^ 53 - 1.

Section Files.

(** The cleaned conversation files: what [readExtractedConversationFile]
    returns for a path, and the id that [conversationIdFromFile] derives
    from it. *)
Variable readExtractedConversationFile : jsstring → list RoleContentMessage.
Variable conversationIdFromFile : jsstring → jsstring.

Definition buildConversationPacketFromFile (path : jsstring) (maxMessages maxChars : Z)
    : ConversationPacket :=
  buildConversationPacket (conversationIdFromFile path)
    (readExtractedConversationFile path) maxMessages maxChars.

(** [perConversationCharBudget] of [buildChunksFromFiles]. *)
Definition perConversationCharBudget (fileCount : nat) (maxCharsPerConversation maxTotalChars : Z)
    : Z :=
  let hasTotalCap := 0 <? maxTotalChars in
  let totalCap := if hasTotalCap then Z.max 1 maxTotalChars else MAX_SAFE_INTEGER in
  let perConversationCapFromTotal :=
    if hasTotalCap then Z.max 1 (totalCap / Z.max 1 (Z.of_nat fileCount)) else MAX_SAFE_INTEGER in
  if 0 <? maxCharsPerConversation
  then Z.max 1 (Z.min maxCharsPerConversation perConversationCapFromTotal)
  else perConversationCapFromTotal.

(** The body of [for (const file of files)]: [None] stands for [continue]. *)
Definition chunkOfFile (budget maxMessages : Z) (file : ConversationScore)
    : option ConversationChunk :=
  let packet := buildConversationPacketFromFile (filePath file) maxMessages budget in
  let trimmedTranscript := trim (transcript packet) in
  if (messagesUsed packet <=? 0) || bool_decide (length trimmedTranscript = 0%nat) then None
  else
    let safeTranscript := take (Z.to_nat budget) (transcript packet) in
    let safeCharCount := Z.min (Z.min (charCount packet) (len safeTranscript)) budget in
    if (safeCharCount <=? 0) || bool_decide (length (trim safeTranscript) = 0%nat) then None
    else Some {| chunkConversationId := conversationId packet;
                 sourceFile := fileName file;
                 sourcePath := filePath file;
                 chunkTranscript := safeTranscript;
                 chunkMessagesUsed := messagesUsed packet;
                 chunkCharCount := safeCharCount;
                 tokenEstimate := estimateTokens safeTranscript |}.

Definition buildChunksFromFiles (files : list ConversationScore)
    (maxMessagesPerConversation maxCharsPerConversation maxTotalChars : Z)
    : list ConversationChunk :=
  omap (chunkOfFile
          (perConversationCharBudget (length files) maxCharsPerConversation maxTotalChars)
          maxMessagesPerConversation)
       files.

Lemma packetLoop_used_bound maxMessages maxChars messages lines count used :
  0 < maxMessages → used ≤ maxMessages →
  (packetLoop maxMessages maxChars messages lines count used).2 ≤ maxMessages.
Proof.
  intros HM. revert lines count used.
  induction messages as [|m rest IH]; intros lines count used Hu; simpl; [done|].
  destruct (0 <? maxMessages) eqn:E0; [|lia]. simpl.
  destruct (maxMessages <=? used) eqn:E1; [done|].
  case_bool_decide; [by apply IH|].
  destruct (_ && _); [done|]. apply IH. lia.
Qed.

Lemma perConversationCharBudget_positive (n : nat) C T :
  0 < C → 0 < T →
  perConversationCharBudget n C T = Z.min C (Z.max 1 (T / Z.max 1 (Z.of_nat n))).
Proof.
  intros HC HT. unfold perConversationCharBudget.
  destruct (0 <? T) eqn:E1; [|lia]. destruct (0 <? C) eqn:E2; [|lia].
  rewrite (Z.max_r 1 T) by lia.
  generalize (T / Z.max 1 (Z.of_nat n)). intros q. lia.
Qed.

(** C5. With positive budgets M, C and T and N selected files, every chunk
    that [buildChunksFromFiles] emits has
    [charCount ≤ min(C, max(1, floor(T / max(1, N))))] and
    [messagesUsed ≤ M], uses at least one message, and has a transcript
    that is not empty after trimming. *)
Theorem buildChunksFromFiles_within_budget files M C T chunk :
  0 < M → 0 < C → 0 < T →
  chunk ∈ buildChunksFromFiles files M C T →
  chunkCharCount chunk ≤ Z.min C (Z.max 1 (T / Z.max 1 (Z.of_nat (length files)))) ∧
  chunkMessagesUsed chunk ≤ M ∧
  chunkMessagesUsed chunk ≠ 0 ∧
  trim (chunkTranscript chunk) ≠ [].
Proof.
  intros HM HC HT. unfold buildChunksFromFiles.
  rewrite perConversationCharBudget_positive by done.
  set (budget := Z.min C _).
  intros (file & _ & Hfile)%list_elem_of_omap.
  assert (messagesUsed (buildConversationPacketFromFile (filePath file) M budget) ≤ M) as Hb.
  { unfold buildConversationPacketFromFile, buildConversationPacket.
    pose proof (packetLoop_used_bound M budget
      (readExtractedConversationFile (filePath file)) [] 0 0 HM ltac:(lia)) as Hb.
    destruct (packetLoop _ _ _ _ _ _) as [[ls cnt] u]. exact Hb. }
  unfold chunkOfFile in Hfile.
  set (packet := buildConversationPacketFromFile _ _ _) in *.
  destruct (messagesUsed packet <=? 0) eqn:Eused; simpl in Hfile; [done|].
  destruct (bool_decide (length (trim (transcript packet)) = 0%nat)); simpl in Hfile; [done|].
  destruct (Z.min _ _ <=? 0) eqn:Ecount; simpl in Hfile; [done|].
  destruct (bool_decide (length (trim (take _ _)) = 0%nat)) eqn:Etrim; [done|].
  apply bool_decide_eq_false in Etrim.
  injection Hfile as <-. simpl. split_and!; [lia|exact Hb|lia|].
  intros E. apply Etrim. by rewrite E.
Qed.

End Files.

(** One cleaned file with two messages, and the chunk it yields under the
    budgets M = 2, C = 40, T = 64. *)
Definition sampleMessages : jsstring → list RoleContentMessage :=
  λ _, [ mkMessage user (lit "hello"); mkMessage assistant (lit "hi there") ].

Definition sampleFile : ConversationScore :=
  {| fileName := lit "a.jsonl"; filePath := lit "/m/a.jsonl" |}.

Definition sampleChunk : ConversationChunk :=
  {| chunkConversationId := lit "a";
     sourceFile := lit "a.jsonl";
     sourcePath := lit "/m/a.jsonl";
     chunkTranscript :=
       lit "[user] hello" ++ [10%N] ++ lit "[assistant] hi there";
     chunkMessagesUsed := 2;
     chunkCharCount := 32;
     tokenEstimate := 9 |}.

Lemma sampleChunk_emitted :
  buildChunksFromFiles sampleMessages (λ _, lit "a") [sampleFile] 2 40 64 = [sampleChunk].
Proof. vm_compute. reflexivity. Qed.

Lemma buildChunksFromFiles_within_budget_witness :
  chunkCharCount sampleChunk ≤ Z.min 40 (Z.max 1 (64 / Z.max 1 (Z.of_nat (length [sampleFile])))) ∧
  chunkMessagesUsed sampleChunk ≤ 2 ∧
  chunkMessagesUsed sampleChunk ≠ 0 ∧
  trim (chunkTranscript sampleChunk) ≠ [].
Proof.
  apply (buildChunksFromFiles_within_budget sampleMessages (λ _, lit "a")
           [sampleFile] 2 40 64 sampleChunk); [reflexivity..|].
  rewrite sampleChunk_emitted. apply list_elem_of_singleton. reflexivity.
Defined.

End Packets.

(* ===================================================================== *)
(** ** Resume checkpoints *)
(* ===================================================================== *)

Module Resume.
Import Js Compaction.

Definition isKeywordChar (c : jschar) : bool :=
  ((97 <=? c) && (c <=? 122)) || ((48 <=? c) && (c <=? 57)).

(** The matches of [/[a-z0-9]{3,}/g]: the maximal runs of at least three
    letters or digits. [run] is the run read so far. *)
Fixpoint keywordRuns (run : jsstring) (s : jsstring) : list jsstring :=
  match s with
  | [] => if bool_decide (3 ≤ length run)%nat then [run] else []
  | c :: t =>
      if isKeywordChar c then keywordRuns (run ++ [c]) t
      else if bool_decide (3 ≤ length run)%nat then run :: keywordRuns [] t
      else keywordRuns [] t
  end.

Definition stopWords : list jsstring :=
  lit <$> ["that"; "with"; "from"; "this"; "have"; "will"; "would"; "about"]%string.

(** The loop of [splitKeywords] over the filtered tokens. *)
Fixpoint keywordLoop (tokens : list jsstring) (out seen : list jsstring) : list jsstring :=
  match tokens with
  | [] => out
  | token :: rest =>
      if bool_decide (token ∈ seen) then keywordLoop rest out seen
      else
        let out' := out ++ [token] in
        if bool_decide (5 ≤ length out')%nat then out'
        else keywordLoop rest out' (token :: seen)
  end.

Definition splitKeywords (text : jsstring) : list jsstring :=
  let tokens := filter (λ token, token ∉ stopWords) (keywordRuns [] (toLowerCase text)) in
  match keywordLoop tokens [] [] with
  | [] => [lit "memory"]
  | out => out
  end.

(** One row of [sanitizeMemoryCandidateRows]; [None] stands for [continue]. *)
Definition sanitizeRow (raw : jsval) : option MemoryCandidate :=
  row ← asRecord raw;
  let content' := safeString (getField row (lit "content")) [] in
  match content' with
  | [] => None
  | _ =>
      let keys' := toStringArray (getField row (lit "keys")) in
      Some {| name := JStr (safeString (getField row (lit "name")) (lit "Memory"));
              keys := strings (match keys' with [] => splitKeywords content' | _ => keys' end);
              content := JStr content';
              category := JStr (safeString (getField row (lit "category")) (lit "shared_memory"));
              priority := JNum (toNumber (nullish (getField row (lit "priority"))
                                                  (JNum (Finite 0))));
              sourceConversation :=
                JStr (safeString (nullish (getField row (lit "sourceConversation"))
                                          (getField row (lit "source_conversation"))) []);
              sourceDate :=
                JStr (safeString (nullish (getField row (lit "sourceDate"))
                                          (getField row (lit "source_date"))) []) |}
  end.

Definition sanitizeMemoryCandidateRows (rows : jsval) : list MemoryCandidate :=
  match rows with
  | JArr items => omap sanitizeRow items
  | _ => []
  end.

(** A candidate record seen as the object it is. *)
Definition candidateValue (c : MemoryCandidate) : jsval :=
  JObj [ (lit "name", name c); (lit "keys", keys c); (lit "content", content c);
         (lit "category", category c); (lit "priority", priority c);
         (lit "sourceConversation", sourceConversation c);
         (lit "sourceDate", sourceDate c) ].

Record GenerationResumeCheckpoint := mkCheckpoint {
  signature : jsstring;
  createdAtUtc : jsstring;
  updatedAtUtc : jsstring;
  personaObservationsByConversation : list (jsstring * list (jsstring * jsval));
  memoryCandidatesBySourceFile : list (jsstring * list MemoryCandidate);
  processedMemoryFiles : list jsstring;
}.

(** [fallback] of [normalizeResumeCheckpoint]; [now] is [nowIso()]. *)
Definition fallback (now signature' : jsstring) : GenerationResumeCheckpoint :=
  {| signature := signature';
     createdAtUtc := now;
     updatedAtUtc := now;
     personaObservationsByConversation := [];
     memoryCandidatesBySourceFile := [];
     processedMemoryFiles := [] |}.

Definition rawPersonaOf (root : list (jsstring * jsval)) :=
  asRecord (getField root (lit "personaObservationsByConversation")).

Definition rawMemoryOf (root : list (jsstring * jsval)) :=
  asRecord (getField root (lit "memoryCandidatesBySourceFile")).

Definition rawProcessedOf (root : list (jsstring * jsval)) :=
  toStringArray (getField root (lit "processedMemoryFiles")).

Definition hasKeys (record : option (list (jsstring * jsval))) : bool :=
  match record with
  | Some fields => bool_decide (0 < length (objectKeys fields))%nat
  | None => false
  end.

(** [hasLegacyData]. *)
Definition hasLegacyData (root : list (jsstring * jsval)) : bool :=
  hasKeys (rawPersonaOf root) || hasKeys (rawMemoryOf root)
  || bool_decide (0 < length (rawProcessedOf root))%nat.

(** The checkpoint that [normalizeResumeCheckpoint] builds when it does not
    return [fallback]. *)
Definition loaded (now : jsstring) (root : list (jsstring * jsval)) (signature' : jsstring)
    : GenerationResumeCheckpoint :=
  {| signature := signature';
     createdAtUtc := safeString (getField root (lit "createdAtUtc")) now;
     updatedAtUtc := safeString (getField root (lit "updatedAtUtc")) now;
     personaObservationsByConversation :=
       match rawPersonaOf root with
       | Some rawPersona =>
           omap (λ '(conversationId, row), pair conversationId <$> asRecord row)
                (objectEntries rawPersona)
       | None => []
       end;
     memoryCandidatesBySourceFile :=
       match rawMemoryOf root with
       | Some rawMemory =>
           omap (λ '(file, rows),
                   match sanitizeMemoryCandidateRows rows with
                   | [] => None
                   | normalizedRows => Some (file, normalizedRows)
                   end)
                (objectEntries rawMemory)
       | None => []
       end;
     processedMemoryFiles := rawProcessedOf root |}.

Definition normalizeResumeCheckpoint (now : jsstring) (value : jsval) (signature' : jsstring)
    : GenerationResumeCheckpoint :=
  match asRecord value with
  | None => fallback now signature'
  | Some root =>
      let rootSignature := safeString (getField root (lit "signature")) [] in
      if bool_decide (rootSignature ≠ signature') && negb (hasLegacyData root)
      then fallback now signature'
      else loaded now root signature'
  end.

(** [readResumeCheckpoint]: [stored] is the parsed content of
    [generation_resume.json], or [None] when reading or parsing it throws. *)
Definition readResumeCheckpoint (now : jsstring) (stored : option jsval) (signature' : jsstring)
    : GenerationResumeCheckpoint :=
  match stored with
  | Some value => normalizeResumeCheckpoint now value signature'
  | None => normalizeResumeCheckpoint now JNull signature'
  end.

(** [checkpoint] of [runGenerationLlm]. *)
Definition loadCheckpoint (now : jsstring) (forceRerun : bool) (stored : option jsval)
    (signature' : jsstring) : GenerationResumeCheckpoint :=
  if forceRerun then normalizeResumeCheckpoint now JNull signature'
  else readResumeCheckpoint now stored signature'.

(** *** The resume bookkeeping of [runGenerationLlm] *)

(** [personaObservationByConversation]: a [Map] filled from the entries of
    the checkpoint. *)
Definition personaObservationByConversation (checkpoint : GenerationResumeCheckpoint)
    : gmap jsstring (list (jsstring * jsval)) :=
  foldl (λ m '(conversationId, row), <[conversationId := row]> m) ∅
        (personaObservationsByConversation checkpoint).

(** [memoryCandidatesBySourceFile]: the rows of every entry are sanitized
    again, and an entry is kept when a row is left. *)
Definition memoryCandidateMap (checkpoint : GenerationResumeCheckpoint)
    : gmap jsstring (list MemoryCandidate) :=
  foldl (λ m '(file, rows),
           match sanitizeMemoryCandidateRows (JArr (candidateValue <$> rows)) with
           | [] => m
           | parsed => <[file := parsed]> m
           end) ∅
        (memoryCandidatesBySourceFile checkpoint).

Definition validMemorySourceFiles (chunksForMemory : list Packets.ConversationChunk) : gset jsstring :=
  list_to_set (Packets.sourceFile <$> chunksForMemory).

(** The two loops that fill [processedMemoryFileSet]. *)
Definition addValid (valid : gset jsstring) (processed : gset jsstring) (file : jsstring)
    : gset jsstring :=
  if bool_decide (file ∈ valid) then {[file]} ∪ processed else processed.

Definition processedMemoryFileSet (checkpoint : GenerationResumeCheckpoint)
    (chunksForMemory : list Packets.ConversationChunk) : gset jsstring :=
  let valid := validMemorySourceFiles chunksForMemory in
  let fromProcessed := foldl (addValid valid) ∅ (processedMemoryFiles checkpoint) in
  foldl (addValid valid) fromProcessed (elements (dom (memoryCandidateMap checkpoint))).

Definition personaChunksPending (appendMemories : bool) (checkpoint : GenerationResumeCheckpoint)
    (chunksForPersona : list Packets.ConversationChunk) : list Packets.ConversationChunk :=
  if appendMemories then []
  else filter (λ chunk,
                 personaObservationByConversation checkpoint !! Packets.chunkConversationId chunk = None)
              chunksForPersona.

Definition memoryChunksPending (checkpoint : GenerationResumeCheckpoint)
    (chunksForMemory : list Packets.ConversationChunk) : list Packets.ConversationChunk :=
  filter (λ chunk, Packets.sourceFile chunk ∉ processedMemoryFileSet checkpoint chunksForMemory)
         chunksForMemory.

(** A memory file has candidates in the checkpoint when one of its entries
    keeps a row after sanitizing. *)
Definition hasCandidates (checkpoint : GenerationResumeCheckpoint) (file : jsstring) : Prop :=
  ∃ rows, (file, rows) ∈ memoryCandidatesBySourceFile checkpoint ∧
          sanitizeMemoryCandidateRows (JArr (candidateValue <$> rows)) ≠ [].

(** The run starts from zero: every selected packet is pending in both
    stages. *)
Definition startsFromZero (checkpoint : GenerationResumeCheckpoint)
    (chunksForPersona chunksForMemory : list Packets.ConversationChunk) : Prop :=
  personaChunksPending false checkpoint chunksForPersona = chunksForPersona ∧
  memoryChunksPending checkpoint chunksForMemory = chunksForMemory.

(** Skipping a memory conversation exactly when both records of the
    checkpoint name its file. *)
Definition skippedIffBothRecord (checkpoint : GenerationResumeCheckpoint)
    (chunksForMemory : list Packets.ConversationChunk) (chunk : Packets.ConversationChunk) : Prop :=
  chunk ∉ memoryChunksPending checkpoint chunksForMemory ↔
  (Packets.sourceFile chunk ∈ processedMemoryFiles checkpoint ∧
   hasCandidates checkpoint (Packets.sourceFile chunk)).

Definition chunkOf (id file : string) : Packets.ConversationChunk :=
  {| Packets.chunkConversationId := lit id;
     Packets.sourceFile := lit file;
     Packets.sourcePath := lit "/m/" ++ lit file;
     Packets.chunkTranscript := lit "[user] hello";
     Packets.chunkMessagesUsed := 1;
     Packets.chunkCharCount := 12;
     Packets.tokenEstimate := 3 |}.

(** A checkpoint file written under the signature "old": one observation,
    one processed memory file whose extraction returned no candidate. *)
Definition storedOld : list (jsstring * jsval) :=
  [ (lit "version", JNum (Finite 1));
    (lit "signature", JStr (lit "old"));
    (lit "createdAtUtc", JStr (lit "2026-01-01T00:00:00.000Z"));
    (lit "updatedAtUtc", JStr (lit "2026-01-01T00:05:00.000Z"));
    (lit "personaObservationsByConversation",
       JObj [ (lit "a", JObj [ (lit "voice", JStr (lit "warm")) ]) ]);
    (lit "memoryCandidatesBySourceFile", JObj []);
    (lit "processedMemoryFiles", JArr [ JStr (lit "a.jsonl") ]) ].

(** What the bookkeeping of a run reads of a checkpoint: the three records,
    and neither the signature nor the two dates. *)
Definition recordsOf (checkpoint : GenerationResumeCheckpoint) :=
  (personaObservationsByConversation checkpoint,
   memoryCandidatesBySourceFile checkpoint,
   processedMemoryFiles checkpoint).

Definition nowSample : jsstring := lit "2026-02-02T00:00:00.000Z".

Lemma elem_of_addValid_fold valid files acc file :
  file ∈ foldl (addValid valid) acc files ↔ file ∈ acc ∨ (file ∈ files ∧ file ∈ valid).
Proof.
  revert acc. induction files as [|f files IH]; intros acc; simpl.
  - set_solver.
  - rewrite IH. unfold addValid. case_bool_decide; set_solver.
Qed.

Lemma elem_of_candidate_fold (entries : list (jsstring * list MemoryCandidate))
    (m : gmap jsstring (list MemoryCandidate)) file :
  file ∈ dom (foldl (λ m '(file, rows),
                       match sanitizeMemoryCandidateRows (JArr (candidateValue <$> rows)) with
                       | [] => m
                       | parsed => <[file := parsed]> m
                       end) m entries)
  ↔ file ∈ dom m ∨
    ∃ rows, (file, rows) ∈ entries ∧
            sanitizeMemoryCandidateRows (JArr (candidateValue <$> rows)) ≠ [].
Proof.
  revert m. induction entries as [|[f rows] entries IH]; intros m; simpl.
  - split; [by left|]. intros [?|(rows & []%elem_of_nil & _)]. done.
  - rewrite IH. clear IH.
    destruct (omap sanitizeRow (candidateValue <$> rows)) as [|c cs] eqn:E.
    + split.
      * intros [?|(r & ? & ?)]; [by left|]. right. exists r. split; [by right|done].
      * intros [?|(r & [[= -> ->]|?]%elem_of_cons & Hr)]; [by left| |].
        -- simpl in Hr. by rewrite E in Hr.
        -- right. by exists r.
    + rewrite dom_insert_L. split.
      * intros [[->%elem_of_singleton|?]%elem_of_union|(r & ? & ?)].
        -- right. exists rows. split; [by left|]. simpl. by rewrite E.
        -- by left.
        -- right. exists r. split; [by right|done].
      * intros [?|(r & [[= -> ->]|?]%elem_of_cons & Hr)].
        -- left. set_solver.
        -- left. set_solver.
        -- right. by exists r.
Qed.

Lemma elem_of_processedMemoryFileSet checkpoint chunks file :
  file ∈ processedMemoryFileSet checkpoint chunks ↔
  file ∈ validMemorySourceFiles chunks ∧
  (file ∈ processedMemoryFiles checkpoint ∨ hasCandidates checkpoint file).
Proof.
  unfold processedMemoryFileSet. rewrite !elem_of_addValid_fold.
  rewrite elem_of_elements. unfold memoryCandidateMap.
  rewrite elem_of_candidate_fold. unfold hasCandidates.
  rewrite dom_empty_L. set_solver.
Qed.

Lemma fallback_startsFromZero now sig persona memory :
  startsFromZero (fallback now sig) persona memory.
Proof.
  split.
  - unfold personaChunksPending. simpl. apply filter_keeps_all.
    intros chunk _. apply lookup_empty.
  - unfold memoryChunksPending. apply filter_keeps_all.
    intros chunk _.
    rewrite elem_of_processedMemoryFileSet. intros [_ [[]%elem_of_nil|(r & []%elem_of_nil & _)]].
Qed.

(** A stored checkpoint without data loads as the empty checkpoint does,
    whatever its signature is. *)
Lemma loaded_without_data now root sig :
  hasLegacyData root = false → recordsOf (loaded now root sig) = recordsOf (fallback now sig).
Proof.
  unfold hasLegacyData, recordsOf, loaded. simpl.
  intros [[Hp Hm]%orb_false_iff Hf%bool_decide_eq_false]%orb_false_iff.
  assert (∀ record, hasKeys record = false →
            match record with Some fields => objectEntries fields | None => [] end = [])
    as Hempty.
  { intros [fields|]; [|done]. simpl. intros H%bool_decide_eq_false.
    unfold objectEntries. destruct (objectKeys fields); [done|simpl in H; lia]. }
  specialize (Hempty _ Hp) as Hp'. specialize (Hempty _ Hm) as Hm'.
  destruct (rawPersonaOf root) as [rawPersona|]; destruct (rawMemoryOf root) as [rawMemory|];
    rewrite ?Hp', ?Hm'; simpl;
    destruct (rawProcessedOf root); try done; simpl in Hf; lia.
Qed.

(** The records that [normalizeResumeCheckpoint] returns do not depend on
    the signature of the run: the guard returns [fallback] only where the
    stored checkpoint holds no record, and there [fallback] holds what
    loading would have given. *)
Lemma records_ignore_signature now value sig1 sig2 :
  recordsOf (normalizeResumeCheckpoint now value sig1)
  = recordsOf (normalizeResumeCheckpoint now value sig2).
Proof.
  unfold normalizeResumeCheckpoint.
  destruct (asRecord value) as [root|]; [|done]. cbv zeta.
  destruct (hasLegacyData root) eqn:Hlegacy.
  - by rewrite !andb_false_r.
  - rewrite !andb_true_r.
    do 2 case_bool_decide; try done;
      by rewrite ?(loaded_without_data now root _ Hlegacy).
Qed.

Lemma pending_from_records appendMemories c1 c2 persona memory :
  recordsOf c1 = recordsOf c2 →
  personaChunksPending appendMemories c1 persona = personaChunksPending appendMemories c2 persona ∧
  memoryChunksPending c1 memory = memoryChunksPending c2 memory.
Proof.
  unfold recordsOf. intros [= Hp Hm Hf].
  unfold personaChunksPending, memoryChunksPending, processedMemoryFileSet,
    personaObservationByConversation, memoryCandidateMap.
  by rewrite Hp, Hm, Hf.
Qed.

(** The signature of the run never changes what a resumed run skips: the
    same packets are pending under any two signatures. *)
Lemma pending_ignores_signature now stored sig1 sig2 appendMemories persona memory :
  personaChunksPending appendMemories (loadCheckpoint now false stored sig1) persona
  = personaChunksPending appendMemories (loadCheckpoint now false stored sig2) persona ∧
  memoryChunksPending (loadCheckpoint now false stored sig1) memory
  = memoryChunksPending (loadCheckpoint now false stored sig2) memory.
Proof.
  apply pending_from_records. unfold loadCheckpoint, readResumeCheckpoint.
  destruct stored; apply records_ignore_signature.
Qed.

(** C1, evaluated on [storedOld]. The checkpoint was stored under the
    signature "old" and the resumed run has the signature "new". The claim
    is that loading yields the empty checkpoint and that the run starts from
    zero. The code loads the stored observation and the processed file, and
    nothing is pending for the conversation they name: the guard of
    [normalizeResumeCheckpoint] returns the empty checkpoint on a mismatch
    only when the stored checkpoint holds no record, whether or not it
    carries a signature. *)
Theorem mismatched_checkpoint_is_loaded :
  let checkpoint := loadCheckpoint nowSample false (Some (JObj storedOld)) (lit "new") in
  safeString (getField storedOld (lit "signature")) [] ≠ lit "new" ∧
  personaObservationsByConversation checkpoint ≠ [] ∧
  processedMemoryFiles checkpoint = [lit "a.jsonl"] ∧
  personaChunksPending false checkpoint [chunkOf "a" "a.jsonl"] = [] ∧
  memoryChunksPending checkpoint [chunkOf "a" "a.jsonl"] = [] ∧
  ¬ startsFromZero checkpoint [chunkOf "a" "a.jsonl"] [chunkOf "a" "a.jsonl"].
Proof.
  assert (personaChunksPending false
            (loadCheckpoint nowSample false (Some (JObj storedOld)) (lit "new"))
            [chunkOf "a" "a.jsonl"] = []) as Hp by (vm_compute; reflexivity).
  assert (memoryChunksPending
            (loadCheckpoint nowSample false (Some (JObj storedOld)) (lit "new"))
            [chunkOf "a" "a.jsonl"] = []) as Hm by (vm_compute; reflexivity).
  cbv zeta. split_and!; [vm_compute; discriminate|vm_compute; discriminate|
                      vm_compute; reflexivity|exact Hp|exact Hm|].
  intros [H _]. rewrite Hp in H. discriminate.
Qed.

(** The claim of C3 fails on the checkpoint loaded from [storedOld] under
    its own signature: "a.jsonl" is a processed memory file without
    candidates, only one of the two records names it, and its conversation
    is skipped all the same. *)
Lemma processed_file_without_candidates_is_skipped :
  let checkpoint := loadCheckpoint nowSample false (Some (JObj storedOld)) (lit "old") in
  lit "a.jsonl" ∈ processedMemoryFiles checkpoint ∧
  memoryCandidatesBySourceFile checkpoint = [] ∧
  memoryChunksPending checkpoint [chunkOf "a" "a.jsonl"] = [] ∧
  ¬ skippedIffBothRecord checkpoint [chunkOf "a" "a.jsonl"] (chunkOf "a" "a.jsonl").
Proof.
  assert (memoryChunksPending
            (loadCheckpoint nowSample false (Some (JObj storedOld)) (lit "old"))
            [chunkOf "a" "a.jsonl"] = []) as Hm by (vm_compute; reflexivity).
  cbv zeta. split_and!; [vm_compute; left|vm_compute; reflexivity|exact Hm|].
  unfold skippedIffBothRecord. rewrite Hm. intros [H _].
  destruct (H (not_elem_of_nil _)) as [_ (rows & Hrows & _)].
  vm_compute in Hrows. by apply elem_of_nil in Hrows.
Qed.

(** C3, as the code has it. A selected memory conversation is skipped if
    and only if its source file is listed in [processedMemoryFiles] of the
    loaded checkpoint, or has at least one sanitized candidate in
    [memoryCandidatesBySourceFile]: one of the two records is enough. *)
Theorem memory_extraction_skipped_iff_either_record checkpoint chunksForMemory chunk :
  chunk ∈ chunksForMemory →
  (chunk ∉ memoryChunksPending checkpoint chunksForMemory ↔
   Packets.sourceFile chunk ∈ processedMemoryFiles checkpoint ∨
   hasCandidates checkpoint (Packets.sourceFile chunk)).
Proof.
  intros Hchunk. unfold memoryChunksPending.
  rewrite list_elem_of_filter.
  assert (Packets.sourceFile chunk ∈ validMemorySourceFiles chunksForMemory) as Hvalid.
  { unfold validMemorySourceFiles. rewrite elem_of_list_to_set.
    apply list_elem_of_fmap. by exists chunk. }
  pose proof (elem_of_processedMemoryFileSet checkpoint chunksForMemory
                (Packets.sourceFile chunk)) as Hset.
  split.
  - intros Hnot.
    destruct (decide (Packets.sourceFile chunk
                        ∈ processedMemoryFileSet checkpoint chunksForMemory)) as [Hin|Hout].
    + by apply Hset in Hin as [_ ?].
    + exfalso. apply Hnot. by split.
  - intros Hrec [Hout _]. apply Hout, Hset. by split.
Qed.

Lemma memory_extraction_skipped_iff_either_record_witness :
  chunkOf "a" "a.jsonl"
    ∉ memoryChunksPending (loadCheckpoint nowSample false (Some (JObj storedOld)) (lit "old"))
        [chunkOf "a" "a.jsonl"; chunkOf "b" "b.jsonl"] ↔
  lit "a.jsonl"
    ∈ processedMemoryFiles (loadCheckpoint nowSample false (Some (JObj storedOld)) (lit "old")) ∨
  hasCandidates (loadCheckpoint nowSample false (Some (JObj storedOld)) (lit "old"))
    (lit "a.jsonl").
Proof.
  apply (memory_extraction_skipped_iff_either_record
           (loadCheckpoint nowSample false (Some (JObj storedOld)) (lit "old"))
           [chunkOf "a" "a.jsonl"; chunkOf "b" "b.jsonl"] (chunkOf "a" "a.jsonl")).
  left.
Defined.

End Resume.

(* ===================================================================== *)
(** ** Retry and backoff of the LLM HTTP calls *)
(* ===================================================================== *)

Module Retry.
Import Js.

(** A thrown [Error]: its [name] and its [message]. *)
Record Error := mkError {
  errorName : jsstring;
  message : jsstring;
}.

(** What one call of [fetchJson] does: it returns the parsed body or throws. *)
Inductive Outcome :=
| Returned (data : jsval)
| Thrown (error : Error).

Definition RETRY_MARKERS : list jsstring :=
  lit <$> [ "429"; "500"; "502"; "503"; "504"; "too many requests"; "rate limit";
            "overloaded"; "temporarily unavailable"; "service unavailable"; "timeout";
            "timed out"; "connection reset"; "try again later" ]%string.

Definition toErrorMessage (error : Error) : jsstring := message error.

Definition isRetryableError (error : Error) : bool :=
  let text := toLowerCase (toErrorMessage error) in
  existsb (λ marker, includes text marker) RETRY_MARKERS.

(** The argument of [onRetry] (the url apart). *)
Record RetryEvent := mkEvent {
  attempt : nat;
  maxAttempts : nat;
  backoffSeconds : Q;
  error : jsstring;
}.

(** The result of [fetchJsonWithRetry]: what it returns or throws, the retry
    events it emitted (one before each delay), and the number of calls of
    [fetchJson] it made. *)
Record Run := mkRun {
  outcome : Outcome;
  events : list RetryEvent;
  attempts : nat;
}.

Definition isNamed (error : Error) (name : string) : bool :=
  bool_decide (errorName error = lit name).

(** The exponent of a positive number: the [e] with [2^e <= x < 2^(e+1)]. *)
Definition binade (x : Q) : Z :=
  if Qle_bool 1 x then Z.log2 (Qfloor x) else (- Z.log2_up (Qceiling (/ x)))%Z.

(** The nearest integer; of two nearest ones, the even one. *)
Definition roundHalfEven (y : Q) : Z :=
  let below := Qfloor y in
  match (y - inject_Z below ?= 1 # 2)%Q with
  | Lt => below
  | Gt => (below + 1)%Z
  | Eq => if Z.even below then below else (below + 1)%Z
  end.

(** The number of binary64 that is nearest to a positive number [x] in the
    range of the normal numbers: [x] is rounded to 53 significant bits, ties
    to even. This is the result of an operation on numbers whose exact
    result is [x]. *)
Definition roundDouble (x : Q) : Q :=
  let ulp := (2 ^ (binade x - 52))%Q in
  (inject_Z (roundHalfEven (x / ulp)) * ulp)%Q.

(** [Math.min(45, (2 ** (attempt - 1)) + Math.random())]; [u] is the value
    that [Math.random()] returned. The power and the minimum are exact, the
    sum is rounded; it is 1 at least. *)
Definition backoff (attempt : nat) (u : Q) : Q :=
  Qmin 45 (roundDouble (inject_Z (2 ^ (Z.of_nat attempt - 1)) + u)).

Section Call.

(** The world of one call: the outcome of the k-th call of [fetchJson], whether
    the upstream signal is aborted when that call has thrown, and the value
    that [Math.random()] returns after it. *)
Variable fetchJson : nat → Outcome.
Variable aborted : nat → bool.
Variable random : nat → Q.
Variable limit : nat.

Definition thrown (k : nat) : jsstring :=
  match fetchJson k with
  | Thrown error => toErrorMessage error
  | Returned _ => []
  end.

Definition eventOf (k : nat) : RetryEvent :=
  {| attempt := k; maxAttempts := limit; backoffSeconds := backoff k (random k);
     error := thrown k |}.

(** The [while (true)] loop of [fetchJsonWithRetry]; it ends because
    [attempt] grows up to [maxAttempts]. *)
Equations? retryLoop (k : nat) (emitted : list RetryEvent) : Run by wf (limit - k)%nat lt :=
  retryLoop k emitted with fetchJson k := {
    | Returned data => {| outcome := Returned data; events := emitted; attempts := k |}
    | Thrown e with aborted k || isNamed e "AbortError" := {
      | true => {| outcome := Thrown e; events := emitted; attempts := k |}
      | false with isNamed e "TimeoutError" := {
        | true => {| outcome := Thrown e; events := emitted; attempts := k |}
        | false with decide (limit ≤ k)%nat := {
          | left _ => {| outcome := Thrown e; events := emitted; attempts := k |}
          | right _ with isRetryableError e := {
            | false => {| outcome := Thrown e; events := emitted; attempts := k |}
            | true =>
                retryLoop (S k)
                  (emitted ++ [ {| attempt := k; maxAttempts := limit;
                                   backoffSeconds := backoff k (random k);
                                   error := toErrorMessage e |} ]) } } } } }.
Proof. lia. Qed.

Definition fetchJsonWithRetry : Run := retryLoop 1 [].

(** The k-th call threw [e] and the loop goes on to another call. *)
Definition retried (k : nat) (e : Error) : Prop :=
  aborted k = false ∧ isNamed e "AbortError" = false ∧ isNamed e "TimeoutError" = false ∧
  (k < limit)%nat ∧ isRetryableError e = true.

Lemma retryLoop_spec k emitted :
  (k ≤ attempts (retryLoop k emitted))%nat ∧
  (attempts (retryLoop k emitted) ≤ k `max` limit)%nat ∧
  outcome (retryLoop k emitted) = fetchJson (attempts (retryLoop k emitted)) ∧
  (∀ j, (k ≤ j < attempts (retryLoop k emitted))%nat →
        ∃ e, fetchJson j = Thrown e ∧ retried j e) ∧
  (∀ e, fetchJson (attempts (retryLoop k emitted)) = Thrown e →
        ¬ retried (attempts (retryLoop k emitted)) e) ∧
  events (retryLoop k emitted)
    = emitted ++ (eventOf <$> seq k (attempts (retryLoop k emitted) - k)).
Proof.
  funelim (retryLoop k emitted).
  all: try rewrite <- Heqcall; simpl.
  all: try (split_and!;
    [ lia | lia | by match goal with H : fetchJson _ = _ |- _ => rewrite H end | intros; lia
    | intros e0 He0 (Ha & Hb & Hc & Hd & He); rewrite He0 in *;
      simplify_eq; rewrite ?Ha, ?Hb in *; simpl in *; first [congruence|lia]
    | rewrite Nat.sub_diag; simpl; by rewrite app_nil_r ]; fail).
  set (r := retryLoop (S k) _) in *.
  destruct H as (H1 & H2 & H3 & H4 & H5 & H6).
  assert (fetchJson k = Thrown e) as Hk by assumption.
  assert (retried k e) as Hretried.
  { unfold retried. repeat match goal with
      | H : _ || _ = false |- _ => apply orb_false_elim in H as [? ?]
      end. split_and!; try assumption. lia. }
  split_and!; [lia|lia|exact H3| |exact H5|].
  - intros j Hj. destruct (decide (j = k)) as [->|Hne].
    + by exists e.
    + apply H4. lia.
  - rewrite H6, <- app_assoc. f_equal.
    replace (attempts r - k)%nat with (S (attempts r - S k)) by lia.
    simpl. f_equal. unfold eventOf, thrown. by rewrite Hk.
Qed.

End Call.

Lemma binade_of_range (e : Z) (x : Q) :
  (0 ≤ e)%Z → (inject_Z (2 ^ e) <= x)%Q → (x < inject_Z (2 ^ (e + 1)))%Q → binade x = e.
Proof.
  intros He Hlow Hhigh. unfold binade.
  assert (1 ≤ 2 ^ e)%Z as Hone by (pose proof (Z.pow_pos_nonneg 2 e); lia).
  assert (1 <= x)%Q as Hx.
  { eapply Qle_trans; [|exact Hlow]. change 1%Q with (inject_Z 1).
    rewrite <- Zle_Qle. exact Hone. }
  apply Qle_bool_iff in Hx. rewrite Hx.
  apply Z.log2_unique; [done|]. split.
  - rewrite <- (Qfloor_Z (2 ^ e)). by apply Qfloor_resp_le.
  - rewrite Zlt_Qlt. eapply Qle_lt_trans; [apply Qfloor_le|]. exact Hhigh.
Qed.

Lemma roundHalfEven_between (lower upper : Z) (y : Q) :
  (inject_Z lower <= y)%Q → (y <= inject_Z upper)%Q →
  (lower ≤ roundHalfEven y ≤ upper)%Z.
Proof.
  intros Hlow Hhigh.
  assert (lower ≤ Qfloor y)%Z as Hfloor.
  { rewrite <- (Qfloor_Z lower). by apply Qfloor_resp_le. }
  assert (Qfloor y ≤ upper)%Z as Hbelow.
  { rewrite Zle_Qle. eapply Qle_trans; [apply Qfloor_le|done]. }
  assert ((0 < y - inject_Z (Qfloor y))%Q → (Qfloor y + 1 ≤ upper)%Z) as Hup.
  { intros Hpos. assert (Qfloor y < upper)%Z; [|lia].
    rewrite Zlt_Qlt. eapply Qlt_le_trans; [|exact Hhigh]. lra. }
  unfold roundHalfEven.
  destruct (Qcompare_spec (y - inject_Z (Qfloor y)) (1 # 2)) as [Heq|Hlt|Hgt].
  - destruct (Z.even (Qfloor y)); [lia|]. split; [lia|]. apply Hup. lra.
  - lia.
  - split; [lia|]. apply Hup. lra.
Qed.

(** In the binade of [2^e], for [e] up to 52, the numbers of binary64 are
    the multiples of [2^(e-52)]: the sum of [2^e] and a jitter below 1 is
    rounded to a number from [2^e] to [2^e + 1], both included. *)
Lemma roundDouble_binade (e : Z) (power scale : Z) (u : Q) :
  (0 ≤ e)%Z → power = (2 ^ e)%Z → (2 ^ (e - 52) == 1 / inject_Z scale)%Q →
  (0 < scale)%Z → (power * scale = 2 ^ 52)%Z →
  (0 <= u)%Q → (u < 1)%Q →
  (inject_Z power <= roundDouble (inject_Z power + u))%Q ∧
  (roundDouble (inject_Z power + u) <= inject_Z power + 1)%Q.
Proof.
  intros He Hpower Hulp Hscale Hgrid Hpos Hone.
  assert (1 ≤ power)%Z as Hp by (pose proof (Z.pow_pos_nonneg 2 e); lia).
  assert (1 <= inject_Z power)%Q as Hp' by (change 1%Q with (inject_Z 1); by rewrite <- Zle_Qle).
  assert (binade (inject_Z power + u) = e) as Hbinade.
  { apply binade_of_range; [done|rewrite <- Hpower; clear - Hpos; lra|].
    replace (e + 1)%Z with (Z.succ e) by lia.
    rewrite Z.pow_succ_r, <- Hpower, inject_Z_mult by lia.
    change (inject_Z 2) with 2%Q. clear - Hone Hp'. lra. }
  unfold roundDouble. rewrite Hbinade.
  assert (0 < inject_Z scale)%Q as Hs by (change 0%Q with (inject_Z 0); by rewrite <- Zlt_Qlt).
  set (x := (inject_Z power + u)%Q).
  assert (x / 2 ^ (e - 52) == x * inject_Z scale)%Q as Hdiv.
  { rewrite Hulp. field. lra. }
  destruct (roundHalfEven_between (power * scale) (power * scale + scale)
              (x / 2 ^ (e - 52))%Q) as [Hlow Hhigh].
  { rewrite Hdiv, inject_Z_mult. unfold x. clear - Hpos Hs. nra. }
  { rewrite Hdiv, inject_Z_plus, inject_Z_mult. unfold x. clear - Hone Hs. nra. }
  rewrite Zle_Qle in Hlow, Hhigh. rewrite inject_Z_plus, inject_Z_mult in Hhigh.
  rewrite inject_Z_mult in Hlow.
  set (r := inject_Z (roundHalfEven _)) in *.
  assert (r * 2 ^ (e - 52) == r / inject_Z scale)%Q as -> by (rewrite Hulp; field; lra).
  split.
  - by apply Qle_shift_div_l.
  - apply Qle_shift_div_r; [done|]. clear - Hhigh. lra.
Qed.

Lemma roundDouble_jitter (k : nat) (u : Q) :
  (1 ≤ k ≤ 5)%nat → (0 <= u)%Q → (u < 1)%Q →
  (inject_Z (2 ^ (Z.of_nat k - 1)) <= roundDouble (inject_Z (2 ^ (Z.of_nat k - 1)) + u))%Q ∧
  (roundDouble (inject_Z (2 ^ (Z.of_nat k - 1)) + u) <= inject_Z (2 ^ (Z.of_nat k - 1)) + 1)%Q.
Proof.
  intros Hk Hpos Hone.
  apply (roundDouble_binade (Z.of_nat k - 1) _ (2 ^ (53 - Z.of_nat k)));
    [lia|done| | | |done|done].
  - destruct k as [|[|[|[|[|[|k]]]]]]; try lia; vm_compute; reflexivity.
  - apply Z.pow_pos_nonneg; lia.
  - rewrite <- Z.pow_add_r by lia. f_equal. lia.
Qed.

(** The numbers of binary64 that the literals [0.1] and [17.3] denote, one
    below 1 and one in the binade of 16. *)
Example roundDouble_of_literals :
  (roundDouble (1 # 10) == 3602879701896397 # 36028797018963968)%Q ∧
  (roundDouble (173 # 10) == 4869517097094349 # 281474976710656)%Q.
Proof. split; vm_compute; reflexivity. Qed.

(** The sum is rounded: with the jitter [1 - 2^-52] the delay after the
    second call is 3 seconds and the delay after the fifth call is
    17 seconds, while the delay after the first call stays below
    2 seconds. *)
Example backoff_rounds_up :
  let u := (1 - (1 # 4503599627370496))%Q in
  (0 <= u)%Q ∧ (u < 1)%Q ∧ (backoff 2 u == 3)%Q ∧ (backoff 5 u == 17)%Q ∧
  (backoff 1 u < 2)%Q.
Proof. vm_compute. repeat split; discriminate. Qed.

(** An HTTP timeout as [fetchJson] throws it: the name is "TimeoutError" and
    the message carries the request tag and the url. *)
Definition timeoutError : Error :=
  {| errorName := lit "TimeoutError";
     message := lit "Request timed out after 180s [memory_extract timeout-notes] | url=https://api.openai.com/v1/chat/completions | payload_bytes=2048" |}.

(** A provider that answers 503 twice and then returns a body. *)
Definition overloadedError : Error :=
  {| errorName := lit "Error";
     message := lit "HTTP 503 Service Unavailable | response=overloaded" |}.

Definition recoversAtThird (k : nat) : Outcome :=
  if (k <? 3)%nat then Thrown overloadedError else Returned (JObj []).

Definition neverAborted (k : nat) : bool := false.

Definition halfJitter (k : nat) : Q := 1 # 2.

(** Every error whose text matches a retry marker is retried while attempts
    are left. *)
Definition retriesEveryMatchingError (fetchJson : nat → Outcome) (aborted : nat → bool)
    (random : nat → Q) (limit : nat) : Prop :=
  ∀ k e, (1 ≤ k ≤ attempts (fetchJsonWithRetry fetchJson aborted random limit))%nat →
         (k < limit)%nat → fetchJson k = Thrown e → isRetryableError e = true →
         (k < attempts (fetchJsonWithRetry fetchJson aborted random limit))%nat.

(** The claim of C4 fails on a timeout: the message of [timeoutError]
    contains the markers "timed out" and "timeout", and the call is made once
    and throws. *)
Lemma timeout_is_raised_at_once :
  isRetryableError timeoutError = true ∧
  includes (toLowerCase (message timeoutError)) (lit "timeout") = true ∧
  attempts (fetchJsonWithRetry (λ _, Thrown timeoutError) neverAborted halfJitter 6) = 1%nat ∧
  outcome (fetchJsonWithRetry (λ _, Thrown timeoutError) neverAborted halfJitter 6)
    = Thrown timeoutError ∧
  ¬ retriesEveryMatchingError (λ _, Thrown timeoutError) neverAborted halfJitter 6.
Proof.
  assert (attempts (fetchJsonWithRetry (λ _, Thrown timeoutError) neverAborted halfJitter 6)
          = 1%nat) as Hone by (vm_compute; reflexivity).
  split_and!; [vm_compute; reflexivity..|exact Hone|vm_compute; reflexivity|].
  intros Hall. specialize (Hall 1%nat timeoutError). rewrite Hone in Hall.
  assert (1 < 1)%nat; [|lia].
  apply Hall; [lia|lia|reflexivity|vm_compute; reflexivity].
Qed.

(** C4, as the code has it. Of the at most 6 calls of [fetchJson] that one
    LLM call makes, a call that throws is followed by another one exactly
    when the upstream signal is not aborted, the error is neither an
    "AbortError" nor a "TimeoutError", fewer than 6 calls were made, and the
    lower-cased message contains one of [RETRY_MARKERS]; otherwise the error
    is thrown at once. The result is the outcome of the last call. One retry
    event is emitted per failed call that is retried, and the delay after
    call k is [min(45, 2^(k-1) + u)] for the [u] in [0,1) that
    [Math.random()] returned, where the sum is the sum of binary64: the
    delay lies between [2^(k-1)] and [2^(k-1) + 1] seconds, both included,
    and is at most 45 seconds. *)
Theorem fetchJsonWithRetry_discipline fetchJson aborted random :
  (∀ k, (0 <= random k)%Q ∧ (random k < 1)%Q) →
  (1 ≤ attempts (fetchJsonWithRetry fetchJson aborted random 6) ≤ 6)%nat ∧
  outcome (fetchJsonWithRetry fetchJson aborted random 6)
    = fetchJson (attempts (fetchJsonWithRetry fetchJson aborted random 6)) ∧
  (∀ k e, (1 ≤ k ≤ attempts (fetchJsonWithRetry fetchJson aborted random 6))%nat →
          fetchJson k = Thrown e →
          ((k < attempts (fetchJsonWithRetry fetchJson aborted random 6))%nat
           ↔ retried aborted 6 k e)) ∧
  length (events (fetchJsonWithRetry fetchJson aborted random 6))
    = (attempts (fetchJsonWithRetry fetchJson aborted random 6) - 1)%nat ∧
  (∀ ev, ev ∈ events (fetchJsonWithRetry fetchJson aborted random 6) →
         (1 ≤ attempt ev < attempts (fetchJsonWithRetry fetchJson aborted random 6))%nat ∧
         (∃ u, (0 <= u)%Q ∧ (u < 1)%Q ∧
               backoffSeconds ev
                 = Qmin 45 (roundDouble (inject_Z (2 ^ (Z.of_nat (attempt ev) - 1)) + u))) ∧
         (inject_Z (2 ^ (Z.of_nat (attempt ev) - 1)) <= backoffSeconds ev)%Q ∧
         (backoffSeconds ev <= inject_Z (2 ^ (Z.of_nat (attempt ev) - 1)) + 1)%Q ∧
         (backoffSeconds ev <= 45)%Q).
Proof.
  intros Hrandom. unfold fetchJsonWithRetry.
  destruct (retryLoop_spec fetchJson aborted random 6 1 [])
    as (H1 & H2 & H3 & H4 & H5 & H6).
  set (r := retryLoop fetchJson aborted random 6 1 []) in *.
  split_and!; [lia|lia|exact H3| | |].
  - intros k e [Hk1 Hk2] Hthrown. split.
    + intros Hlt. destruct (H4 k ltac:(lia)) as (e' & He' & Hretried). congruence.
    + intros Hretried. destruct (decide (k = attempts r)) as [->|Hne]; [|lia].
      by destruct (H5 e Hthrown).
  - rewrite H6. simpl. by rewrite length_fmap, length_seq.
  - intros ev Hev. rewrite H6 in Hev. simpl in Hev.
    apply list_elem_of_fmap in Hev as (k & -> & Hk%elem_of_seq). simpl.
    destruct (Hrandom k) as [Hpos Hone].
    destruct (roundDouble_jitter k (random k) ltac:(lia) Hpos Hone) as [Hlow Hhigh].
    split_and!; [lia|lia|by exists (random k)| | |apply Q.le_min_l].
    + unfold backoff. apply Q.min_glb; [|exact Hlow].
      change 45%Q with (inject_Z 45). rewrite <- Zle_Qle.
      assert (2 ^ (Z.of_nat k - 1) ≤ 2 ^ 4)%Z; [apply Z.pow_le_mono_r; lia|lia].
    + unfold backoff. eapply Qle_trans; [apply Q.le_min_r|exact Hhigh].
Qed.

Lemma fetchJsonWithRetry_discipline_witness :
  (1 ≤ attempts (fetchJsonWithRetry recoversAtThird neverAborted halfJitter 6) ≤ 6)%nat ∧
  outcome (fetchJsonWithRetry recoversAtThird neverAborted halfJitter 6)
    = recoversAtThird (attempts (fetchJsonWithRetry recoversAtThird neverAborted halfJitter 6)).
Proof.
  assert (∀ k, (0 <= halfJitter k)%Q ∧ (halfJitter k < 1)%Q) as Hjitter
    by (intros k; split; reflexivity || discriminate).
  pose proof (fetchJsonWithRetry_discipline recoversAtThird neverAborted halfJitter Hjitter)
    as (Hbound & Hlast & _).
  exact (conj Hbound Hlast).
Defined.

End Retry.

(* ===================================================================== *)
(** ** Primary model of a conversation *)
(* ===================================================================== *)

Module Models.
Import Js.
Local Open Scope Z_scope.

(** Code units compared in sequence: the order of [<] on strings. *)
Fixpoint lexCompare (a b : list N) : comparison :=
  match a, b with
  | [], [] => Eq
  | [], _ :: _ => Lt
  | _ :: _, [] => Gt
  | x :: a', y :: b' =>
      match (x ?= y)%N with
      | Eq => lexCompare a' b'
      | c => c
      end
  end.

(** [counts.get(model) ?? 0]. *)
Definition countOf (counts : gmap jsstring Z) (model : jsstring) : Z :=
  default 0 (counts !! model).

Section Choose.

(** [String.prototype.localeCompare], the collation of the platform. *)
Variable localeCompare : jsstring → jsstring → Z.
Variable counts : gmap jsstring Z.

(** The loop over [models.slice(1)]. *)
Fixpoint chooseLoop (rest : list jsstring) (best : jsstring) (bestCount : Z) : jsstring :=
  match rest with
  | [] => best
  | model :: rest' =>
      let count := countOf counts model in
      if bestCount <? count then chooseLoop rest' model count
      else if (count =? bestCount) && (0 <? localeCompare model best)
           then chooseLoop rest' model count
           else chooseLoop rest' best bestCount
  end.

(** [choosePrimaryModel]; [None] stands for the thrown error. *)
Definition choosePrimaryModel (models : list jsstring) : option jsstring :=
  match models with
  | [] => None
  | [] :: _ => None
  | first :: rest => Some (chooseLoop rest first (countOf counts first))
  end.

End Choose.

(** Modelled from the platform: the default collation behind
    [localeCompare] (the root collation of ICU) on ASCII text. Strings are
    compared by the primary weights of all their characters first, where
    punctuation sorts before digits, digits before letters, and a letter has
    the weight of its lower case; only when these agree does case decide,
    lower case first. Both levels are laid out in one sort key. The relative
    weight of two punctuation marks is taken from their code units. *)
Definition primaryWeight (c : jschar) : N :=
  if ((97 <=? c) && (c <=? 122))%N then c + 1000
  else if ((65 <=? c) && (c <=? 90))%N then c + 32 + 1000
  else if ((48 <=? c) && (c <=? 57))%N then c + 500
  else c + 1.

Definition caseWeight (c : jschar) : N :=
  if ((65 <=? c) && (c <=? 90))%N then 2 else 1.

Definition sortKey (s : jsstring) : list N :=
  (primaryWeight <$> s) ++ [0%N] ++ (caseWeight <$> s).

Definition collationCompare (a b : jsstring) : Z :=
  match lexCompare (sortKey a) (sortKey b) with
  | Lt => -1
  | Eq => 0
  | Gt => 1
  end.

(** The claim under test: among the candidates with the highest count the
    chosen one is the greatest by code units. *)
Definition choosesGreatestByCodeUnits (localeCompare : jsstring → jsstring → Z)
    (counts : gmap jsstring Z) (models : list jsstring) : Prop :=
  ∃ best, choosePrimaryModel localeCompare counts models = Some best ∧
          ∀ m, m ∈ models → countOf counts m = countOf counts best →
               lexCompare m best ≠ Gt.

Definition tiedModels : list jsstring := [lit "gpt-3.5"; lit "GPT-4"].

Definition tiedCounts : gmap jsstring Z :=
  <[lit "gpt-3.5" := 2]> (<[lit "GPT-4" := 2]> ∅).

Lemma lexCompare_refl a : lexCompare a a = Eq.
Proof. induction a as [|x a IH]; simpl; [done|]. by rewrite N.compare_refl. Qed.

Lemma lexCompare_gt_trans a b c :
  lexCompare a b = Gt → lexCompare b c = Gt → lexCompare a c = Gt.
Proof.
  revert b c. induction a as [|x a IH]; intros [|y b] [|z c]; simpl; try done.
  destruct (x ?= y)%N eqn:Exy; [|done|]; destruct (y ?= z)%N eqn:Eyz; try done.
  - apply N.compare_eq in Exy, Eyz. subst. rewrite N.compare_refl. apply IH.
  - apply N.compare_eq in Exy. subst. by rewrite Eyz.
  - apply N.compare_eq in Eyz. subst. by rewrite Exy.
  - intros _ _. apply N.compare_gt_iff in Exy, Eyz.
    assert (z < x)%N as ->%N.compare_gt_iff by lia. done.
Qed.

Lemma collationCompare_irreflexive a : ¬ 0 < collationCompare a a.
Proof. unfold collationCompare. rewrite lexCompare_refl. lia. Qed.

Lemma collationCompare_transitive a b c :
  0 < collationCompare a b → 0 < collationCompare b c → 0 < collationCompare a c.
Proof.
  unfold collationCompare.
  destruct (lexCompare (sortKey a) (sortKey b)) eqn:Eab; try lia.
  destruct (lexCompare (sortKey b) (sortKey c)) eqn:Ebc; try lia.
  by rewrite (lexCompare_gt_trans _ _ _ Eab Ebc).
Qed.

Section Facts.

Variable localeCompare : jsstring → jsstring → Z.
Variable counts : gmap jsstring Z.
Hypothesis irreflexive : ∀ a, ¬ 0 < localeCompare a a.
Hypothesis transitive :
  ∀ a b c, 0 < localeCompare a b → 0 < localeCompare b c → 0 < localeCompare a c.

(** No model of [seen] beats [best]: none has a higher count, and none with
    the same count compares greater. *)
Definition unbeaten (seen : list jsstring) (best : jsstring) : Prop :=
  ∀ m, m ∈ seen →
       countOf counts m ≤ countOf counts best ∧
       (countOf counts m = countOf counts best → ¬ 0 < localeCompare m best).

Lemma chooseLoop_unbeaten rest seen best :
  best ∈ seen → unbeaten seen best →
  chooseLoop localeCompare counts rest best (countOf counts best) ∈ seen ++ rest ∧
  unbeaten (seen ++ rest)
           (chooseLoop localeCompare counts rest best (countOf counts best)).
Proof.
  revert seen best. induction rest as [|model rest IH]; intros seen best Hin Hbest; simpl.
  - by rewrite app_nil_r.
  - replace (seen ++ model :: rest) with ((seen ++ [model]) ++ rest)
      by (by rewrite <- app_assoc).
    destruct (countOf counts best <? countOf counts model) eqn:Egt;
      [|destruct ((countOf counts model =? countOf counts best)
                  && (0 <? localeCompare model best)) eqn:Etie].
    + apply IH; [set_solver|].
      intros m [Hm| ->%list_elem_of_singleton]%elem_of_app.
      * destruct (Hbest m Hm). lia.
      * split; [lia|]. intros _. apply irreflexive.
    + apply andb_true_iff in Etie as [Heq%Z.eqb_eq Hcmp%Z.ltb_lt].
      apply IH; [set_solver|].
      intros m [Hm| ->%list_elem_of_singleton]%elem_of_app.
      * destruct (Hbest m Hm) as [Hle Hno]. split; [lia|].
        intros Hsame Hgreater. apply Hno; [lia|]. by eapply transitive.
      * split; [lia|]. intros _. apply irreflexive.
    + apply IH; [set_solver|].
      intros m [Hm| ->%list_elem_of_singleton]%elem_of_app; [by apply Hbest|].
      split; [lia|]. intros Hsame Hgreater.
      apply andb_false_iff in Etie as [Hne%Z.eqb_neq|Hno%Z.ltb_ge]; lia.
Qed.

End Facts.

(** The claim of C8 fails on ["gpt-3.5"; "GPT-4"] with two messages each:
    the collation puts "GPT-4" after "gpt-3.5" (4 follows 3, whatever the
    case of the letters), so [choosePrimaryModel] returns "GPT-4", while
    "gpt-3.5" is the greater string by code units ("g" is 103, "G" is 71). *)
Lemma collation_is_not_code_unit_order :
  choosePrimaryModel collationCompare tiedCounts tiedModels = Some (lit "GPT-4") ∧
  countOf tiedCounts (lit "gpt-3.5") = countOf tiedCounts (lit "GPT-4") ∧
  lexCompare (lit "gpt-3.5") (lit "GPT-4") = Gt ∧
  ¬ choosesGreatestByCodeUnits collationCompare tiedCounts tiedModels.
Proof.
  assert (choosePrimaryModel collationCompare tiedCounts tiedModels = Some (lit "GPT-4"))
    as Hchosen by (vm_compute; reflexivity).
  split_and!; [exact Hchosen|vm_compute; reflexivity..|].
  intros (best & Hbest & Hall). rewrite Hchosen in Hbest. injection Hbest as <-.
  apply (Hall (lit "gpt-3.5")); [left|vm_compute; reflexivity..].
Qed.

(** C8, as the code has it. For a list of model names whose first name is
    not empty, [choosePrimaryModel] returns a model of the list with the
    highest message count, and no model that ties on that count compares
    greater than it under [localeCompare]: ties go to the candidate that the
    collation of the platform puts last, which is a function of the list and
    the counts. *)
Theorem choosePrimaryModel_highest_count_then_collation
    (localeCompare : jsstring → jsstring → Z) (counts : gmap jsstring Z)
    (first : jsstring) (rest : list jsstring) :
  (∀ a, ¬ 0 < localeCompare a a) →
  (∀ a b c, 0 < localeCompare a b → 0 < localeCompare b c → 0 < localeCompare a c) →
  first ≠ [] →
  ∃ best, choosePrimaryModel localeCompare counts (first :: rest) = Some best ∧
          best ∈ first :: rest ∧
          ∀ m, m ∈ first :: rest →
               countOf counts m ≤ countOf counts best ∧
               (countOf counts m = countOf counts best → ¬ 0 < localeCompare m best).
Proof.
  intros Hirr Htrans Hfirst.
  exists (chooseLoop localeCompare counts rest first (countOf counts first)).
  split; [by destruct first|].
  apply (chooseLoop_unbeaten localeCompare counts Hirr Htrans rest [first] first).
  - left.
  - intros m ->%list_elem_of_singleton. split; [lia|]. intros _. apply Hirr.
Qed.

Lemma choosePrimaryModel_highest_count_then_collation_witness :
  ∃ best, choosePrimaryModel collationCompare tiedCounts (lit "gpt-3.5" :: [lit "GPT-4"])
            = Some best ∧
          best ∈ lit "gpt-3.5" :: [lit "GPT-4"] ∧
          ∀ m, m ∈ lit "gpt-3.5" :: [lit "GPT-4"] →
               countOf tiedCounts m ≤ countOf tiedCounts best ∧
               (countOf tiedCounts m = countOf tiedCounts best →
                ¬ 0 < collationCompare m best).
Proof.
  apply (choosePrimaryModel_highest_count_then_collation collationCompare tiedCounts
           (lit "gpt-3.5") [lit "GPT-4"]
           collationCompare_irreflexive collationCompare_transitive).
  discriminate.
Defined.

End Models.

(* ===================================================================== *)
(** ** Prompt templates *)
(* ===================================================================== *)

Module Prompts.
Import Js.

(** [GetSubstitution] for a string pattern: in the replacement text [$$] is
    a dollar, [$&] the matched text, [$`] the text before the match and [$']
    the text after it; there are no captures, so any other [$] is literal. *)
Fixpoint getSubstitution (matched before after replacement : jsstring) : jsstring :=
  match replacement with
  | [] => []
  | c :: t =>
      if (c =? 36)%N then
        match t with
        | d :: t' =>
            if (d =? 36)%N then 36%N :: getSubstitution matched before after t'
            else if (d =? 38)%N then matched ++ getSubstitution matched before after t'
            else if (d =? 96)%N then before ++ getSubstitution matched before after t'
            else if (d =? 39)%N then after ++ getSubstitution matched before after t'
            else c :: getSubstitution matched before after t
        | [] => [c]
        end
      else c :: getSubstitution matched before after t
  end.

(** [text.replaceAll(pattern, replacement)] for a non-empty string pattern:
    the matches are found from left to right and do not overlap. [before] is
    the text already passed, [skip] the number of code units of the current
    match still to pass. *)
Fixpoint replaceFrom (pattern replacement before : jsstring) (skip : nat) (s : jsstring)
    : jsstring :=
  match s with
  | [] => []
  | c :: t =>
      match skip with
      | S skip' => replaceFrom pattern replacement (before ++ [c]) skip' t
      | O =>
          if startsWith s pattern
          then getSubstitution pattern before (drop (length pattern) s) replacement
                 ++ replaceFrom pattern replacement (before ++ [c]) (length pattern - 1) t
          else c :: replaceFrom pattern replacement (before ++ [c]) 0 t
      end
  end.

Definition replaceAll (text pattern replacement : jsstring) : jsstring :=
  replaceFrom pattern replacement [] 0 text.

(** [String(z)] for an integer. *)
Definition integerText (z : Z) : jsstring :=
  if (z <? 0)%Z then lit "-" ++ decimal (Z.abs_nat z) else decimal (Z.abs_nat z).

(** [String(value)]. An array is the join of its elements with commas, where
    [null] and [undefined] elements are empty. *)
Fixpoint toText (value : jsval) : jsstring :=
  match value with
  | JUndefined => lit "undefined"
  | JNull => lit "null"
  | JBool true => lit "true"
  | JBool false => lit "false"
  | JNum (Finite z) => integerText z
  | JNum NaN => lit "NaN"
  | JStr s => s
  | JArr items =>
      join (lit ",")
           ((fix each (l : list jsval) : list jsstring :=
               match l with
               | [] => []
               | JUndefined :: l' | JNull :: l' => [] :: each l'
               | item :: l' => toText item :: each l'
               end) items)
  | JObj _ => lit "[object Object]"
  end.

(** The template literal [`{${key}}`]. *)
Definition placeholder (key : jsstring) : jsstring := lit "{" ++ key ++ lit "}".

(** One iteration of the loop of [fillPromptTemplate]. *)
Definition fillStep (text : jsstring) (entry : jsstring * jsval) : jsstring :=
  let value := toText (nullish entry.2 (JStr [])) in
  replaceAll text (placeholder entry.1) value.

Definition fillPromptTemplate (template : jsstring) (values : list (jsstring * jsval))
    : jsstring :=
  foldl fillStep template (objectEntries values).

(** The placeholder names that the user templates substitute. *)
Definition documentedKeys : list jsstring :=
  lit <$> [ "companion_name"; "conversation_id"; "transcript"; "observation_packets";
            "candidate_memories"; "max_memories" ]%string.

(** The literal output tokens. *)
Definition userToken : jsstring := lit "{{user}}".
Definition charToken : jsstring := lit "{{char}}".

(** The number of places at which [token] occurs in [s]. *)
Fixpoint occurrences (token s : jsstring) : nat :=
  match s with
  | [] => 0
  | _ :: t => (if startsWith s token then 1 else 0) + occurrences token t
  end.

(** A user template in the style of the memory prompts, and the values of
    one memory extraction call. *)
Definition sampleTemplate : jsstring :=
  lit "Write memories about {{user}} and {{char}} ({companion_name}). Keep at most {max_memories}. Transcript: {transcript} {{char}}".

Definition sampleValues : list (jsstring * jsval) :=
  [ (lit "companion_name", JStr (lit "Iris"));
    (lit "max_memories", JNum (Finite 6));
    (lit "transcript", JStr (lit "[user] call me {{user}} $& {transcript}")) ].

Lemma startsWith_app s prefix :
  startsWith s prefix = true → s = prefix ++ drop (length prefix) s.
Proof.
  revert s. induction prefix as [|p prefix IH]; intros [|c s]; simpl; try done.
  intros [->%N.eqb_eq H]%andb_true_iff. f_equal. by apply IH.
Qed.

Lemma replaceFrom_skip pattern replacement before passed rest :
  replaceFrom pattern replacement before (length passed) (passed ++ rest)
  = match rest with
    | [] => []
    | _ => replaceFrom pattern replacement (before ++ passed) 0 rest
    end.
Proof.
  revert before. induction passed as [|c passed IH]; intros before; simpl.
  - rewrite app_nil_r. by destruct rest.
  - rewrite IH. destruct rest; [done|]. by rewrite <- app_assoc.
Qed.

Lemma occurrences_app_l token a b : (occurrences token b ≤ occurrences token (a ++ b))%nat.
Proof. induction a as [|c a IH]; simpl; lia. Qed.

Section Token.

(** What the proof needs of a pattern and a token: the token does not start
    inside the pattern, the pattern does not match inside the token, and the
    token does not overlap itself. *)
Variable pattern token : jsstring.
Hypothesis pattern_nonempty : pattern ≠ [].
Hypothesis token_nonempty : token ≠ [].
Hypothesis token_not_in_pattern :
  ∀ rest, occurrences token (pattern ++ rest) = occurrences token rest.
Hypothesis pattern_not_in_token :
  ∀ replacement before rest, ∃ before',
    replaceFrom pattern replacement before 0 (token ++ rest)
    = token ++ replaceFrom pattern replacement before' 0 rest.
Hypothesis token_once :
  ∀ rest, occurrences token (token ++ rest) = S (occurrences token rest).

Lemma replaceFrom_keeps_token n s replacement before :
  (length s ≤ n)%nat →
  (occurrences token s ≤ occurrences token (replaceFrom pattern replacement before 0 s))%nat.
Proof.
  revert s before. induction n as [|n IH]; intros [|c t] before Hn; simpl in Hn;
    [simpl; lia|lia|simpl; lia|].
  destruct (startsWith (c :: t) pattern) eqn:Ep.
  - pose proof (startsWith_app _ _ Ep) as Hs.
    set (rest := drop (length pattern) (c :: t)) in *.
    destruct pattern as [|p0 pattern'] eqn:Epat; [done|].
    injection Hs as -> Ht.
    assert (occurrences token (p0 :: t) = occurrences token rest) as ->.
    { rewrite Ht. apply (token_not_in_pattern rest). }
    cbn [replaceFrom]. rewrite Ep.
    etrans; [|apply occurrences_app_l].
    replace (length (p0 :: pattern') - 1)%nat with (length pattern') by (simpl; lia).
    clearbody rest. subst t.
    rewrite replaceFrom_skip.
    destruct rest as [|r0 rest']; [simpl; lia|].
    apply IH. rewrite length_app in Hn. cbn [length] in Hn |- *. lia.
  - destruct (startsWith (c :: t) token) eqn:Et.
    + pose proof (startsWith_app _ _ Et) as Hs.
      set (rest := drop (length token) (c :: t)) in *. clearbody rest.
      rewrite Hs. rewrite token_once.
      destruct (pattern_not_in_token replacement before rest) as [before' ->].
      rewrite token_once. apply le_n_S, IH.
      apply (f_equal length) in Hs. rewrite length_app in Hs. simpl in Hs.
      destruct token; [done|]. simpl in Hs. lia.
    + cbn [replaceFrom]. rewrite Ep. cbn [occurrences]. rewrite Et.
      specialize (IH t (before ++ [c]) ltac:(lia)). simpl. lia.
Qed.

End Token.

Lemma documented_placeholders_keep_tokens key token text replacement :
  key ∈ documentedKeys → token ∈ [userToken; charToken] →
  (occurrences token text
   ≤ occurrences token (replaceAll text (placeholder key) replacement))%nat.
Proof.
  intros Hkey Htoken. unfold replaceAll.
  apply (replaceFrom_keeps_token (placeholder key) token) with (n := length text);
    [| | | | |lia];
    repeat (apply elem_of_cons in Hkey as [->|Hkey]);
    try (by apply elem_of_nil in Hkey);
    repeat (apply elem_of_cons in Htoken as [->|Htoken]);
    try (by apply elem_of_nil in Htoken);
    try discriminate; try (intros; reflexivity);
    intros; eexists; reflexivity.
Qed.

(** C9. When every key of the substitution map is one of the documented
    placeholder names, each of the tokens [{{user}}] and [{{char}}] occurs
    in the output of [fillPromptTemplate] at least as often as in the
    template: no substitution consumes or breaks an occurrence. *)
Theorem fillPromptTemplate_keeps_tokens template values token :
  (∀ key, key ∈ objectKeys values → key ∈ documentedKeys) →
  token ∈ [userToken; charToken] →
  (occurrences token template ≤ occurrences token (fillPromptTemplate template values))%nat.
Proof.
  intros Hkeys Htoken. unfold fillPromptTemplate, objectEntries.
  revert template. induction (objectKeys values) as [|key keys IH]; intros template; simpl.
  - lia.
  - etrans; [|apply IH; intros k Hk; apply Hkeys; by right].
    unfold fillStep. simpl.
    apply documented_placeholders_keep_tokens; [|done]. apply Hkeys. left.
Qed.

Lemma fillPromptTemplate_keeps_tokens_witness :
  (occurrences charToken sampleTemplate
   ≤ occurrences charToken (fillPromptTemplate sampleTemplate sampleValues))%nat.
Proof.
  apply (fillPromptTemplate_keeps_tokens sampleTemplate sampleValues charToken).
  - intros key Hkey. vm_compute in Hkey.
    repeat (apply elem_of_cons in Hkey as [->|Hkey]);
      [vm_compute; repeat (first [left; reflexivity|right])..|by apply elem_of_nil in Hkey].
  - right. left.
Defined.

End Prompts.

(* ===================================================================== *)
(** ** Streaming the objects of a JSON array *)
(* ===================================================================== *)

Module Streamer.
Import Js.

(** *** The platform: [JSON.parse] and [StringDecoder] *)

(** The value that [JSON.parse] builds. A number and a string hold the text
    of their token (a string without its quotes, its escapes checked and
    kept as written): two values that are equal here are equal in content. *)
Inductive json :=
| Jnull
| Jbool (b : bool)
| Jnumber (literal : jsstring)
| Jstring (raw : jsstring)
| Jarray (items : list json)
| Jobject (members : list (jsstring * json)).

Definition isObject (v : json) : bool :=
  match v with Jobject _ => true | _ => false end.

(** The characters that matter to the grammar. *)
Inductive charClass :=
| CSpace | CLBracket | CRBracket | CLBrace | CRBrace | CQuote | CComma | CColon
| CBackslash | COther.

Definition classify (c : jschar) : charClass :=
  if (c =? 32) || (c =? 10) || (c =? 13) || (c =? 9) then CSpace
  else if c =? 91 then CLBracket
  else if c =? 93 then CRBracket
  else if c =? 123 then CLBrace
  else if c =? 125 then CRBrace
  else if c =? 34 then CQuote
  else if c =? 44 then CComma
  else if c =? 58 then CColon
  else if c =? 92 then CBackslash
  else COther.

Definition isDigit (c : jschar) : bool := (48 <=? c) && (c <=? 57).

Definition isHexDigit (c : jschar) : bool :=
  isDigit c || ((65 <=? c) && (c <=? 70)) || ((97 <=? c) && (c <=? 102)).

(** The character after a backslash, [u] apart: a quote, a backslash, a
    slash, or one of [b], [f], [n], [r], [t]. *)
Definition isSimpleEscape (c : jschar) : bool :=
  (c =? 34) || (c =? 92) || (c =? 47) || (c =? 98) || (c =? 102) || (c =? 110)
  || (c =? 114) || (c =? 116).

(** The number grammar: an optional minus, an integer part (a single zero,
    or digits that do not start with zero), an optional fraction (a point
    and digits), an optional exponent ([e] or [E], an optional sign, digits). *)
Fixpoint skipDigits (s : jsstring) : jsstring :=
  match s with
  | c :: t => if isDigit c then skipDigits t else s
  | [] => []
  end.

Definition digitsThen (s : jsstring) : option jsstring :=
  match s with
  | c :: t => if isDigit c then Some (skipDigits t) else None
  | [] => None
  end.

Definition exponentPart (s : jsstring) : bool :=
  match s with
  | [] => true
  | c :: t =>
      if (c =? 101) || (c =? 69) then
        match t with
        | d :: t' =>
            if (d =? 43) || (d =? 45)
            then bool_decide (digitsThen t' = Some [])
            else bool_decide (digitsThen t = Some [])
        | [] => false
        end
      else false
  end.

Definition fractionPart (s : jsstring) : bool :=
  match s with
  | c :: t =>
      if c =? 46 then
        match digitsThen t with
        | Some rest => exponentPart rest
        | None => false
        end
      else exponentPart s
  | [] => true
  end.

Definition integerPart (s : jsstring) : bool :=
  match s with
  | c :: t =>
      if c =? 48 then fractionPart t
      else if isDigit c then fractionPart (skipDigits t)
      else false
  | [] => false
  end.

Definition validNumber (s : jsstring) : bool :=
  match s with
  | c :: t => if c =? 45 then integerPart t else integerPart s
  | [] => false
  end.

(** A token that is neither a string nor a bracket: a literal or a number. *)
Definition atomValue (text : jsstring) : option json :=
  if bool_decide (text = lit "true") then Some (Jbool true)
  else if bool_decide (text = lit "false") then Some (Jbool false)
  else if bool_decide (text = lit "null") then Some Jnull
  else if validNumber text then Some (Jnumber text)
  else None.

(** The parser reads one character at a time. Its stack holds the arrays and
    objects that are open, innermost first. *)
Inductive frame :=
| FArray (items : list json)
| FObject (members : list (jsstring * json)) (key : option jsstring).

Inductive mode :=
| TopValue
| TopDone (value : json)
| ArrayStart
| ArrayValue
| ArrayNext
| ObjectStart
| ObjectKey
| ObjectColon
| ObjectValue
| ObjectNext
| InString (isKey : bool) (text : jsstring)
| InEscape (isKey : bool) (text : jsstring)
| InUnicode (isKey : bool) (digits : nat) (text : jsstring)
| InAtom (text : jsstring).

Definition parser : Type := list frame * mode.

(** A value is complete: it goes to the innermost open container, or it is
    the result. *)
Definition deliver (v : json) (stack : list frame) : option parser :=
  match stack with
  | [] => Some ([], TopDone v)
  | FArray items :: rest => Some (FArray (items ++ [v]) :: rest, ArrayNext)
  | FObject members (Some key) :: rest =>
      Some (FObject (members ++ [(key, v)]) None :: rest, ObjectNext)
  | FObject _ None :: _ => None
  end.

Definition closeArray (stack : list frame) : option parser :=
  match stack with
  | FArray items :: rest => deliver (Jarray items) rest
  | _ => None
  end.

Definition closeObject (stack : list frame) : option parser :=
  match stack with
  | FObject members None :: rest => deliver (Jobject members) rest
  | _ => None
  end.

Definition setKey (key : jsstring) (stack : list frame) : option parser :=
  match stack with
  | FObject members None :: rest => Some (FObject members (Some key) :: rest, ObjectColon)
  | _ => None
  end.

(** The start of a value. *)
Definition startValue (stack : list frame) (c : jschar) : option parser :=
  match classify c with
  | CLBrace => Some (FObject [] None :: stack, ObjectStart)
  | CLBracket => Some (FArray [] :: stack, ArrayStart)
  | CQuote => Some (stack, InString false [])
  | COther | CBackslash => Some (stack, InAtom [c])
  | _ => None
  end.

(** One character in every mode but [InAtom]. *)
Definition stepCore (p : parser) (c : jschar) : option parser :=
  let '(stack, m) := p in
  match m with
  | TopValue | ArrayValue | ObjectValue =>
      match classify c with
      | CSpace => Some p
      | _ => startValue stack c
      end
  | ArrayStart =>
      match classify c with
      | CSpace => Some p
      | CRBracket => closeArray stack
      | _ => startValue stack c
      end
  | TopDone _ =>
      match classify c with
      | CSpace => Some p
      | _ => None
      end
  | ArrayNext =>
      match classify c with
      | CSpace => Some p
      | CComma => Some (stack, ArrayValue)
      | CRBracket => closeArray stack
      | _ => None
      end
  | ObjectStart =>
      match classify c with
      | CSpace => Some p
      | CQuote => Some (stack, InString true [])
      | CRBrace => closeObject stack
      | _ => None
      end
  | ObjectKey =>
      match classify c with
      | CSpace => Some p
      | CQuote => Some (stack, InString true [])
      | _ => None
      end
  | ObjectColon =>
      match classify c with
      | CSpace => Some p
      | CColon => Some (stack, ObjectValue)
      | _ => None
      end
  | ObjectNext =>
      match classify c with
      | CSpace => Some p
      | CComma => Some (stack, ObjectKey)
      | CRBrace => closeObject stack
      | _ => None
      end
  | InString isKey text =>
      match classify c with
      | CQuote => if isKey then setKey text stack else deliver (Jstring text) stack
      | CBackslash => Some (stack, InEscape isKey (text ++ [c]))
      | _ => if c <? 32 then None else Some (stack, InString isKey (text ++ [c]))
      end
  | InEscape isKey text =>
      if isSimpleEscape c then Some (stack, InString isKey (text ++ [c]))
      else if c =? 117 then Some (stack, InUnicode isKey 4 (text ++ [c]))
      else None
  | InUnicode isKey digits text =>
      if isHexDigit c
      then match digits with
           | S (S digits') => Some (stack, InUnicode isKey (S digits') (text ++ [c]))
           | _ => Some (stack, InString isKey (text ++ [c]))
           end
      else None
  | InAtom _ => None
  end.

(** One character. An atom ends at the first character that cannot belong
    to it, which is then read in the mode that follows the atom. *)
Definition parseStep (p : parser) (c : jschar) : option parser :=
  match p.2 with
  | InAtom text =>
      match classify c with
      | COther | CBackslash => Some (p.1, InAtom (text ++ [c]))
      | _ =>
          v ← atomValue text;
          p' ← deliver v p.1;
          stepCore p' c
      end
  | _ => stepCore p c
  end.

Fixpoint parseRun (p : parser) (text : jsstring) : option parser :=
  match text with
  | [] => Some p
  | c :: rest => p' ← parseStep p c; parseRun p' rest
  end.

(** The end of the text. *)
Definition parseEnd (p : parser) : option json :=
  match p with
  | ([], TopDone v) => Some v
  | ([], InAtom text) => atomValue text
  | _ => None
  end.

(** [JSON.parse(text)]; [None] stands for the [SyntaxError]. *)
Definition JSON_parse (text : jsstring) : option json :=
  parseRun ([], TopValue) text ≫= parseEnd.

(** Modelled from the platform: [StringDecoder("utf8")]. It reads bytes and
    writes UTF-16 code units; the bytes of a character that is not complete
    yet are kept for the next chunk. The automaton is the UTF-8 decoder of
    the Encoding Standard: [need] is the number of continuation bytes still
    to come, [point] the bits read so far, and [low] and [high] bound the
    next continuation byte, which excludes overlong forms, surrogates and
    code points above U+10FFFF. A byte that cannot stand where it stands
    yields U+FFFD and is read again as a first byte. *)
Record decoder := mkDecoder {
  need : nat;
  point : N;
  low : N;
  high : N;
}.

Definition idle : decoder := {| need := 0; point := 0; low := 128; high := 191 |}.

Definition codeUnits (cp : N) : jsstring :=
  if cp <? 65536 then [cp]
  else [55296 + (cp - 65536) / 1024; 56320 + (cp - 65536) mod 1024].

Definition leadByte (b : N) : decoder * jsstring :=
  if b <? 128 then (idle, [b])
  else if (194 <=? b) && (b <=? 223)
  then ({| need := 1; point := b - 192; low := 128; high := 191 |}, [])
  else if (224 <=? b) && (b <=? 239)
  then ({| need := 2; point := b - 224;
           low := if b =? 224 then 160 else 128;
           high := if b =? 237 then 159 else 191 |}, [])
  else if (240 <=? b) && (b <=? 244)
  then ({| need := 3; point := b - 240;
           low := if b =? 240 then 144 else 128;
           high := if b =? 244 then 143 else 191 |}, [])
  else (idle, [65533]).

Definition decodeByte (d : decoder) (b : N) : decoder * jsstring :=
  match need d with
  | O => leadByte b
  | S n =>
      if (low d <=? b) && (b <=? high d) then
        let p := point d * 64 + (b - 128) in
        match n with
        | O => (idle, codeUnits p)
        | S _ => ({| need := n; point := p; low := 128; high := 191 |}, [])
        end
      else ((leadByte b).1, 65533 :: (leadByte b).2)
  end.

(** [decoder.write(chunk)]. *)
Fixpoint decoderWrite (d : decoder) (chunk : list N) : decoder * jsstring :=
  match chunk with
  | [] => (d, [])
  | b :: rest =>
      let '(d1, out1) := decodeByte d b in
      let '(d2, out2) := decoderWrite d1 rest in
      (d2, out1 ++ out2)
  end.

(** [decoder.end()]. *)
Definition decoderEnd (d : decoder) : jsstring :=
  match need d with
  | O => []
  | S _ => [65533]
  end.

(** The text of a whole input. *)
Definition utf8Text (bytes : list N) : jsstring :=
  let '(d, out) := decoderWrite idle bytes in out ++ decoderEnd d.

(** *** [streamJsonArrayObjectsFromReadable] *)

(** The variables of the generator that [flushParsed] reads and writes. *)
Record scanner := mkScanner {
  buffer : jsstring;
  index : nat;
  started : bool;
  finished : bool;
  capturing : bool;
  tokenStart : nat;
  depth : Z;
  inString : bool;
  escaped : bool;
}.

Definition initialScanner : scanner :=
  {| buffer := []; index := 0; started := false; finished := false; capturing := false;
     tokenStart := 0; depth := 0; inString := false; escaped := false |}.

(** The errors that the generator throws. *)
Inductive failure :=
| ExpectedArrayStart (ch : jschar)
| ContentAfterArray
| ExpectedObjectItem (ch : jschar)
| ItemSyntaxError
| ItemNotObject
| NotAnArray
| EofInObject
| EofInArray.

Definition isWhitespace (ch : jschar) : bool :=
  (ch =? 32) || (ch =? 10) || (ch =? 13) || (ch =? 9).

(** [index += 1]. *)
Definition advance (s : scanner) : scanner :=
  {| buffer := buffer s; index := index s + 1; started := started s; finished := finished s;
     capturing := capturing s; tokenStart := tokenStart s; depth := depth s;
     inString := inString s; escaped := escaped s |}.

Definition withStarted (s : scanner) : scanner :=
  {| buffer := buffer s; index := index s; started := true; finished := finished s;
     capturing := capturing s; tokenStart := tokenStart s; depth := depth s;
     inString := inString s; escaped := escaped s |}.

Definition withFinished (s : scanner) : scanner :=
  {| buffer := buffer s; index := index s; started := started s; finished := true;
     capturing := capturing s; tokenStart := tokenStart s; depth := depth s;
     inString := inString s; escaped := escaped s |}.

(** The start of an item: [capturing = true; tokenStart = index; depth = 1;
    inString = false; escaped = false]. *)
Definition beginCapture (s : scanner) : scanner :=
  {| buffer := buffer s; index := index s; started := started s; finished := finished s;
     capturing := true; tokenStart := index s; depth := 1;
     inString := false; escaped := false |}.

Definition withString (s : scanner) (inString' escaped' : bool) : scanner :=
  {| buffer := buffer s; index := index s; started := started s; finished := finished s;
     capturing := capturing s; tokenStart := tokenStart s; depth := depth s;
     inString := inString'; escaped := escaped' |}.

Definition withDepth (s : scanner) (depth' : Z) : scanner :=
  {| buffer := buffer s; index := index s; started := started s; finished := finished s;
     capturing := capturing s; tokenStart := tokenStart s; depth := depth';
     inString := inString s; escaped := escaped s |}.

(** After an item is pushed: [buffer = buffer.slice(index + 1); index = 0;
    capturing = false; tokenStart = 0]. *)
Definition afterItem (s : scanner) : scanner :=
  {| buffer := drop (index s + 1) (buffer s); index := 0; started := started s;
     finished := finished s; capturing := false; tokenStart := 0; depth := depth s;
     inString := inString s; escaped := escaped s |}.

(** [buffer.slice(tokenStart, index + 1)]. *)
Definition jsonText (s : scanner) : jsstring :=
  take (index s + 1 - tokenStart s) (drop (tokenStart s) (buffer s)).

(** One pass of the [while (index < buffer.length)] loop of [flushParsed] on
    the character [ch = buffer[index]]: the error thrown, or the variables
    after the pass and the item pushed to [parsed], if one is. *)
Definition scanPass (s : scanner) (ch : jschar) : failure + scanner * option json :=
  if negb (started s) then
    if isWhitespace ch then inr (advance s, None)
    else if negb (ch =? 91) then inl (ExpectedArrayStart ch)
    else inr (advance (withStarted s), None)
  else if finished s then
    if negb (isWhitespace ch) then inl ContentAfterArray
    else inr (advance s, None)
  else if negb (capturing s) then
    if isWhitespace ch || (ch =? 44) then inr (advance s, None)
    else if ch =? 93 then inr (advance (withFinished s), None)
    else if negb (ch =? 123) && negb (ch =? 91) then inl (ExpectedObjectItem ch)
    else inr (advance (beginCapture s), None)
  else if inString s then
    if escaped s then inr (advance (withString s true false), None)
    else if ch =? 92 then inr (advance (withString s true true), None)
    else if ch =? 34 then inr (advance (withString s false false), None)
    else inr (advance s, None)
  else if ch =? 34 then inr (advance (withString s true false), None)
  else
    let s1 :=
      if (ch =? 123) || (ch =? 91) then withDepth s (depth s + 1)
      else if (ch =? 125) || (ch =? 93) then withDepth s (depth s - 1)
      else s in
    if (depth s1 =? 0)%Z then
      match JSON_parse (jsonText s1) with
      | None => inl ItemSyntaxError
      | Some item =>
          if negb (isObject item) then inl ItemNotObject
          else inr (afterItem s1, Some item)
      end
    else inr (advance s1, None).

(** The loop. Every pass leaves one character less to read, so [fuel], the
    number of characters from [index] on, counts the passes. *)
Fixpoint flushLoop (fuel : nat) (s : scanner) (parsed : list json)
    : failure + scanner * list json :=
  match fuel with
  | O => inr (s, parsed)
  | S fuel' =>
      match buffer s !! index s with
      | None => inr (s, parsed)
      | Some ch =>
          match scanPass s ch with
          | inl e => inl e
          | inr (s1, item) => flushLoop fuel' s1 (parsed ++ option_list item)
          end
      end
  end.

(** The slicing of the buffer after the loop. *)
Definition reclaim (s : scanner) : scanner :=
  if capturing s && bool_decide (0 < tokenStart s)%nat then
    {| buffer := drop (tokenStart s) (buffer s); index := index s - tokenStart s;
       started := started s; finished := finished s; capturing := capturing s;
       tokenStart := 0; depth := depth s; inString := inString s; escaped := escaped s |}
  else if negb (capturing s) && bool_decide (0 < index s)%nat then
    {| buffer := drop (index s) (buffer s); index := 0;
       started := started s; finished := finished s; capturing := capturing s;
       tokenStart := tokenStart s; depth := depth s; inString := inString s;
       escaped := escaped s |}
  else s.

Definition flushParsed (isFinal : bool) (s : scanner) : failure + scanner * list json :=
  match flushLoop (length (buffer s) - index s) s [] with
  | inl e => inl e
  | inr (s1, parsed) =>
      let s2 := reclaim s1 in
      if isFinal then
        if negb (started s2) then inl NotAnArray
        else if capturing s2 then inl EofInObject
        else if negb (finished s2) then inl EofInArray
        else inr (s2, parsed)
      else inr (s2, parsed)
  end.

(** [buffer += chunk]. *)
Definition append (s : scanner) (chunk : jsstring) : scanner :=
  {| buffer := buffer s ++ chunk; index := index s; started := started s;
     finished := finished s; capturing := capturing s; tokenStart := tokenStart s;
     depth := depth s; inString := inString s; escaped := escaped s |}.

(** The generator, run to its end over the chunks of the readable: the
    objects it yields, and the error it throws if it throws one. The objects
    of a call of [flushParsed] are yielded when the call has returned. *)
Fixpoint streamFrom (d : decoder) (s : scanner) (yielded : list json) (chunks : list (list N))
    : list json * option failure :=
  match chunks with
  | rawChunk :: rest =>
      let '(d', chunk) := decoderWrite d rawChunk in
      if bool_decide (length chunk = 0%nat) then streamFrom d' s yielded rest
      else
        match flushParsed false (append s chunk) with
        | inl e => (yielded, Some e)
        | inr (s', parsed) => streamFrom d' s' (yielded ++ parsed) rest
        end
  | [] =>
      match flushParsed true (append s (decoderEnd d)) with
      | inl e => (yielded, Some e)
      | inr (_, parsed) => (yielded ++ parsed, None)
      end
  end.

Definition streamJsonArrayObjectsFromReadable (chunks : list (list N))
    : list json * option failure :=
  streamFrom idle initialScanner [] chunks.

(** *** The scanner, character by character *)

(** What the scanner knows when it has read a prefix of the text, without
    the buffer: its flags and the characters of the item being captured. *)
Record view := mkView {
  vStarted : bool;
  vFinished : bool;
  vCapturing : bool;
  vDepth : Z;
  vInString : bool;
  vEscaped : bool;
  vToken : jsstring;
}.

Definition viewOf (s : scanner) : view :=
  {| vStarted := started s; vFinished := finished s; vCapturing := capturing s;
     vDepth := depth s; vInString := inString s; vEscaped := escaped s;
     vToken := if capturing s
               then take (index s - tokenStart s) (drop (tokenStart s) (buffer s))
               else [] |}.

Definition initialView : view := viewOf initialScanner.

Definition grow (v : view) (ch : jschar) (inString' escaped' : bool) (depth' : Z) : view :=
  {| vStarted := vStarted v; vFinished := vFinished v; vCapturing := vCapturing v;
     vDepth := depth'; vInString := inString'; vEscaped := escaped';
     vToken := vToken v ++ [ch] |}.

(** One pass of the loop of [flushParsed], on a view: the next view and the
    item pushed, if one is. *)
Definition viewStep (v : view) (ch : jschar) : failure + view * option json :=
  if negb (vStarted v) then
    if isWhitespace ch then inr (v, None)
    else if negb (ch =? 91) then inl (ExpectedArrayStart ch)
    else inr ({| vStarted := true; vFinished := vFinished v; vCapturing := vCapturing v;
                 vDepth := vDepth v; vInString := vInString v; vEscaped := vEscaped v;
                 vToken := vToken v |}, None)
  else if vFinished v then
    if negb (isWhitespace ch) then inl ContentAfterArray else inr (v, None)
  else if negb (vCapturing v) then
    if isWhitespace ch || (ch =? 44) then inr (v, None)
    else if ch =? 93
    then inr ({| vStarted := vStarted v; vFinished := true; vCapturing := vCapturing v;
                 vDepth := vDepth v; vInString := vInString v; vEscaped := vEscaped v;
                 vToken := vToken v |}, None)
    else if negb (ch =? 123) && negb (ch =? 91) then inl (ExpectedObjectItem ch)
    else inr ({| vStarted := vStarted v; vFinished := vFinished v; vCapturing := true;
                 vDepth := 1; vInString := false; vEscaped := false;
                 vToken := [ch] |}, None)
  else if vInString v then
    if vEscaped v then inr (grow v ch true false (vDepth v), None)
    else if ch =? 92 then inr (grow v ch true true (vDepth v), None)
    else if ch =? 34 then inr (grow v ch false false (vDepth v), None)
    else inr (grow v ch (vInString v) (vEscaped v) (vDepth v), None)
  else if ch =? 34 then inr (grow v ch true false (vDepth v), None)
  else
    let depth' :=
      if (ch =? 123) || (ch =? 91) then (vDepth v + 1)%Z
      else if (ch =? 125) || (ch =? 93) then (vDepth v - 1)%Z
      else vDepth v in
    if (depth' =? 0)%Z then
      match JSON_parse (vToken v ++ [ch]) with
      | None => inl ItemSyntaxError
      | Some item =>
          if negb (isObject item) then inl ItemNotObject
          else inr ({| vStarted := vStarted v; vFinished := vFinished v; vCapturing := false;
                       vDepth := depth'; vInString := vInString v; vEscaped := vEscaped v;
                       vToken := [] |}, Some item)
      end
    else inr (grow v ch (vInString v) (vEscaped v) depth', None).

Fixpoint viewRun (v : view) (text : jsstring) : failure + view * list json :=
  match text with
  | [] => inr (v, [])
  | ch :: rest =>
      match viewStep v ch with
      | inl e => inl e
      | inr (v1, item) =>
          match viewRun v1 rest with
          | inl e => inl e
          | inr (v2, items) => inr (v2, option_list item ++ items)
          end
      end
  end.

(** *** The scanner and the parser of the whole text *)

(** The variables of the scanner read a prefix [pre] of the buffer, and the
    item being captured starts inside it. *)
Definition readUpTo (s : scanner) (pre rest : jsstring) : Prop :=
  buffer s = pre ++ rest ∧ index s = length pre ∧
  (capturing s = true →
   started s = true ∧ finished s = false ∧ (tokenStart s ≤ index s)%nat).

(** The result of a step inside an item, seen with a frame [base] under the
    frames of the item. *)
Definition onFrame (base : frame) (r : option parser) : option parser :=
  match r with
  | Some ([], TopDone v) => deliver v [base]
  | Some ([], _) => None
  | Some (es', m') => Some (es' ++ [base], m')
  | None => None
  end.

(** What the scanner makes of a parser mode: inside a string, and after a
    backslash. *)
Definition stringFlags (m : mode) : bool * bool :=
  match m with
  | InString _ _ | InUnicode _ _ _ => (true, false)
  | InEscape _ _ => (true, true)
  | _ => (false, false)
  end.

(** The depth and string flags after one character of an item. *)
Definition flagStep (d : Z) (ins esc : bool) (ch : N) : Z * (bool * bool) :=
  if ins then
    if esc then (d, (true, false))
    else if ch =? 92 then (d, (true, true))
    else if ch =? 34 then (d, (false, false))
    else (d, (true, false))
  else if ch =? 34 then (d, (true, false))
  else (if (ch =? 123) || (ch =? 91) then (d + 1)%Z
        else if (ch =? 125) || (ch =? 93) then (d - 1)%Z
        else d, (false, esc)).

(** A mode in which a string or an atom that is not a key is being read. *)
Definition scalarMode (m : mode) : Prop :=
  match m with
  | InString false _ | InEscape false _ | InUnicode false _ _ | InAtom _ => True
  | _ => False
  end.

Definition notObjectArray (v : json) : Prop :=
  match v with
  | Jarray items => forallb isObject items = false
  | _ => True
  end.

(** The states from which the parser cannot end with an array of objects:
    the outermost value is not an array, or the outermost array holds an item
    that is not an object, or such an item is being read. *)
Definition doomed (p : parser) : Prop :=
  match last p.1 with
  | None =>
      match p.2 with
      | TopDone v => notObjectArray v
      | m => scalarMode m
      end
  | Some (FObject _ _) => True
  | Some (FArray items) =>
      forallb isObject items = false ∨ (length p.1 = 1%nat ∧ scalarMode p.2)
  end.

(** The parser of the whole text and the scanner, after the same prefix of
    the text; [items] are the items that the scanner has pushed. *)
Inductive sim : parser → view → list json → Prop :=
| SimBefore v :
    vStarted v = false → vFinished v = false → vCapturing v = false →
    sim ([], TopValue) v []
| SimBetween items m v :
    m = ArrayStart ∨ m = ArrayValue ∨ m = ArrayNext →
    vStarted v = true → vFinished v = false → vCapturing v = false →
    sim ([FArray items], m) v items
| SimInside items es m v :
    es ≠ [] →
    vStarted v = true → vFinished v = false → vCapturing v = true →
    vDepth v = Z.of_nat (length es) →
    (vInString v, vEscaped v) = stringFlags m →
    parseRun ([], TopValue) (vToken v) = Some (es, m) →
    sim (es ++ [FArray items], m) v items
| SimAfter items v :
    vStarted v = true → vFinished v = true → vCapturing v = false →
    sim ([], TopDone (Jarray items)) v items.

(** The text that the decoder writes for the bytes, from the state [d] on,
    with what it writes at the end. *)
Definition decodedFrom (d : decoder) (bytes : list N) : jsstring :=
  let '(d', out) := decoderWrite d bytes in out ++ decoderEnd d'.

(** A sample input: an array of two objects, in four chunks that are cut
    inside a two-byte character, inside an escape and inside a key. *)
Definition sampleChunks : list (list N) :=
  [ [91; 32; 123; 34; 107; 34; 58; 34; 195];
    [169; 92];
    [110; 34; 125; 44; 123; 34];
    [110; 34; 58; 91; 49; 44; 123; 125; 93; 125; 32; 93] ].

Definition sampleBytes : list N := concat sampleChunks.

Definition sampleObjects : list json :=
  [ Jobject [(lit "k", Jstring [233; 92; 110])];
    Jobject [(lit "n", Jarray [Jnumber (lit "1"); Jobject []])] ].

(** *** Facts *)

(** The scanner reads a text cut in two as it reads the whole text. *)
Lemma viewRun_app v a b :
  viewRun v (a ++ b)
  = match viewRun v a with
    | inl e => inl e
    | inr (v1, items1) =>
        match viewRun v1 b with
        | inl e => inl e
        | inr (v2, items2) => inr (v2, items1 ++ items2)
        end
    end.
Proof.
  revert v. induction a as [|ch a IH]; intros v; simpl.
  - by destruct (viewRun v b) as [|[]].
  - destruct (viewStep v ch) as [|[v1 item]]; [done|].
    rewrite IH. destruct (viewRun v1 a) as [|[v2 items]]; [done|].
    destruct (viewRun v2 b) as [|[v3 items']]; [done|]. by rewrite app_assoc.
Qed.

(** [buffer.slice(tokenStart, index + 1)] is the item read so far and the
    character at [index]. *)
Lemma token_snoc (pre rem : jsstring) ch ts :
  (ts ≤ length pre)%nat →
  take (length pre + 1 - ts) (drop ts (pre ++ ch :: rem))
  = take (length pre - ts) (drop ts (pre ++ ch :: rem)) ++ [ch].
Proof.
  intros Hts. rewrite drop_app_le by done.
  replace (length pre - ts)%nat with (length (drop ts pre)) by (rewrite length_drop; lia).
  replace (length pre + 1 - ts)%nat with (length (drop ts pre ++ [ch]))
    by (rewrite length_app, length_drop; simpl; lia).
  rewrite take_app_length.
  replace (drop ts pre ++ ch :: rem) with ((drop ts pre ++ [ch]) ++ rem)
    by (by rewrite <- app_assoc).
  by rewrite take_app_length.
Qed.

Lemma token_first (pre rem : jsstring) ch :
  take (length pre + 1 - length pre) (drop (length pre) (pre ++ ch :: rem)) = [ch].
Proof.
  rewrite drop_app_length. by replace (length pre + 1 - length pre)%nat with 1%nat by lia.
Qed.

(** One pass of the loop on the buffer is one step of the view. *)
Lemma scanPass_viewStep s pre ch rest :
  readUpTo s pre (ch :: rest) →
  match scanPass s ch with
  | inl e => viewStep (viewOf s) ch = inl e
  | inr (s1, item) =>
      viewStep (viewOf s) ch = inr (viewOf s1, item) ∧
      ∃ pre1, readUpTo s1 pre1 rest
  end.
Proof.
  destruct s as [buf idx st fin cap ts dp ins esc]. unfold readUpTo. simpl.
  intros (-> & -> & Hts).
  unfold scanPass, viewStep, viewOf, advance, withStarted, withFinished, beginCapture,
    withString, withDepth, afterItem, jsonText, grow. simpl.
  destruct cap; [destruct (Hts eq_refl) as (-> & -> & Hle)|]; simpl.
  - destruct ins, esc, (ch =? 34), (ch =? 92), ((ch =? 123) || (ch =? 91)),
      ((ch =? 125) || (ch =? 93)); simpl;
    repeat (match goal with
            | |- context [if ?b then _ else _] =>
                lazymatch b with
                | negb (isObject _) => fail
                | _ => destruct b eqn:?
                end
            end; simpl);
    rewrite ?token_snoc by done;
    repeat (match goal with |- context [match JSON_parse ?t with _ => _ end] =>
              destruct (JSON_parse t) eqn:? end; simpl);
    repeat (match goal with |- context [if ?b then _ else _] => destruct b eqn:? end; simpl);
    try reflexivity.
    all: split; [reflexivity|].
    all: try (exists (pre ++ [ch]); rewrite <- app_assoc, length_app; simpl;
        split_and!; [done|done|intros; split_and!; [done|done|lia]]).
    all: exists []; simpl;
      replace (pre ++ ch :: rest) with ((pre ++ [ch]) ++ rest) by (by rewrite <- app_assoc);
      rewrite drop_app_length' by (rewrite length_app; simpl; lia); done.
  - destruct st, fin; simpl;
    repeat (match goal with |- context [if ?b then _ else _] => destruct b eqn:? end; simpl);
    try reflexivity.
    all: rewrite ?token_first.
    all: split; [reflexivity|].
    all: exists (pre ++ [ch]); rewrite <- app_assoc, length_app; simpl;
        split_and!; [done|done|intros; split_and!; try done; lia].
Qed.

Lemma flushLoop_S fuel s parsed :
  flushLoop (S fuel) s parsed
  = match buffer s !! index s with
    | None => inr (s, parsed)
    | Some ch =>
        match scanPass s ch with
        | inl e => inl e
        | inr (s1, item) => flushLoop fuel s1 (parsed ++ option_list item)
        end
    end.
Proof. reflexivity. Qed.

(** The loop of [flushParsed] over the unread characters is [viewRun] over
    them. *)
Lemma flushLoop_viewRun rest s parsed pre :
  readUpTo s pre rest →
  match viewRun (viewOf s) rest with
  | inl e => flushLoop (length rest) s parsed = inl e
  | inr (v, items) =>
      ∃ s1 pre1, flushLoop (length rest) s parsed = inr (s1, parsed ++ items) ∧
                 viewOf s1 = v ∧ readUpTo s1 pre1 []
  end.
Proof.
  revert s parsed pre. induction rest as [|ch rest IH]; intros s parsed pre Hread.
  - simpl. exists s, pre. by rewrite app_nil_r.
  - pose proof (scanPass_viewStep _ _ _ _ Hread) as Hpass.
    destruct Hread as (Hbuf & Hidx & Hcap).
    assert (flushLoop (length (ch :: rest)) s parsed
            = match scanPass s ch with
              | inl e => inl e
              | inr (s1, item) => flushLoop (length rest) s1 (parsed ++ option_list item)
              end) as ->.
    { cbn [length]. by rewrite flushLoop_S, Hbuf, Hidx, list_lookup_middle. }
    cbn [viewRun].
    destruct (scanPass s ch) as [e|[s1 item]].
    + by rewrite Hpass.
    + destruct Hpass as (-> & pre1 & Hread1).
      specialize (IH s1 (parsed ++ option_list item) pre1 Hread1).
      destruct (viewRun (viewOf s1) rest) as [e|[v items]]; [done|].
      destruct IH as (s2 & pre2 & -> & <- & Hread2).
      exists s2, pre2. by rewrite <- app_assoc.
Qed.

(** Slicing the buffer after the loop keeps the flags and the item read so
    far, and so does appending a chunk. *)
Lemma viewOf_reclaim s pre : readUpTo s pre [] → viewOf (reclaim s) = viewOf s.
Proof.
  destruct s as [buf idx st fin cap ts dp ins esc]. unfold readUpTo, reclaim, viewOf. simpl.
  intros (-> & -> & Hcap). rewrite app_nil_r.
  destruct cap; simpl.
  - destruct (Hcap eq_refl) as (_ & _ & Hle). case_bool_decide; simpl; [|done].
    by rewrite Nat.sub_0_r.
  - by case_bool_decide.
Qed.

Lemma readUpTo_reclaim s pre :
  readUpTo s pre [] → ∃ pre1, readUpTo (reclaim s) pre1 [].
Proof.
  destruct s as [buf idx st fin cap ts dp ins esc]. unfold readUpTo, reclaim. simpl.
  intros (-> & -> & Hcap). rewrite app_nil_r.
  destruct cap; simpl.
  - destruct (Hcap eq_refl) as (-> & -> & Hle). case_bool_decide; simpl.
    + exists (drop ts pre). rewrite app_nil_r, length_drop. split_and!; try done.
      intros _. split_and!; try done. lia.
    + exists pre. rewrite app_nil_r. done.
  - case_bool_decide; simpl.
    + exists []. rewrite drop_all. done.
    + exists pre. rewrite app_nil_r. done.
Qed.

Lemma viewOf_append s pre chunk :
  readUpTo s pre [] → viewOf (append s chunk) = viewOf s ∧ readUpTo (append s chunk) pre chunk.
Proof.
  destruct s as [buf idx st fin cap ts dp ins esc]. unfold readUpTo, append, viewOf. simpl.
  intros (-> & -> & Hcap). rewrite app_nil_r. split; [|done].
  destruct cap; [|done]. destruct (Hcap eq_refl) as (_ & _ & Hle).
  f_equal. rewrite drop_app_le by done.
  rewrite take_app_le by (rewrite length_drop; lia). done.
Qed.

(** The parser reads a text cut in two as it reads the whole text. *)
Lemma parseRun_app p a b :
  parseRun p (a ++ b) = parseRun p a ≫= λ p', parseRun p' b.
Proof.
  revert p. induction a as [|c a IH]; intros p; simpl; [done|].
  destruct (parseStep p c); simpl; [apply IH|done].
Qed.

(** Case analysis on what a goal matches on, variables and tests only. *)
Ltac split_goal :=
  repeat (first
    [ match goal with |- context [match ?x with _ => _ end] => is_var x; destruct x end
    | match goal with |- context [if ?b then _ else _] => destruct b end ];
    simpl; try reflexivity).

(** While an item is open, the parser does not look at the frames under it:
    a step with the frame [base] at the bottom of the stack is the step
    without it, until the item is complete and goes to [base]. *)
Lemma stepCore_frame base f es m c :
  stepCore ((f :: es) ++ [base], m) c = onFrame base (stepCore (f :: es, m) c).
Proof.
  unfold onFrame, stepCore, startValue, closeArray, closeObject, setKey, deliver.
  destruct m; simpl; destruct (classify c); simpl; try reflexivity; split_goal.
Qed.

Lemma parseStep_frame base es m c :
  es ≠ [] →
  parseStep (es ++ [base], m) c = onFrame base (parseStep (es, m) c).
Proof.
  intros Hes. destruct es as [|f es]; [done|]. clear Hes.
  unfold parseStep. cbn [fst snd].
  destruct m; try apply stepCore_frame.
  destruct (classify c); try reflexivity;
    (destruct (atomValue text) as [v|]; [|reflexivity]; cbn [mbind option_bind];
     destruct f as [items|members [key|]]; cbn [deliver app mbind option_bind];
     [apply stepCore_frame|apply stepCore_frame|reflexivity]).
Qed.

Lemma classify_cases c :
  (c = 32 ∨ c = 10 ∨ c = 13 ∨ c = 9) ∨ c = 91 ∨ c = 93 ∨ c = 123 ∨ c = 125 ∨ c = 34
  ∨ c = 44 ∨ c = 58 ∨ c = 92
  ∨ (classify c = COther ∧ isWhitespace c = false ∧ (c =? 91) = false ∧ (c =? 93) = false
     ∧ (c =? 123) = false ∧ (c =? 125) = false ∧ (c =? 34) = false ∧ (c =? 44) = false
     ∧ (c =? 58) = false ∧ (c =? 92) = false).
Proof.
  unfold classify, isWhitespace.
  destruct (N.eqb_spec c 32); [tauto|]. destruct (N.eqb_spec c 10); [tauto|].
  destruct (N.eqb_spec c 13); [tauto|]. destruct (N.eqb_spec c 9); [tauto|].
  destruct (N.eqb_spec c 91); [tauto|]. destruct (N.eqb_spec c 93); [tauto|].
  destruct (N.eqb_spec c 123); [tauto|]. destruct (N.eqb_spec c 125); [tauto|].
  destruct (N.eqb_spec c 34); [tauto|]. destruct (N.eqb_spec c 44); [tauto|].
  destruct (N.eqb_spec c 58); [tauto|]. destruct (N.eqb_spec c 92); [tauto|].
  simpl. repeat right. done.
Qed.

(** Case analysis on a character: the twelve that the grammar names, or
    another one. *)
Ltac char_cases c :=
  destruct (classify_cases c)
    as [[->|[->|[->| ->]]]|[->|[->|[->|[->|[->|[->|[->|[->
        |(Hother & Hws & H91 & H93 & H123 & H125 & H34 & H44 & H58 & H92)]]]]]]]]].

(** In the last case, the tests of the scanner on the character fail. *)
Ltac other_char :=
  repeat match goal with
         | H : classify _ = COther |- _ => rewrite H
         | H : isWhitespace _ = false |- _ => rewrite H
         | H : (_ =? _) = false |- _ => rewrite H
         end.

Lemma viewStep_capturing v ch :
  vStarted v = true → vFinished v = false → vCapturing v = true →
  viewStep v ch
  = let '(d, (ins, esc)) := flagStep (vDepth v) (vInString v) (vEscaped v) ch in
    if negb (vInString v) && negb (ch =? 34) && (d =? 0)%Z then
      match JSON_parse (vToken v ++ [ch]) with
      | None => inl ItemSyntaxError
      | Some item =>
          if negb (isObject item) then inl ItemNotObject
          else inr ({| vStarted := true; vFinished := false; vCapturing := false;
                       vDepth := d; vInString := false; vEscaped := vEscaped v;
                       vToken := [] |}, Some item)
      end
    else inr (grow v ch ins esc d, None).
Proof.
  destruct v as [st fin cap d ins esc tok]. simpl. intros -> -> ->.
  unfold viewStep, flagStep, grow. simpl.
  destruct ins, esc, (ch =? 92), (ch =? 34); simpl; try reflexivity;
    destruct ((ch =? 123) || (ch =? 91)), ((ch =? 125) || (ch =? 93)); simpl;
    try reflexivity; destruct (_ =? 0)%Z; reflexivity.
Qed.

(** A step of the parser inside an item moves the depth and the string flags
    as the scanner moves them; the depth is the number of open frames. *)
Lemma parseStep_flags f es m c es' m' :
  parseStep (f :: es, m) c = Some (es', m') →
  flagStep (Z.of_nat (length (f :: es))) (stringFlags m).1 (stringFlags m).2 c
  = (Z.of_nat (length es'), stringFlags m') ∧
  (es' = [] → (stringFlags m).1 = false ∧ (c =? 34) = false ∧ ∃ v, m' = TopDone v).
Proof.
  unfold parseStep, stepCore, startValue, closeArray, closeObject, setKey, deliver, flagStep.
  cbn [fst snd].
  char_cases c; destruct m; cbn; try discriminate;
    try rewrite Hother; cbn;
    intros Hstep;
    repeat (match type of Hstep with
            | context [match ?x with _ => _ end] => is_var x; destruct x; cbn in Hstep
            | context [mbind _ ?o] => destruct o eqn:?; cbn in Hstep
            | context [match ?x with _ => _ end] => destruct x eqn:?; cbn in Hstep
            | context [if ?b then _ else _] => destruct b eqn:?; cbn in Hstep
            end; try discriminate);
    simplify_eq; cbn;
    try other_char; cbn;
    (split; [try reflexivity; try (repeat f_equal; lia)|intros; simplify_eq; eauto]).
Qed.

(** Case analysis on a step that succeeded. *)
Ltac split_step H :=
  repeat (match type of H with
          | context [match ?x with _ => _ end] => is_var x; destruct x; cbn in H
          | context [mbind _ ?o] => destruct o eqn:?; cbn in H
          | context [match ?x with _ => _ end] => destruct x eqn:?; cbn in H
          | context [if ?b then _ else _] => destruct b eqn:?; cbn in H
          end; try discriminate).

(** A literal or a number is neither an object nor an array. *)
Lemma atomValue_scalar text v :
  atomValue text = Some v → isObject v = false ∧ notObjectArray v.
Proof.
  unfold atomValue. repeat case_match; intros; simplify_eq; done.
Qed.

(** From a doomed state every step leads to a doomed state, and at the end
    of the text the result is no array of objects. *)
Lemma doomed_step_short stack m c p' :
  (length stack ≤ 1)%nat →
  doomed (stack, m) → parseStep (stack, m) c = Some p' → doomed p'.
Proof.
  intros Hlen. destruct stack as [|b [|b' stack]]; [| |simpl in Hlen; lia]; clear Hlen.
  - unfold doomed, parseStep, stepCore, startValue, closeArray, closeObject, setKey, deliver.
    cbn [fst snd last].
    char_cases c; destruct m; cbn; try done;
      try rewrite Hother; cbn; try done;
      intros Hd Hstep; split_step Hstep; simplify_eq; cbn; try done;
      try (by destruct (atomValue_scalar _ _ ltac:(eassumption))).
  - unfold doomed, parseStep, stepCore, startValue, closeArray, closeObject, setKey, deliver.
    cbn [fst snd last length].
    char_cases c; destruct m; cbn; try done;
      try rewrite Hother; cbn; try done;
      intros Hd Hstep; split_step Hstep; simplify_eq; cbn;
      rewrite ?forallb_app; cbn; rewrite ?andb_false_r; try done; try tauto;
      try (by destruct (atomValue_scalar _ _ ltac:(eassumption)));
      try (destruct (atomValue_scalar _ _ ltac:(eassumption)) as [-> _]; cbn;
           rewrite ?andb_false_r; tauto);
      try (repeat (match goal with
                   | |- context [match ?x with _ => _ end] => is_var x; destruct x
                   end); cbn in *; tauto).
Qed.

Lemma doomed_step p c p' : doomed p → parseStep p c = Some p' → doomed p'.
Proof.
  destruct p as [stack m].
  destruct (decide (length stack ≤ 1)%nat) as [Hshort|Hlong];
    [by apply doomed_step_short|].
  destruct stack as [|b es _] using rev_ind; [simpl in Hlong; lia|].
  assert (es ≠ []) as Hes by (intros ->; simpl in Hlong; lia).
  rewrite parseStep_frame by done.
  unfold doomed at 1. cbn [fst snd]. rewrite last_snoc.
  intros Hd Hstep.
  assert (match b with
          | FArray items => forallb isObject items = false
          | FObject _ _ => True
          end) as Hb.
  { destruct b; [|done]. destruct Hd as [?|[Hone _]]; [done|].
    rewrite length_app in Hone. simpl in Hone. destruct es; [done|simpl in Hone; lia]. }
  clear Hd. unfold onFrame in Hstep.
  destruct (parseStep (es, m) c) as [[[|f es'] m']|]; [|injection Hstep as <-|done].
  - destruct m'; try done. destruct b as [items|members [key|]]; cbn in Hstep;
      simplify_eq; unfold doomed; cbn; [|done].
    left. rewrite forallb_app, Hb. done.
  - unfold doomed. cbn [fst snd].
    change (f :: es' ++ [b]) with ((f :: es') ++ [b]). rewrite last_snoc.
    destruct b; [by left|done].
Qed.

Lemma doomed_run text p p' : doomed p → parseRun p text = Some p' → doomed p'.
Proof.
  revert p. induction text as [|c text IH]; intros p Hd; simpl.
  - by intros [= <-].
  - destruct (parseStep p c) as [p1|] eqn:Hstep; [|done]. simpl.
    apply IH. by eapply doomed_step.
Qed.

Lemma doomed_end p items :
  doomed p → parseEnd p = Some (Jarray items) → forallb isObject items = false.
Proof.
  destruct p as [[|f stack] m]; [|done]. unfold doomed. simpl.
  destruct m; try done.
  - by intros Hd [= ->].
  - intros _ Hatom. by destruct (atomValue_scalar _ _ Hatom).
Qed.

Ltac sim_done :=
  first [ by apply SimBefore
        | apply SimBetween; [tauto|done..]
        | by apply SimAfter ].

(** One character keeps the parser and the scanner together, case by case:
    before the array, between two items, inside an item, after the array.
    The scanner accepts what the parser accepts, unless the parser has
    entered a state from which no array of objects results. *)
Lemma sim_step_before v c p' :
  vStarted v = false → vFinished v = false → vCapturing v = false →
  parseStep ([], TopValue) c = Some p' →
  (∃ v' item, viewStep v c = inr (v', item) ∧ sim p' v' (option_list item))
  ∨ doomed p'.
Proof.
  destruct v as [st fin cap d ins esc tok]. simpl. intros -> -> ->.
  unfold viewStep, parseStep, stepCore, startValue, closeArray, closeObject, setKey, deliver.
  cbn [fst snd].
  char_cases c; cbn; try other_char; cbn; intros Hstep; simplify_eq;
    try (right; unfold doomed; cbn; done);
    left; eexists _, None; (split; [reflexivity|]); cbn; sim_done.
Qed.

Lemma sim_step_between items m v c p' :
  m = ArrayStart ∨ m = ArrayValue ∨ m = ArrayNext →
  vStarted v = true → vFinished v = false → vCapturing v = false →
  parseStep ([FArray items], m) c = Some p' →
  (∃ v' item, viewStep v c = inr (v', item) ∧ sim p' v' (items ++ option_list item))
  ∨ doomed p'.
Proof.
  destruct v as [st fin cap d ins esc tok]. simpl. intros Hm -> -> ->.
  unfold viewStep, parseStep, stepCore, startValue, closeArray, closeObject, setKey, deliver.
  cbn [fst snd].
  destruct Hm as [->|[->| ->]];
    char_cases c; cbn; try other_char; cbn; intros Hstep; simplify_eq;
    try (right; unfold doomed; cbn; tauto);
    left; eexists _, None; (split; [reflexivity|]); cbn; rewrite app_nil_r;
    first [ sim_done
          | apply (SimInside items [FObject [] None] ObjectStart); done
          | apply (SimInside items [FArray []] ArrayStart); done ].
Qed.

Lemma sim_step_after items v c p' :
  vStarted v = true → vFinished v = true → vCapturing v = false →
  parseStep ([], TopDone (Jarray items)) c = Some p' →
  ∃ v' item, viewStep v c = inr (v', item) ∧ sim p' v' (items ++ option_list item).
Proof.
  destruct v as [st fin cap d ins esc tok]. simpl. intros -> -> ->.
  unfold viewStep, parseStep, stepCore. cbn [fst snd].
  char_cases c; cbn; try other_char; cbn; intros Hstep; simplify_eq;
    eexists _, None; (split; [reflexivity|]); cbn; rewrite app_nil_r; sim_done.
Qed.

Lemma sim_step_inside items es m v c p' :
  es ≠ [] →
  vStarted v = true → vFinished v = false → vCapturing v = true →
  vDepth v = Z.of_nat (length es) →
  (vInString v, vEscaped v) = stringFlags m →
  parseRun ([], TopValue) (vToken v) = Some (es, m) →
  parseStep (es ++ [FArray items], m) c = Some p' →
  (∃ v' item, viewStep v c = inr (v', item) ∧ sim p' v' (items ++ option_list item))
  ∨ doomed p'.
Proof.
  intros Hes Hs Hf Hc Hd Hflags Hrun.
  rewrite parseStep_frame by done.
  destruct es as [|f es]; [done|].
  destruct (parseStep (f :: es, m) c) as [[es' m']|] eqn:Hstep; [|done].
  destruct (parseStep_flags _ _ _ _ _ _ Hstep) as [Hflag Hlast].
  assert (vInString v = (stringFlags m).1 ∧ vEscaped v = (stringFlags m).2) as [Hins Hesc]
    by (by rewrite <- Hflags).
  rewrite <- Hd, <- Hins, <- Hesc in Hflag.
  rewrite viewStep_capturing, Hflag by done.
  assert (parseRun ([], TopValue) (vToken v ++ [c]) = Some (es', m')) as Hrun'.
  { rewrite parseRun_app, Hrun. simpl. by rewrite Hstep. }
  destruct es' as [|f' es'].
  - destruct Hlast as (Hnot & Hquote & value & ->); [done|].
    simpl. intros [= <-].
    rewrite Hins, Hnot, Hquote. simpl.
    unfold JSON_parse. rewrite Hrun'. simpl.
    destruct (isObject value) eqn:Hobj; simpl.
    + left. eexists _, (Some value). split; [reflexivity|]. simpl. sim_done.
    + right. unfold doomed. simpl. left.
      rewrite forallb_app. simpl. rewrite Hobj. by rewrite andb_false_r.
  - simpl. intros [= <-].
    replace (Z.of_nat (length (f' :: es')) =? 0)%Z with false
      by (symmetry; apply Z.eqb_neq; simpl; lia).
    rewrite andb_false_r.
    destruct (stringFlags m') as [ins' esc'] eqn:Hm'.
    left. eexists _, None. split; [reflexivity|]. rewrite app_nil_r.
    change (f' :: es' ++ [FArray items]) with ((f' :: es') ++ [FArray items]).
    apply SimInside; simpl; try done.
Qed.

Lemma sim_step p v items c p' :
  sim p v items → parseStep p c = Some p' →
  (∃ v' item, viewStep v c = inr (v', item) ∧ sim p' v' (items ++ option_list item))
  ∨ doomed p'.
Proof.
  intros Hsim Hstep. destruct Hsim.
  - by eapply sim_step_before.
  - by eapply sim_step_between.
  - by eapply sim_step_inside.
  - left. by eapply sim_step_after.
Qed.

(** And so does a text. *)
Lemma sim_run text p v items p' :
  sim p v items → parseRun p text = Some p' →
  (∃ v' items', viewRun v text = inr (v', items') ∧ sim p' v' (items ++ items'))
  ∨ doomed p'.
Proof.
  revert p v items. induction text as [|c text IH]; intros p v items Hsim; simpl.
  - intros [= <-]. left. exists v, []. by rewrite app_nil_r.
  - destruct (parseStep p c) as [p1|] eqn:Hstep; [|done]. simpl. intros Hrun.
    destruct (sim_step _ _ _ _ _ Hsim Hstep) as [(v1 & item & -> & Hsim1)|Hdoomed].
    + destruct (IH _ _ _ Hsim1 Hrun) as [(v' & items' & -> & Hsim')|Hdoomed]; [|by right].
      left. exists v', (option_list item ++ items'). by rewrite app_assoc.
    + right. by eapply doomed_run.
Qed.

(** On a text that is an array of objects, the scanner pushes the items of
    the array and ends after the closing bracket. *)
Lemma viewRun_array text objs :
  JSON_parse text = Some (Jarray objs) → forallb isObject objs = true →
  ∃ v, viewRun initialView text = inr (v, objs) ∧
       vStarted v = true ∧ vFinished v = true ∧ vCapturing v = false.
Proof.
  unfold JSON_parse. intros Hparse Hobjs.
  destruct (parseRun ([], TopValue) text) as [p|] eqn:Hrun; [|done]. simpl in Hparse.
  assert (sim ([], TopValue) initialView []) as Hsim by by apply SimBefore.
  destruct (sim_run _ _ _ _ _ Hsim Hrun) as [(v & items & Hview & Hsim')|Hdoomed].
  - simpl in Hsim'. inversion Hsim'; subst; simpl in Hparse; try done.
    + by destruct es.
    + injection Hparse as <-. by exists v.
  - rewrite (doomed_end _ _ Hdoomed Hparse) in Hobjs. done.
Qed.

(** The decoder writes for two chunks what it writes for their bytes in one
    chunk. *)
Lemma decoderWrite_app d a b :
  decoderWrite d (a ++ b)
  = let '(d1, out1) := decoderWrite d a in
    let '(d2, out2) := decoderWrite d1 b in
    (d2, out1 ++ out2).
Proof.
  revert d. induction a as [|x a IH]; intros d; simpl.
  - by destruct (decoderWrite d b).
  - destruct (decodeByte d x) as [d1 out1]. rewrite IH.
    destruct (decoderWrite d1 a) as [d2 out2]. destruct (decoderWrite d2 b) as [d3 out3].
    by rewrite app_assoc.
Qed.

Lemma decodedFrom_cons d rawChunk rest :
  decodedFrom d (rawChunk ++ rest)
  = (decoderWrite d rawChunk).2 ++ decodedFrom (decoderWrite d rawChunk).1 rest.
Proof.
  unfold decodedFrom. rewrite decoderWrite_app.
  destruct (decoderWrite d rawChunk) as [d1 out1]. simpl.
  destruct (decoderWrite d1 rest) as [d2 out2]. by rewrite app_assoc.
Qed.

(** A call of [flushParsed] that is not the last one runs the scanner over
    the chunk. *)
Lemma flushParsed_viewRun s pre chunk v items :
  readUpTo s pre [] →
  viewRun (viewOf s) chunk = inr (v, items) →
  ∃ s1 pre1, flushParsed false (append s chunk) = inr (s1, items) ∧
             viewOf s1 = v ∧ readUpTo s1 pre1 [].
Proof.
  intros Hread Hview.
  destruct (viewOf_append s pre chunk Hread) as [Hsame Hread'].
  pose proof (flushLoop_viewRun chunk (append s chunk) [] pre Hread') as Hloop.
  rewrite Hsame, Hview in Hloop. destruct Hloop as (s1 & pre1 & Hloop & Hv & Hread1).
  unfold flushParsed.
  replace (length (buffer (append s chunk)) - index (append s chunk))%nat
    with (length chunk).
  2:{ destruct Hread' as (-> & -> & _). rewrite length_app. lia. }
  rewrite Hloop. simpl.
  destruct (readUpTo_reclaim _ _ Hread1) as [pre2 Hread2].
  exists (reclaim s1), pre2. by rewrite (viewOf_reclaim _ _ Hread1).
Qed.

(** The last call. *)
Lemma flushParsed_final s pre chunk v items :
  readUpTo s pre [] →
  viewRun (viewOf s) chunk = inr (v, items) →
  vStarted v = true → vFinished v = true → vCapturing v = false →
  ∃ s1, flushParsed true (append s chunk) = inr (s1, items).
Proof.
  intros Hread Hview Hs Hf Hc.
  destruct (flushParsed_viewRun _ _ _ _ _ Hread Hview) as (s1 & pre1 & Hflush & Hv & _).
  revert Hflush. unfold flushParsed.
  destruct (flushLoop _ _ _) as [e|[s2 parsed]]; [done|]. simpl.
  intros [= <- <-]. subst v. simpl in Hs, Hf, Hc. rewrite Hs, Hf, Hc. simpl. by eexists.
Qed.

(** The generator over the chunks yields what the scanner pushes over the
    text of all the bytes. *)
Lemma streamFrom_viewRun chunks d s yielded pre v items :
  readUpTo s pre [] →
  viewRun (viewOf s) (decodedFrom d (concat chunks)) = inr (v, items) →
  vStarted v = true → vFinished v = true → vCapturing v = false →
  streamFrom d s yielded chunks = (yielded ++ items, None).
Proof.
  revert d s yielded pre items.
  induction chunks as [|rawChunk rest IH]; intros d s yielded pre items Hread Hview Hs Hf Hc.
  - simpl in *. unfold decodedFrom in Hview. simpl in Hview.
    destruct (flushParsed_final _ _ _ _ _ Hread Hview Hs Hf Hc) as [s1 ->]. done.
  - simpl in *. rewrite decodedFrom_cons in Hview.
    destruct (decoderWrite d rawChunk) as [d1 chunk]. simpl in Hview.
    case_bool_decide as Hempty.
    + apply nil_length_inv in Hempty as ->. by eapply IH.
    + rewrite viewRun_app in Hview.
      destruct (viewRun (viewOf s) chunk) as [e|[v1 items1]] eqn:Hchunk; [done|].
      destruct (flushParsed_viewRun _ _ _ _ _ Hread Hchunk) as (s1 & pre1 & -> & <- & Hread1).
      destruct (viewRun (viewOf s1) _) as [e|[v2 items2]] eqn:Hrest; [done|].
      injection Hview as <- <-.
      rewrite (IH _ _ _ _ _ Hread1 Hrest Hs Hf Hc). by rewrite app_assoc.
Qed.

(** C2. When the bytes of the input decode to a text that [JSON.parse]
    reads as an array whose items are all objects, the generator yields
    exactly the items of that array, in the order of the array and equal to
    the values of the whole parse, and throws nothing, however the bytes are
    cut into chunks; so two runs over two partitions of the same bytes yield
    the same sequence of objects. *)
Theorem stream_yields_array_objects bytes objs :
  JSON_parse (utf8Text bytes) = Some (Jarray objs) →
  forallb isObject objs = true →
  (∀ chunks, concat chunks = bytes →
     streamJsonArrayObjectsFromReadable chunks = (objs, None)) ∧
  (∀ chunks1 chunks2, concat chunks1 = bytes → concat chunks2 = bytes →
     streamJsonArrayObjectsFromReadable chunks1
     = streamJsonArrayObjectsFromReadable chunks2).
Proof.
  intros Hparse Hobjs.
  assert (∀ chunks, concat chunks = bytes →
            streamJsonArrayObjectsFromReadable chunks = (objs, None)) as Hall.
  { intros chunks <-.
    destruct (viewRun_array _ _ Hparse Hobjs) as (v & Hview & Hs & Hf & Hc).
    unfold streamJsonArrayObjectsFromReadable.
    by apply (streamFrom_viewRun chunks idle initialScanner [] [] v objs). }
  split; [done|]. intros chunks1 chunks2 H1 H2. by rewrite (Hall _ H1), (Hall _ H2).
Qed.

Lemma stream_yields_array_objects_witness :
  streamJsonArrayObjectsFromReadable sampleChunks = (sampleObjects, None) ∧
  streamJsonArrayObjectsFromReadable [sampleBytes]
  = streamJsonArrayObjectsFromReadable sampleChunks.
Proof.
  destruct (stream_yields_array_objects sampleBytes sampleObjects) as [Hall Hsame];
    [vm_compute; reflexivity|reflexivity|].
  split; [apply Hall; reflexivity|apply Hsame; [vm_compute; reflexivity|reflexivity]].
Defined.

(** The scanner is more lenient than [JSON.parse] on what stands between the
    items: a text that is not JSON can pass. *)
Example scanner_passes_leading_comma :
  JSON_parse (lit "[,{}]") = None ∧
  streamJsonArrayObjectsFromReadable [lit "[,{}]"] = ([Jobject []], None).
Proof. split; vm_compute; reflexivity. Qed.

(** On an array that holds an item that is not an object the generator
    throws, and what it has yielded by then depends on the chunks: the
    objects of a call of [flushParsed] that throws are lost. *)
Example malformed_array_depends_on_chunks :
  streamJsonArrayObjectsFromReadable [lit "[{}, 1]"] = ([], Some (ExpectedObjectItem 49)) ∧
  streamJsonArrayObjectsFromReadable [lit "[{},"; lit " 1]"]
  = ([Jobject []], Some (ExpectedObjectItem 49)).
Proof. split; vm_compute; reflexivity. Qed.

End Streamer.
(** * Facts on [trim] *)

Module TextFacts.
Import Js.

Lemma trimStart_fixed (s : jsstring) :
  (∀ c t, s = c :: t → isWhiteSpace c = false) → trimStart s = s.
Proof. destruct s as [|c t]; [done|]. intros H. simpl. by rewrite (H c t). Qed.

Lemma trimStart_idem (s : jsstring) : trimStart (trimStart s) = trimStart s.
Proof. apply trimStart_fixed. intros c t. apply trimStart_no_leading. Qed.

Lemma trimStart_suffix (s : jsstring) : trimStart s `suffix_of` s.
Proof.
  induction s as [|c s IH]; simpl; [done|].
  destruct (isWhiteSpace c); [by apply suffix_cons_r|done].
Qed.

Lemma trimStart_keeps_last (r : jsstring) c :
  isWhiteSpace c = false → ∃ r', trimStart (r ++ [c]) = r' ++ [c].
Proof.
  intros Hc. induction r as [|d r IH]; simpl.
  - rewrite Hc. by exists [].
  - destruct (isWhiteSpace d); [done|]. by exists (d :: r).
Qed.

Lemma trimEnd_keeps_head c (t : jsstring) :
  isWhiteSpace c = false → ∃ t', trimEnd (c :: t) = c :: t'.
Proof.
  intros Hc. unfold trimEnd. rewrite reverse_cons.
  destruct (trimStart_keeps_last (reverse t) c Hc) as [r' ->].
  rewrite reverse_app. by exists (reverse r').
Qed.

Lemma trimEnd_idem (s : jsstring) : trimEnd (trimEnd s) = trimEnd s.
Proof. unfold trimEnd. by rewrite reverse_involutive, trimStart_idem. Qed.

Lemma trim_idem (s : jsstring) : trim (trim s) = trim s.
Proof.
  unfold trim. destruct (trimStart s) as [|c t] eqn:Es; [done|].
  pose proof (trimStart_no_leading _ _ _ Es) as Hc.
  destruct (trimEnd_keeps_head c t Hc) as [t' Ht].
  rewrite (trimStart_fixed (trimEnd (c :: t))).
  - apply trimEnd_idem.
  - rewrite Ht. by intros ? ? [= <- _].
Qed.

Lemma elem_of_trim (s : jsstring) c : c ∈ trim s → c ∈ s.
Proof.
  unfold trim, trimEnd. rewrite elem_of_reverse. intros Hc.
  assert (c ∈ reverse (trimStart s)) as Hc'.
  { destruct (trimStart_suffix (reverse (trimStart s))) as [k Hk]. rewrite Hk.
    apply elem_of_app. by right. }
  rewrite elem_of_reverse in Hc'.
  destruct (trimStart_suffix s) as [k Hk]. rewrite Hk. apply elem_of_app. by right.
Qed.

Lemma trim_head (s : jsstring) c t : trim s = c :: t → isWhiteSpace c = false.
Proof.
  unfold trim. destruct (trimStart s) as [|c0 t0] eqn:Es; [done|].
  pose proof (trimStart_no_leading _ _ _ Es) as Hc.
  destruct (trimEnd_keeps_head c0 t0 Hc) as [t' ->]. by intros [= <- _].
Qed.

End TextFacts.

(* ===================================================================== *)
(** ** The streamer on any input *)
(* ===================================================================== *)

Module StreamerEdges.
Import Js Streamer.

(** The checks of [flushParsed(true)] after its loop, on the flags. *)
Definition finalCheck (v : view) : option failure :=
  if negb (vStarted v) then Some NotAnArray
  else if vCapturing v then Some EofInObject
  else if negb (vFinished v) then Some EofInArray
  else None.

(** The items that the scanner pushes over a text, until it throws or the
    text ends. *)
Fixpoint scanItems (v : view) (text : jsstring) : list json :=
  match text with
  | [] => []
  | ch :: rest =>
      match viewStep v ch with
      | inl _ => []
      | inr (v1, item) => option_list item ++ scanItems v1 rest
      end
  end.

(** How the scan of a whole text ends: the error of the loop, or the error of
    the checks at the end of the input, or none. *)
Definition scanError (v : view) (text : jsstring) : option failure :=
  match viewRun v text with
  | inl e => Some e
  | inr (v', _) => finalCheck v'
  end.

(** Between two calls of [flushParsed] the buffer holds what is still needed
    and no more: nothing between two items, and the item being read, from
    its first character on, inside one. *)
Definition settled (s : scanner) : Prop :=
  index s = length (buffer s) ∧
  (capturing s = false → buffer s = []) ∧
  (capturing s = true → tokenStart s = 0%nat ∧ started s = true ∧ finished s = false).

(** The scanner after the chunk "[{}, {" of an input: one object is parsed
    and the second one is open. *)
Definition openChunk : jsstring := lit "[{}, {".

Definition openScanner : scanner :=
  Eval vm_compute in
    match flushParsed false (append initialScanner openChunk) with
    | inr (s, _) => s
    | inl _ => initialScanner
    end.

(** *** Facts *)

Lemma viewRun_scanItems v text v' items :
  viewRun v text = inr (v', items) → scanItems v text = items.
Proof.
  revert v v' items. induction text as [|ch text IH]; intros v v' items; simpl.
  - by intros [= _ <-].
  - destruct (viewStep v ch) as [e|[v1 item]]; [done|].
    destruct (viewRun v1 text) as [e|[v2 items2]] eqn:Hrun; [done|].
    intros [= _ <-]. by rewrite (IH _ _ _ Hrun).
Qed.

Lemma scanItems_app v a b :
  scanItems v (a ++ b)
  = match viewRun v a with
    | inl _ => scanItems v a
    | inr (v1, items1) => items1 ++ scanItems v1 b
    end.
Proof.
  revert v. induction a as [|ch a IH]; intros v; simpl; [done|].
  destruct (viewStep v ch) as [e|[v1 item]]; [done|].
  rewrite IH. destruct (viewRun v1 a) as [e|[v2 items2]]; [done|].
  by rewrite app_assoc.
Qed.

Lemma scanError_app v a b :
  scanError v (a ++ b)
  = match viewRun v a with
    | inl e => Some e
    | inr (v1, _) => scanError v1 b
    end.
Proof.
  unfold scanError. rewrite viewRun_app.
  destruct (viewRun v a) as [e|[v1 items1]]; [done|].
  by destruct (viewRun v1 b) as [e|[v2 items2]].
Qed.

(** The last call of [flushParsed] is a call that is not the last, followed
    by the three checks. *)
Lemma flushParsed_true s :
  flushParsed true s
  = match flushParsed false s with
    | inl e => inl e
    | inr (s2, parsed) =>
        match finalCheck (viewOf s2) with
        | Some e => inl e
        | None => inr (s2, parsed)
        end
    end.
Proof.
  unfold flushParsed, finalCheck.
  destruct (flushLoop _ _ _) as [e|[s1 parsed]]; [done|]. simpl.
  by destruct (started (reclaim s1)), (capturing (reclaim s1)), (finished (reclaim s1)).
Qed.

Lemma flushParsed_error s pre chunk e :
  readUpTo s pre [] → viewRun (viewOf s) chunk = inl e →
  flushParsed false (append s chunk) = inl e.
Proof.
  intros Hread Hview.
  destruct (viewOf_append s pre chunk Hread) as [Hsame Hread'].
  pose proof (flushLoop_viewRun chunk (append s chunk) [] pre Hread') as Hloop.
  rewrite Hsame, Hview in Hloop.
  unfold flushParsed.
  replace (length (buffer (append s chunk)) - index (append s chunk))%nat
    with (length chunk).
  2:{ destruct Hread' as (-> & -> & _). rewrite length_app. lia. }
  by rewrite Hloop.
Qed.

(** The generator over any chunks ends as the scan of the whole text ends,
    and yields a prefix of the items of that scan. *)
Lemma streamFrom_scan chunks d s yielded pre :
  readUpTo s pre [] →
  ∃ items,
    streamFrom d s yielded chunks
    = (yielded ++ items, scanError (viewOf s) (decodedFrom d (concat chunks))) ∧
    items `prefix_of` scanItems (viewOf s) (decodedFrom d (concat chunks)) ∧
    (scanError (viewOf s) (decodedFrom d (concat chunks)) = None →
     items = scanItems (viewOf s) (decodedFrom d (concat chunks))).
Proof.
  revert d s yielded pre.
  induction chunks as [|rawChunk rest IH]; intros d s yielded pre Hread.
  - simpl. unfold decodedFrom. simpl. rewrite flushParsed_true. unfold scanError.
    destruct (viewRun (viewOf s) (decoderEnd d)) as [e|[v items]] eqn:Hview.
    + rewrite (flushParsed_error _ _ _ _ Hread Hview).
      exists []. rewrite app_nil_r. split_and!; [done|apply prefix_nil|done].
    + destruct (flushParsed_viewRun _ _ _ _ _ Hread Hview) as (s1 & pre1 & -> & -> & _).
      rewrite (viewRun_scanItems _ _ _ _ Hview).
      destruct (finalCheck v) as [e|].
      * exists []. rewrite app_nil_r. split_and!; [done|apply prefix_nil|done].
      * by exists items.
  - simpl. rewrite decodedFrom_cons.
    destruct (decoderWrite d rawChunk) as [d1 chunk]. simpl.
    case_bool_decide as Hempty.
    + apply nil_length_inv in Hempty as ->. simpl. by eapply IH.
    + rewrite scanError_app, scanItems_app.
      destruct (viewRun (viewOf s) chunk) as [e|[v1 items1]] eqn:Hchunk.
      * rewrite (flushParsed_error _ _ _ _ Hread Hchunk).
        exists []. rewrite app_nil_r. split_and!; [done|apply prefix_nil|done].
      * destruct (flushParsed_viewRun _ _ _ _ _ Hread Hchunk)
          as (s1 & pre1 & -> & <- & Hread1).
        destruct (IH d1 s1 (yielded ++ items1) pre1 Hread1) as (items & -> & Hpre & Hall).
        exists (items1 ++ items). rewrite app_assoc.
        split_and!; [done|by apply prefix_app|]. intros Hnone. by rewrite (Hall Hnone).
Qed.

Lemma initial_readUpTo : readUpTo initialScanner [] [].
Proof. done. Qed.

Lemma streamer_scan chunks :
  ∃ items,
    streamJsonArrayObjectsFromReadable chunks
    = (items, scanError initialView (utf8Text (concat chunks))) ∧
    items `prefix_of` scanItems initialView (utf8Text (concat chunks)) ∧
    (scanError initialView (utf8Text (concat chunks)) = None →
     items = scanItems initialView (utf8Text (concat chunks))).
Proof.
  destruct (streamFrom_scan chunks idle initialScanner [] [] initial_readUpTo)
    as (items & Hrun & Hpre & Hall).
  by exists items.
Qed.

(** X1. Two runs of the generator over the same bytes, cut into chunks in
    two ways, end alike: both throw the same error or none does. What one
    of them has yielded by then is a prefix of what the other has yielded,
    and two runs that end without an error yield the same objects. *)
Theorem stream_outcome_chunk_independent chunks1 chunks2 :
  concat chunks1 = concat chunks2 →
  (streamJsonArrayObjectsFromReadable chunks1).2
  = (streamJsonArrayObjectsFromReadable chunks2).2 ∧
  ((streamJsonArrayObjectsFromReadable chunks1).1
     `prefix_of` (streamJsonArrayObjectsFromReadable chunks2).1 ∨
   (streamJsonArrayObjectsFromReadable chunks2).1
     `prefix_of` (streamJsonArrayObjectsFromReadable chunks1).1) ∧
  ((streamJsonArrayObjectsFromReadable chunks1).2 = None →
   streamJsonArrayObjectsFromReadable chunks1 = streamJsonArrayObjectsFromReadable chunks2).
Proof.
  intros Hsame.
  destruct (streamer_scan chunks1) as (items1 & -> & Hpre1 & Hall1).
  destruct (streamer_scan chunks2) as (items2 & -> & Hpre2 & Hall2).
  rewrite <- Hsame in *. simpl. split_and!; [done| |].
  - by eapply prefix_weak_total.
  - intros Hnone. by rewrite (Hall1 Hnone), (Hall2 Hnone).
Qed.

Lemma stream_outcome_chunk_independent_witness :
  (streamJsonArrayObjectsFromReadable sampleChunks).2
  = (streamJsonArrayObjectsFromReadable [sampleBytes]).2 ∧
  ((streamJsonArrayObjectsFromReadable sampleChunks).1
     `prefix_of` (streamJsonArrayObjectsFromReadable [sampleBytes]).1 ∨
   (streamJsonArrayObjectsFromReadable [sampleBytes]).1
     `prefix_of` (streamJsonArrayObjectsFromReadable sampleChunks).1) ∧
  ((streamJsonArrayObjectsFromReadable sampleChunks).2 = None →
   streamJsonArrayObjectsFromReadable sampleChunks
   = streamJsonArrayObjectsFromReadable [sampleBytes]).
Proof.
  apply (stream_outcome_chunk_independent sampleChunks [sampleBytes]).
  vm_compute. reflexivity.
Defined.

Lemma scanPass_object s ch s1 item :
  scanPass s ch = inr (s1, Some item) → isObject item = true.
Proof.
  unfold scanPass.
  repeat (match goal with
          | |- context [if ?b then _ else _] =>
              lazymatch b with
              | negb (isObject _) => fail
              | _ => destruct b
              end
          end; try done).
  all: destruct (JSON_parse _) as [value|]; [|done].
  all: destruct (isObject value) eqn:Hobj; simpl; [|done].
  all: by intros [= _ <-].
Qed.

Lemma flushLoop_objects fuel s parsed s1 parsed1 :
  Forall (λ v, isObject v = true) parsed →
  flushLoop fuel s parsed = inr (s1, parsed1) →
  Forall (λ v, isObject v = true) parsed1.
Proof.
  revert s parsed. induction fuel as [|fuel IH]; intros s parsed Hall; simpl.
  - by intros [= _ <-].
  - destruct (buffer s !! index s) as [ch|]; [|by intros [= _ <-]].
    destruct (scanPass s ch) as [e|[s2 item]] eqn:Hpass; [done|].
    apply IH. apply Forall_app. split; [done|].
    destruct item as [item|]; [|constructor].
    constructor; [|constructor]. by eapply scanPass_object.
Qed.

Lemma flushParsed_objects isFinal s s1 parsed :
  flushParsed isFinal s = inr (s1, parsed) → Forall (λ v, isObject v = true) parsed.
Proof.
  unfold flushParsed.
  destruct (flushLoop _ _ _) as [e|[s2 parsed2]] eqn:Hloop; [done|].
  assert (Forall (λ v, isObject v = true) parsed2) as Hall
    by (eapply flushLoop_objects; [constructor|done]).
  destruct isFinal; [|by intros [= _ <-]].
  repeat (match goal with |- context [if ?b then _ else _] => destruct b end; try done).
  by intros [= _ <-].
Qed.

Lemma streamFrom_objects chunks d s yielded :
  Forall (λ v, isObject v = true) yielded →
  Forall (λ v, isObject v = true) (streamFrom d s yielded chunks).1.
Proof.
  revert d s yielded. induction chunks as [|rawChunk rest IH]; intros d s yielded Hall; simpl.
  - destruct (flushParsed _ _) as [e|[s1 parsed]] eqn:Hflush; [done|]. simpl.
    apply Forall_app. split; [done|]. by eapply flushParsed_objects.
  - destruct (decoderWrite d rawChunk) as [d1 chunk].
    case_bool_decide; [by apply IH|].
    destruct (flushParsed _ _) as [e|[s1 parsed]] eqn:Hflush; [done|].
    apply IH. apply Forall_app. split; [done|]. by eapply flushParsed_objects.
Qed.

(** X2. Whatever the input is, every value that the generator yields is an
    object: never an array, a string, a number, a boolean or [null]. *)
Theorem stream_yields_only_objects chunks :
  Forall (λ v, isObject v = true) (streamJsonArrayObjectsFromReadable chunks).1.
Proof. apply streamFrom_objects. constructor. Qed.

Lemma viewRun_blank v text :
  vStarted v = false → Forall (λ c, isWhitespace c = true) text →
  viewRun v text = inr (v, []).
Proof.
  intros Hs Hall. induction Hall as [|c text Hc _ IH]; simpl; [done|].
  unfold viewStep. rewrite Hs, Hc. simpl. by rewrite IH.
Qed.

(** X3. An input that holds white space only (or nothing) yields nothing
    and ends with the error of an input that is not an array. An input whose
    first character after the white space is not an opening bracket yields
    nothing and ends with the error that names this character. *)
Theorem stream_refuses_missing_array chunks :
  (Forall (λ c, isWhitespace c = true) (utf8Text (concat chunks)) →
   streamJsonArrayObjectsFromReadable chunks = ([], Some NotAnArray)) ∧
  (∀ blank c rest,
     utf8Text (concat chunks) = blank ++ c :: rest →
     Forall (λ c, isWhitespace c = true) blank → isWhitespace c = false → c ≠ 91 →
     streamJsonArrayObjectsFromReadable chunks = ([], Some (ExpectedArrayStart c))).
Proof.
  destruct (streamer_scan chunks) as (items & -> & Hpre & _). split.
  - intros Hblank. revert Hpre. unfold scanError.
    rewrite (viewRun_scanItems _ _ _ _ (viewRun_blank initialView _ eq_refl Hblank)).
    rewrite (viewRun_blank initialView _ eq_refl Hblank).
    by intros ->%prefix_nil_inv.
  - intros blank c rest Htext Hblank Hc Hne. rewrite Htext in *. revert Hpre.
    rewrite scanError_app, scanItems_app, (viewRun_blank initialView _ eq_refl Hblank).
    unfold scanError. simpl. unfold viewStep. simpl. rewrite Hc.
    apply N.eqb_neq in Hne. rewrite Hne. simpl.
    by intros ->%prefix_nil_inv.
Qed.

Lemma classify_space c : classify c = CSpace ↔ isWhitespace c = true.
Proof.
  unfold classify, isWhitespace.
  destruct ((c =? 32) || (c =? 10) || (c =? 13) || (c =? 9)); [done|].
  split; [|done]. by repeat case_match.
Qed.

(** After the value, the parser reads white space only. *)
Lemma parseRun_done value text p :
  parseRun ([], TopDone value) text = Some p →
  Forall (λ c, isWhitespace c = true) text.
Proof.
  induction text as [|c text IH]; simpl; [constructor|].
  unfold parseStep, stepCore. simpl.
  destruct (classify c) eqn:Hc; try done. simpl.
  intros Hrun. constructor; [by apply classify_space|by apply IH].
Qed.

(** X4. When the input is the beginning of an array of objects and what
    is missing is more than white space, the generator ends with one of its
    three errors of an early end of input, after it has yielded some of the
    first objects of the array, in order. *)
Theorem stream_truncated_array_fails chunks rest objs :
  JSON_parse (utf8Text (concat chunks) ++ rest) = Some (Jarray objs) →
  forallb isObject objs = true →
  ¬ Forall (λ c, isWhitespace c = true) rest →
  ∃ yielded e,
    streamJsonArrayObjectsFromReadable chunks = (yielded, Some e) ∧
    e ∈ [NotAnArray; EofInObject; EofInArray] ∧
    yielded `prefix_of` objs.
Proof.
  unfold JSON_parse. rewrite parseRun_app. intros Hparse Hobjs Hrest.
  destruct (parseRun ([], TopValue) (utf8Text (concat chunks))) as [p1|] eqn:Hrun1; [|done].
  simpl in Hparse.
  destruct (parseRun p1 rest) as [p2|] eqn:Hrun2; [|done]. simpl in Hparse.
  assert (sim ([], TopValue) initialView []) as Hsim by by apply SimBefore.
  assert (¬ doomed p2) as Hlive.
  { intros Hd. by rewrite (doomed_end _ _ Hd Hparse) in Hobjs. }
  destruct (sim_run _ _ _ _ _ Hsim Hrun1) as [(v1 & items1 & Hview1 & Hsim1)|Hd];
    [|destruct Hlive; by eapply doomed_run].
  destruct (sim_run _ _ _ _ _ Hsim1 Hrun2) as [(v2 & items2 & Hview2 & Hsim2)|Hd]; [|done].
  simpl in Hsim1, Hsim2.
  assert (objs = items1 ++ items2) as ->.
  { inversion Hsim2; subst; simpl in Hparse; try done; [by destruct es|congruence]. }
  destruct (streamer_scan chunks) as (items & -> & Hpre & _).
  unfold scanError. rewrite Hview1. rewrite (viewRun_scanItems _ _ _ _ Hview1) in Hpre.
  assert (finalCheck v1 ≠ None) as Hcheck.
  { unfold finalCheck. inversion Hsim1 as [v Hs Hf Hc|? m v Hm Hs Hf Hc|? es m v Hes Hs Hf Hc|? v Hs Hf Hc];
      subst; rewrite ?Hs, ?Hf, ?Hc; simpl; try done.
    destruct Hrest. by eapply parseRun_done. }
  destruct (finalCheck v1) as [e|] eqn:He; [|done].
  exists items, e. split_and!; [done| |].
  - revert He. unfold finalCheck. repeat case_match; intros [= <-]; set_solver.
  - etrans; [done|]. by apply prefix_app_r.
Qed.

Lemma stream_truncated_array_fails_witness :
  ∃ yielded e,
    streamJsonArrayObjectsFromReadable [openChunk] = (yielded, Some e) ∧
    e ∈ [NotAnArray; EofInObject; EofInArray] ∧
    yielded `prefix_of` [Jobject []; Jobject []].
Proof.
  apply (stream_truncated_array_fails [openChunk] (lit "}]") [Jobject []; Jobject []]).
  - vm_compute. reflexivity.
  - reflexivity.
  - intros Hblank. apply Forall_cons in Hblank as [Hc _]. vm_compute in Hc. discriminate Hc.
Defined.

Lemma scanPass_suffix s ch s1 item :
  scanPass s ch = inr (s1, item) → buffer s1 `suffix_of` buffer s.
Proof.
  unfold scanPass.
  repeat (match goal with
          | |- context [if ?b then _ else _] =>
              lazymatch b with
              | negb (isObject _) => fail
              | _ => destruct b
              end
          end; try done);
    try (intros [= <- _]; done).
  all: destruct (JSON_parse _) as [value|]; [|done].
  all: destruct (isObject value); simpl; [|done].
  all: intros [= <- _]; simpl; apply suffix_drop.
Qed.

Lemma flushLoop_suffix fuel s parsed s1 parsed1 :
  flushLoop fuel s parsed = inr (s1, parsed1) → buffer s1 `suffix_of` buffer s.
Proof.
  revert s parsed. induction fuel as [|fuel IH]; intros s parsed; simpl.
  - by intros [= <- _].
  - destruct (buffer s !! index s) as [ch|]; [|by intros [= <- _]].
    destruct (scanPass s ch) as [e|[s2 item]] eqn:Hpass; [done|].
    intros Hloop. etrans; [by eapply IH|by eapply scanPass_suffix].
Qed.

Lemma reclaim_suffix s : buffer (reclaim s) `suffix_of` buffer s.
Proof.
  unfold reclaim. repeat case_match; simpl; try done; apply suffix_drop.
Qed.

Lemma settled_readUpTo s chunk : settled s → readUpTo (append s chunk) (buffer s) chunk.
Proof.
  intros (Hidx & Hidle & Hcap). unfold readUpTo. simpl. split_and!; [done|done|].
  intros Hc. destruct (Hcap Hc) as (Hts & Hs & Hf). split_and!; [done|done|lia].
Qed.

Lemma reclaim_settled s pre : readUpTo s pre [] → settled (reclaim s).
Proof.
  destruct s as [buf idx st fin cap ts dp ins esc]. unfold readUpTo, reclaim, settled. simpl.
  intros (-> & -> & Hcap). rewrite app_nil_r.
  destruct cap; simpl.
  - destruct (Hcap eq_refl) as (-> & -> & Hle). case_bool_decide; simpl.
    + rewrite length_drop. done.
    + split_and!; [done|done|]. intros _. split_and!; [lia|done|done].
  - case_bool_decide; simpl.
    + rewrite drop_all. done.
    + split_and!; [done| |done]. intros _. destruct pre; [done|simpl in *; lia].
Qed.

Lemma initialScanner_settled : settled initialScanner.
Proof. done. Qed.

(** X5. Between two chunks the buffer of the scanner holds the text of the
    object that is open and nothing else. After a call of [flushParsed]
    that throws nothing, all of the buffer is read, it is empty when no
    object is open and starts with the open object otherwise; and it is a
    suffix of the former buffer followed by the chunk. *)
Theorem flushParsed_keeps_open_item_only s chunk s' parsed :
  settled s →
  flushParsed false (append s chunk) = inr (s', parsed) →
  settled s' ∧ buffer s' `suffix_of` buffer s ++ chunk.
Proof.
  intros Hsettled. pose proof (settled_readUpTo s chunk Hsettled) as Hread.
  pose proof (flushLoop_viewRun chunk (append s chunk) [] (buffer s) Hread) as Hloop.
  unfold flushParsed.
  replace (length (buffer (append s chunk)) - index (append s chunk))%nat
    with (length chunk).
  2:{ destruct Hread as (-> & -> & _). rewrite length_app. lia. }
  destruct (flushLoop (length chunk) (append s chunk) []) as [e|[s1 parsed1]] eqn:Hrun; [done|].
  intros [= <- <-].
  destruct (viewRun (viewOf (append s chunk)) chunk) as [e|[v items]]; [done|].
  destruct Hloop as (s2 & pre2 & [= <- _] & _ & Hread2). split.
  - by eapply reclaim_settled.
  - etrans; [apply reclaim_suffix|]. by apply (flushLoop_suffix _ _ _ _ _ Hrun).
Qed.

Lemma flushParsed_keeps_open_item_only_witness :
  settled openScanner ∧ buffer openScanner `suffix_of` buffer initialScanner ++ openChunk.
Proof.
  apply (flushParsed_keeps_open_item_only initialScanner openChunk openScanner [Jobject []]).
  - apply initialScanner_settled.
  - vm_compute. reflexivity.
Defined.

End StreamerEdges.

(* ===================================================================== *)
(** ** Packets: accounting, line ends, token budgets *)
(* ===================================================================== *)

Module PacketFacts.
Import Js Packets.
Local Open Scope Z_scope.

(** The sum of the lengths of the lines. *)
Definition totalLength (lines : list jsstring) : Z := foldr (λ line n, len line + n) 0 lines.

Lemma totalLength_app a b : totalLength (a ++ b) = totalLength a + totalLength b.
Proof. induction a as [|x a IH]; simpl; lia. Qed.

Lemma totalLength_nonneg lines : 0 ≤ totalLength lines.
Proof. induction lines as [|x a IH]; simpl; unfold len; lia. Qed.

Lemma join_length (sep : jsstring) lines :
  len (join sep lines) = totalLength lines + len sep * Z.of_nat (length lines - 1).
Proof.
  induction lines as [|x [|y lines] IH]; [cbn; unfold len; simpl; lia|cbn; unfold len; lia|].
  change (join sep (x :: y :: lines)) with (x ++ sep ++ join sep (y :: lines)).
  unfold len in *. rewrite !length_app, !Nat2Z.inj_add, IH.
  cbn [totalLength foldr length]. unfold len.
  rewrite !Nat.sub_succ, !Nat.sub_0_r, Nat2Z.inj_succ. lia.
Qed.

(** What the loop of [buildConversationPacket] keeps: [used] counts the
    lines and [charCount] their lengths. *)
Lemma packetLoop_accounting maxMessages maxChars messages lines count used :
  count = totalLength lines → used = Z.of_nat (length lines) →
  (0 < maxChars → count ≤ maxChars) →
  let '(lines', count', used') := packetLoop maxMessages maxChars messages lines count used in
  count' = totalLength lines' ∧ used' = Z.of_nat (length lines') ∧
  (0 < maxChars → count' ≤ maxChars) ∧
  (length lines' ≤ length lines + length messages)%nat.
Proof.
  revert lines count used.
  induction messages as [|message rest IH]; intros lines count used Hc Hu Hmax; simpl.
  - split_and!; [done|done|done|lia].
  - destruct ((0 <? maxMessages) && (maxMessages <=? used)); [split_and!; [done|done|done|lia]|].
    case_bool_decide.
    + specialize (IH lines count used Hc Hu Hmax).
      destruct (packetLoop _ _ rest lines count used) as [[lines' count'] used'].
      destruct IH as (? & ? & ? & ?). split_and!; [done|done|done|lia].
    + match goal with |- context [count + len ?l] => set (line := l) end.
      destruct ((0 <? maxChars) && (maxChars <? count + len line)) eqn:Efull;
        [split_and!; [done|done|done|lia]|].
      specialize (IH (lines ++ [line]) (count + len line) (used + 1)).
      destruct (packetLoop _ _ rest _ _ _) as [[lines' count'] used'].
      destruct IH as (? & ? & ? & Hlen).
      * rewrite totalLength_app. simpl. lia.
      * rewrite length_app. simpl. lia.
      * intros Hpos. apply andb_false_iff in Efull as [E|E]; lia.
      * rewrite length_app in Hlen. simpl in Hlen. split_and!; [done|done|done|lia].
Qed.

(** X6. The accounting of a packet. [messagesUsed] lies between 0 and the
    number of messages, and under a positive message cap it is at most the
    cap. [charCount] is not negative, and under a positive character cap it
    is at most the cap. The transcript has [charCount] characters and one
    line feed between two lines: its length is
    [charCount + max(0, messagesUsed - 1)]. *)
Theorem buildConversationPacket_accounting id messages maxMessages maxChars :
  let packet := buildConversationPacket id messages maxMessages maxChars in
  0 ≤ messagesUsed packet ≤ Z.of_nat (length messages) ∧
  (0 < maxMessages → messagesUsed packet ≤ maxMessages) ∧
  0 ≤ charCount packet ∧
  (0 < maxChars → charCount packet ≤ maxChars) ∧
  len (transcript packet) = charCount packet + Z.max 0 (messagesUsed packet - 1).
Proof.
  cbv zeta. unfold buildConversationPacket.
  pose proof (packetLoop_accounting maxMessages maxChars messages [] 0 0
                eq_refl eq_refl ltac:(lia)) as Hacc.
  pose proof (λ H, packetLoop_used_bound maxMessages maxChars messages [] 0 0 H ltac:(lia))
    as Hused.
  destruct (packetLoop _ _ _ _ _ _) as [[lines count] used]. simpl in *.
  destruct Hacc as (-> & -> & Hmax & Hlen).
  split_and!; [lia|lia|done|apply totalLength_nonneg|done|].
  rewrite join_length. change (len (lit (String "010" EmptyString))) with 1. lia.
Qed.

Lemma replaceCrLf_no_cr (s : jsstring) : 13%N ∉ s → replaceCrLf s = s.
Proof.
  induction s as [|c s IH]; [done|]. intros Hno.
  assert (c ≠ 13%N) as Hc by (intros ->; apply Hno; left).
  assert (13%N ∉ s) as Hs by (intros ?; apply Hno; by right).
  destruct s as [|d s]; [done|].
  change (replaceCrLf (c :: d :: s))
    with (if (c =? 13)%N && (d =? 10)%N then 10%N :: replaceCrLf s
          else c :: replaceCrLf (d :: s)).
  apply N.eqb_neq in Hc. rewrite Hc. simpl andb. cbv iota. by rewrite (IH Hs).
Qed.

Lemma normalizeNewlines_clean (s : jsstring) :
  13%N ∉ s → 0%N ∉ s → normalizeNewlines s = s.
Proof.
  intros Hcr Hnul. unfold normalizeNewlines. rewrite replaceCrLf_no_cr by done.
  induction s as [|c s IH]; [done|].
  assert (c ≠ 0%N) as Hc by (intros ->; apply Hnul; left).
  assert (c ≠ 13%N) as Hc' by (intros ->; apply Hcr; left).
  rewrite fmap_cons. apply N.eqb_neq in Hc'. rewrite Hc'.
  rewrite filter_cons_True by done. f_equal.
  (apply IH; intros ?); [apply Hcr|apply Hnul]; by right.
Qed.

Lemma normalizeNewlines_no_cr_nul (s : jsstring) :
  (13%N ∉ normalizeNewlines s) ∧ (0%N ∉ normalizeNewlines s).
Proof.
  unfold normalizeNewlines. split.
  - intros [_ (c & Hc & _)%list_elem_of_fmap]%list_elem_of_filter.
    destruct (N.eqb_spec c 13); done.
  - by intros [? _]%list_elem_of_filter.
Qed.

Lemma replaceCrLf_length (s : jsstring) : (length (replaceCrLf s) ≤ length s)%nat.
Proof.
  assert (∀ n (s : jsstring), (length s ≤ n → length (replaceCrLf s) ≤ length s)%nat) as H;
    [|by apply (H (length s))].
  clear s. induction n as [|n IH]; intros [|c [|d s]] Hn; simpl in Hn; try (simpl; lia).
  change (replaceCrLf (c :: d :: s))
    with (if (c =? 13)%N && (d =? 10)%N then 10%N :: replaceCrLf s
          else c :: replaceCrLf (d :: s)).
  destruct ((c =? 13)%N && (d =? 10)%N); cbn [length].
  - specialize (IH s). cbn [length] in IH. lia.
  - specialize (IH (d :: s)). cbn [length] in IH. lia.
Qed.

(** X7. The text that [normalizeNewlines] returns holds no carriage return
    and no NUL, is not longer than its argument, and is left as it is by a
    second call. *)
Theorem normalizeNewlines_normal (value : jsstring) :
  (13%N ∉ normalizeNewlines value) ∧ (0%N ∉ normalizeNewlines value) ∧
  (length (normalizeNewlines value) ≤ length value)%nat ∧
  normalizeNewlines (normalizeNewlines value) = normalizeNewlines value.
Proof.
  destruct (normalizeNewlines_no_cr_nul value) as [Hcr Hnul].
  split_and!; [done|done| |by apply normalizeNewlines_clean].
  unfold normalizeNewlines. etrans; [apply length_filter|].
  rewrite length_fmap. apply replaceCrLf_length.
Qed.

Lemma omap_sublist {A B C} (f : A → option B) (g : B → C) (h : A → C) (l : list A) :
  (∀ x y, f x = Some y → g y = h x) → (g <$> omap f l) `sublist_of` (h <$> l).
Proof.
  intros Hf. induction l as [|x l IH]; simpl; [done|].
  destruct (f x) as [y|] eqn:Hx; simpl.
  - rewrite (Hf _ _ Hx). by constructor.
  - by constructor.
Qed.

Section Files.

Variable readExtractedConversationFile : jsstring → list RoleContentMessage.
Variable conversationIdFromFile : jsstring → jsstring.

Lemma perConversationCharBudget_least (n : nat) C T :
  1 ≤ perConversationCharBudget n C T.
Proof.
  unfold perConversationCharBudget, MAX_SAFE_INTEGER. repeat case_match; lia.
Qed.

Lemma chunkOfFile_source budget maxMessages file chunk :
  1 ≤ budget →
  chunkOfFile readExtractedConversationFile conversationIdFromFile budget maxMessages file
  = Some chunk →
  sourceFile chunk = fileName file ∧ sourcePath chunk = filePath file ∧
  chunkConversationId chunk = conversationIdFromFile (filePath file) ∧
  chunkCharCount chunk ≤ len (chunkTranscript chunk) ∧
  len (chunkTranscript chunk) ≤ budget ∧
  1 ≤ tokenEstimate chunk ≤ (budget + 3) / 4.
Proof.
  intros Hbudget. unfold chunkOfFile.
  set (packet := buildConversationPacketFromFile _ _ _ _ _).
  destruct (_ || _); [done|].
  destruct (_ || _) eqn:Eblank; [done|]. intros [= <-]. simpl.
  apply orb_false_iff in Eblank as [_ Etrim]. apply bool_decide_eq_false in Etrim.
  assert (len (take (Z.to_nat budget) (transcript packet)) ≤ budget) as Hlen.
  { unfold len. rewrite length_take. lia. }
  set (safeTranscript := take _ _) in *.
  split_and!; [done|done| |lia|done| |].
  - unfold packet, buildConversationPacketFromFile, buildConversationPacket.
    by destruct (packetLoop _ _ _ _ _ _) as [[? ?] ?].
  - unfold estimateTokens. destruct safeTranscript; [done|lia].
  - unfold estimateTokens. destruct safeTranscript as [|c t]; [done|].
    apply Z.max_lub; [apply Z.div_le_lower_bound; lia|].
    apply Z.div_le_mono; lia.
Qed.

(** X8. Whatever the budgets are, the chunks of [buildChunksFromFiles]
    follow the files: their source files are a subsequence of the names of
    the files, in order. Every chunk has the conversation id of its path,
    a [charCount] that is at most the length of its transcript, a transcript
    of at most [perConversationCharBudget] characters, and a token estimate
    between 1 and a quarter of that budget, rounded up. *)
Theorem buildChunksFromFiles_follow_files files maxMessages maxChars maxTotal :
  let chunks := buildChunksFromFiles readExtractedConversationFile conversationIdFromFile
                  files maxMessages maxChars maxTotal in
  let budget := perConversationCharBudget (length files) maxChars maxTotal in
  (sourceFile <$> chunks) `sublist_of` (fileName <$> files) ∧
  ∀ chunk, chunk ∈ chunks →
    chunkConversationId chunk = conversationIdFromFile (sourcePath chunk) ∧
    chunkCharCount chunk ≤ len (chunkTranscript chunk) ∧
    len (chunkTranscript chunk) ≤ budget ∧
    1 ≤ tokenEstimate chunk ≤ (budget + 3) / 4.
Proof.
  cbv zeta. unfold buildChunksFromFiles.
  pose proof (perConversationCharBudget_least (length files) maxChars maxTotal) as Hb.
  split.
  - apply omap_sublist. intros file chunk Hchunk.
    by destruct (chunkOfFile_source _ _ _ _ Hb Hchunk).
  - intros chunk (file & _ & Hchunk)%list_elem_of_omap.
    destruct (chunkOfFile_source _ _ _ _ Hb Hchunk) as (_ & -> & -> & ? & ? & ?). done.
Qed.

End Files.

End PacketFacts.

Module TokenBudget.
Import Js Packets.
Local Open Scope Z_scope.

(** [truncateToTokenBudget]; the budgets that the engine passes are integers
    ([Math.max] of an integer and a [Math.floor]). *)
Definition truncateToTokenBudget (text : jsstring) (tokenBudget : Z) : jsstring :=
  if tokenBudget <=? 0 then []
  else
    let charBudget := tokenBudget * 4 in
    if len text <=? charBudget then text
    else take (Z.to_nat charBudget) text.

(** X9. The text that [truncateToTokenBudget] returns is a prefix of the
    text, its token estimate is at most the budget (0 for a budget that is
    not positive), and a text whose estimate is within the budget is
    returned as it is. *)
Theorem truncateToTokenBudget_fits (text : jsstring) (tokenBudget : Z) :
  estimateTokens (truncateToTokenBudget text tokenBudget) ≤ Z.max 0 tokenBudget ∧
  truncateToTokenBudget text tokenBudget `prefix_of` text ∧
  (estimateTokens text ≤ tokenBudget → truncateToTokenBudget text tokenBudget = text).
Proof.
  unfold truncateToTokenBudget, estimateTokens, len.
  destruct (Z.leb_spec tokenBudget 0) as [Hb|Hb].
  - split_and!; [apply Z.le_max_l|apply prefix_nil|]. destruct text; [done|lia].
  - destruct (Z.leb_spec (Z.of_nat (length text)) (tokenBudget * 4)) as [Hfit|Hlong].
    + split_and!; [|done|done]. destruct text as [|c t]; [lia|].
      assert ((Z.of_nat (length (c :: t)) + 3) / 4 < tokenBudget + 1)
        by (apply Z.div_lt_upper_bound; lia). lia.
    + split_and!; [|apply prefix_take|].
      * destruct (take _ _) as [|c t] eqn:Etake; [lia|]. rewrite <- Etake.
        rewrite length_take.
        assert ((Z.of_nat (Z.to_nat (tokenBudget * 4) `min` length text) + 3) / 4
                < tokenBudget + 1) by (apply Z.div_lt_upper_bound; lia). lia.
      * destruct text as [|c t]; [simpl in *; lia|]. intros Hest.
        assert ((Z.of_nat (length (c :: t)) + 3) / 4 ≤ tokenBudget) as Hdiv by lia.
        assert (4 * ((Z.of_nat (length (c :: t)) + 3) / 4) + (Z.of_nat (length (c :: t)) + 3) mod 4
                = Z.of_nat (length (c :: t)) + 3) as Hmod by (symmetry; apply Z.div_mod; lia).
        pose proof (Z.mod_pos_bound (Z.of_nat (length (c :: t)) + 3) 4 ltac:(lia)). lia.
Qed.

End TokenBudget.

(* ===================================================================== *)
(** ** Memory rows: from the model output to compaction *)
(* ===================================================================== *)

Module MemoryRows.
Import Js Compaction Resume TextFacts.

(** [toMemoryCandidates]: the rows of an extraction call; [count] is
    [out.length] when the row is read. *)
Definition toMemoryCandidate (count : nat) (row : list (jsstring * jsval))
    : option MemoryCandidate :=
  let content' := safeString (getField row (lit "content")) [] in
  match content' with
  | [] => None
  | _ =>
      let keys' := toStringArray (getField row (lit "keys")) in
      Some {| name := JStr (safeString (getField row (lit "name"))
                                       (lit "Memory " ++ decimal (count + 1)));
              keys := strings (match keys' with [] => splitKeywords content' | _ => keys' end);
              content := JStr content';
              category := JStr (safeString (getField row (lit "category")) (lit "shared_memory"));
              priority := JNum (toNumber (nullish (getField row (lit "priority"))
                                                  (JNum (Finite 0))));
              sourceConversation := JStr (safeString (getField row (lit "source_conversation")) []);
              sourceDate := JStr (safeString (getField row (lit "source_date")) []) |}
  end.

Definition toMemoryCandidates (rows : list (list (jsstring * jsval))) : list MemoryCandidate :=
  foldl (λ out row, out ++ option_list (toMemoryCandidate (length out) row)) [] rows.

(** A string that [trim] leaves alone and that is not empty. *)
Definition solid (s : jsstring) : Prop :=
  ∃ c t, s = c :: t ∧ isWhiteSpace c = false.

(** A match of the keyword pattern: three or more lower-case letters or
    digits. *)
Definition keywordToken (k : jsstring) : Prop :=
  (3 ≤ length k)%nat ∧ Forall (λ c, isKeywordChar c = true) k.

(** A row that [compactMemories] keeps or merges: its content and its keys
    pass the guard of the loop. *)
Definition sound (c : MemoryCandidate) : Prop :=
  (∃ text, content c = JStr text ∧ solid text) ∧
  (∃ ks, keys c = strings ks ∧ ks ≠ [] ∧ Forall solid ks).

(** *** Facts *)

Lemma trimStart_nil_iff (s : jsstring) :
  trimStart s = [] ↔ Forall (λ c, isWhiteSpace c = true) s.
Proof.
  induction s as [|c s IH]; simpl; [done|].
  destruct (isWhiteSpace c) eqn:E.
  - rewrite IH. split; [by constructor|by inversion 1].
  - split; [done|]. inversion 1; congruence.
Qed.

Lemma trim_solid (s : jsstring) : solid s → solid (trim s).
Proof.
  intros (c & t & -> & Hc). unfold trim, trimEnd. simpl. rewrite Hc.
  rewrite reverse_cons. destruct (trimStart_keeps_last (reverse t) c Hc) as [r' ->].
  rewrite reverse_app. simpl. by exists c, (reverse r').
Qed.

Lemma trim_nonempty_solid (s : jsstring) : trim s ≠ [] → solid (trim s).
Proof.
  unfold trim, trimEnd. intros Hne.
  destruct (trimStart s) as [|c t] eqn:Es; [done|].
  pose proof (trimStart_no_leading _ _ _ Es) as Hc.
  rewrite reverse_cons. destruct (trimStart_keeps_last (reverse t) c Hc) as [r' ->].
  rewrite reverse_app. simpl. by exists c, (reverse r').
Qed.

Lemma replaceCrLf_solid (s : jsstring) : solid s → solid (replaceCrLf s).
Proof.
  intros (c & t & -> & Hc). exists c.
  destruct t as [|d t]; [by exists []|].
  change (replaceCrLf (c :: d :: t))
    with (if (c =? 13) && (d =? 10) then 10 :: replaceCrLf t else c :: replaceCrLf (d :: t)).
  destruct (N.eqb_spec c 13) as [->|_]; [done|]. simpl. by eexists.
Qed.

Lemma solid_nonempty (s : jsstring) : solid s → s ≠ [].
Proof. by intros (c & t & -> & _). Qed.

Lemma safeString_solid (s : jsstring) : solid s → safeString (JStr s) [] ≠ [].
Proof.
  intros Hs. unfold safeString. simpl.
  pose proof (solid_nonempty _ (trim_solid _ (replaceCrLf_solid _ Hs))) as Hne.
  by destruct (trim (replaceCrLf s)).
Qed.

Lemma toStringArray_solid v k : k ∈ toStringArray v → solid k.
Proof.
  destruct v; simpl; try (by intros ?%elem_of_nil).
  intros [Hne (s & -> & _)%list_elem_of_fmap]%list_elem_of_filter.
  by apply trim_nonempty_solid.
Qed.

Lemma toStringArray_strings ks :
  ks ≠ [] → Forall solid ks → toStringArray (strings ks) ≠ [].
Proof.
  intros Hne Hall. destruct ks as [|k ks]; [done|]. clear Hne.
  apply Forall_cons in Hall as [Hk _]. unfold toStringArray, strings. simpl.
  rewrite filter_cons_True; [done|]. by apply solid_nonempty, trim_solid.
Qed.

Lemma keywordChar_not_space c : isKeywordChar c = true → isWhiteSpace c = false.
Proof.
  unfold isKeywordChar, isWhiteSpace. intros Hc.
  apply orb_false_iff. split.
  - apply bool_decide_eq_false. intros Hin.
    repeat (apply elem_of_cons in Hin as [->|Hin]; [done|]). by apply elem_of_nil in Hin.
  - apply andb_false_iff. left. apply N.leb_gt.
    apply orb_true_iff in Hc as [[_ H]%andb_true_iff|[_ H]%andb_true_iff];
      apply N.leb_le in H; lia.
Qed.

Lemma keywordRuns_tokens run s :
  Forall (λ c, isKeywordChar c = true) run →
  Forall keywordToken (keywordRuns run s).
Proof.
  revert run. induction s as [|c s IH]; intros run Hrun; simpl.
  - case_bool_decide; [|constructor]. by repeat constructor.
  - destruct (isKeywordChar c) eqn:Hc.
    + apply IH. apply Forall_app. by repeat constructor.
    + case_bool_decide; [constructor; [done|]|]; by apply IH.
Qed.

Lemma keywordLoop_spec tokens out seen :
  NoDup out → (∀ k, k ∈ out → k ∈ seen) → (length out < 5)%nat →
  NoDup (keywordLoop tokens out seen) ∧
  (length (keywordLoop tokens out seen) ≤ 5)%nat ∧
  (∀ k, k ∈ keywordLoop tokens out seen → k ∈ out ∨ k ∈ tokens).
Proof.
  revert out seen. induction tokens as [|token rest IH]; intros out seen Hnd Hsub Hlen; simpl.
  - split_and!; [done|lia|by left].
  - case_bool_decide as Hseen.
    + destruct (IH out seen Hnd Hsub Hlen) as (H1 & H2 & H3).
      split_and!; [done|done|].
      intros k Hk. destruct (H3 k Hk); [by left|right; by right].
    + assert (NoDup (out ++ [token])) as Hnd'.
      { apply NoDup_app. split_and!; [done| |apply NoDup_singleton].
        intros k Hk ->%list_elem_of_singleton. by apply Hseen, Hsub. }
      assert (∀ k, k ∈ out ++ [token] → k ∈ out ∨ k ∈ token :: rest) as Hin.
      { intros k [?| ->%list_elem_of_singleton]%elem_of_app; [by left|right; left]. }
      case_bool_decide as Hfull.
      * split_and!; [done|rewrite length_app; simpl; lia|done].
      * destruct (IH (out ++ [token]) (token :: seen) Hnd') as (H1 & H2 & H3).
        { intros k [?| ->%list_elem_of_singleton]%elem_of_app; [right; by apply Hsub|left]. }
        { lia. }
        split_and!; [done|done|].
        intros k Hk. destruct (H3 k Hk) as [Hk'|Hk']; [by apply Hin|right; by right].
Qed.

Lemma splitKeywords_spec (text : jsstring) :
  splitKeywords text ≠ [] ∧
  (length (splitKeywords text) ≤ 5)%nat ∧
  NoDup (splitKeywords text) ∧
  ∀ k, k ∈ splitKeywords text → keywordToken k ∧ k ∉ stopWords.
Proof.
  unfold splitKeywords.
  set (tokens := filter _ _).
  assert (Forall (λ k, keywordToken k ∧ k ∉ stopWords) tokens) as Htokens.
  { apply Forall_forall. intros k [Hstop Hk]%list_elem_of_filter. split; [|done].
    pose proof (keywordRuns_tokens [] (toLowerCase text) ltac:(constructor)) as Hall.
    rewrite Forall_forall in Hall. by apply Hall. }
  destruct (keywordLoop_spec tokens [] [] ltac:(constructor) ltac:(done) ltac:(simpl; lia))
    as (Hnd & Hlen & Hin).
  destruct (keywordLoop tokens [] []) as [|k0 ks] eqn:Eloop.
  - split_and!; [done|simpl; lia|apply NoDup_singleton|].
    intros k ->%list_elem_of_singleton. split.
    + split; [simpl; lia|]. by repeat constructor.
    + intros Hstop. vm_compute in Hstop.
      repeat (apply elem_of_cons in Hstop as [[=]|Hstop]). by apply elem_of_nil in Hstop.
  - split_and!; [done|done|done|].
    intros k Hk. destruct (Hin k Hk) as [[]%elem_of_nil|Hk'].
    rewrite Forall_forall in Htokens. by apply Htokens.
Qed.

(** X10. [splitKeywords] never returns an empty list. It returns at most
    five keywords, no keyword twice; every keyword is a run of three or
    more lower-case letters and digits and is no stop word. *)
Theorem splitKeywords_shape (text : jsstring) :
  splitKeywords text ≠ [] ∧
  (length (splitKeywords text) ≤ 5)%nat ∧
  NoDup (splitKeywords text) ∧
  ∀ k, k ∈ splitKeywords text → keywordToken k ∧ k ∉ stopWords.
Proof. apply splitKeywords_spec. Qed.

Lemma keywordToken_solid k : keywordToken k → solid k.
Proof.
  intros [Hlen Hall]. destruct k as [|c t]; [simpl in Hlen; lia|].
  apply Forall_cons in Hall as [Hc _]. exists c, t. split; [done|].
  by apply keywordChar_not_space.
Qed.

Lemma splitKeywords_solid text : Forall solid (splitKeywords text).
Proof.
  apply Forall_forall. intros k Hk.
  destruct (splitKeywords_spec text) as (_ & _ & _ & Hall).
  destruct (Hall k Hk) as [Htoken _]. by apply keywordToken_solid.
Qed.

Lemma safeString_cases v :
  safeString v [] = [] ∨ solid (safeString v []).
Proof.
  unfold safeString. destruct (trim (safeText v)) as [|c t] eqn:E; [by left|].
  right. rewrite <- E. apply trim_nonempty_solid. by rewrite E.
Qed.

Lemma chosen_keys_sound v text :
  let keys' := toStringArray v in
  let ks := match keys' with [] => splitKeywords text | _ => keys' end in
  ks ≠ [] ∧ Forall solid ks.
Proof.
  cbv zeta. destruct (toStringArray v) as [|k ks] eqn:E.
  - split; [apply splitKeywords_spec|apply splitKeywords_solid].
  - split; [done|]. apply Forall_forall. intros k' Hk'. apply (toStringArray_solid v).
    by rewrite E.
Qed.

Lemma sanitizeRow_sound raw c : sanitizeRow raw = Some c → sound c.
Proof.
  unfold sanitizeRow. destruct (asRecord raw) as [row|]; [|done]. simpl.
  destruct (safeString_cases (getField row (lit "content"))) as [->|Hsolid]; [done|].
  destruct (safeString _ _) as [|c0 t0] eqn:Ec; [done|]. intros [= <-].
  split; simpl; [by eexists|].
  eexists. split; [done|]. apply chosen_keys_sound.
Qed.

Lemma toMemoryCandidate_sound count row c : toMemoryCandidate count row = Some c → sound c.
Proof.
  unfold toMemoryCandidate.
  destruct (safeString_cases (getField row (lit "content"))) as [->|Hsolid]; [done|].
  destruct (safeString _ _) as [|c0 t0] eqn:Ec; [done|]. intros [= <-].
  split; simpl; [by eexists|].
  eexists. split; [done|]. apply chosen_keys_sound.
Qed.

Lemma sound_not_skipped c : sound c → ¬ skipped c.
Proof.
  intros [(text & Hc & Htext) (ks & Hk & Hne & Hks)] [Hblank|Hnokey].
  - rewrite Hc in Hblank. by apply (safeString_solid _ Htext).
  - rewrite Hk in Hnokey. by apply (toStringArray_strings ks).
Qed.

Lemma toMemoryCandidates_sound rows : Forall sound (toMemoryCandidates rows).
Proof.
  unfold toMemoryCandidates.
  assert (∀ out, Forall sound out →
            Forall sound (foldl (λ out row,
                                   out ++ option_list (toMemoryCandidate (length out) row))
                                out rows)) as H; [|apply H; constructor].
  induction rows as [|row rows IH]; intros out Hout; simpl; [done|].
  apply IH. apply Forall_app. split; [done|].
  destruct (toMemoryCandidate _ _) as [c|] eqn:Ec; [|constructor].
  constructor; [|constructor]. by eapply toMemoryCandidate_sound.
Qed.

Lemma compactStep_length out x :
  (length out ≤ length (compactStep out x) ≤ S (length out))%nat ∧
  (¬ skipped x → compactStep out x ≠ []).
Proof.
  unfold compactStep, skipped.
  destruct (bool_decide (safeString (content x) [] = [])) eqn:Ec; simpl.
  { apply bool_decide_eq_true in Ec. split; [lia|]. intros H. destruct H. by left. }
  destruct (bool_decide (length (toStringArray (keys x)) = 0%nat)) eqn:Ek; simpl.
  { apply bool_decide_eq_true, nil_length_inv in Ek. split; [lia|].
    intros H. destruct H. by right. }
  destruct (mergeFirst _ _ _ _ out) as [out'|] eqn:Em.
  - assert (length out' = length out ∧ out' ≠ []) as [-> ?]; [|split; [lia|done]].
    clear Ec Ek. revert out' Em. induction out as [|item rest IH]; intros out'; simpl; [done|].
    case_bool_decide; [by intros [= <-]|].
    destruct (mergeFirst _ _ _ _ rest) as [r|]; simpl; [|done].
    intros [= <-]. simpl. split; [|done]. f_equal. by apply (IH r).
  - rewrite length_app. simpl. split; [lia|]. intros _. by destruct out.
Qed.

Lemma compactMemories_from_length xs out :
  (length out ≤ length (foldl compactStep out xs) ≤ length out + length xs)%nat.
Proof.
  revert out. induction xs as [|x xs IH]; intros out; simpl; [lia|].
  pose proof (IH (compactStep out x)). pose proof (proj1 (compactStep_length out x)). lia.
Qed.

Lemma compactMemories_nil_iff xs : compactMemories xs = [] ↔ Forall skipped xs.
Proof.
  unfold compactMemories. split.
  - assert (∀ out, foldl compactStep out xs = [] → out = [] ∧ Forall skipped xs) as H;
      [|intros E; by destruct (H [] E)].
    induction xs as [|x xs IH]; intros out; simpl; [done|].
    intros E. destruct (IH _ E) as [Hstep Hall].
    assert (out = []) as ->.
    { pose proof (proj1 (compactStep_length out x)) as Hlen. rewrite Hstep in Hlen.
      destruct out; [done|simpl in Hlen; lia]. }
    split; [done|]. constructor; [|done].
    destruct (decide (safeString (content x) [] = [])) as [?|Hc]; [by left|].
    destruct (decide (toStringArray (keys x) = [])) as [?|Hk]; [by right|].
    destruct (proj2 (compactStep_length [] x)); [|done]. by intros [?|?].
  - intros Hall. induction Hall as [|x xs Hx _ IH]; simpl; [done|].
    by rewrite compactStep_skipped.
Qed.

(** X11. No row that [toMemoryCandidates] or
    [sanitizeMemoryCandidateRows] returns is skipped by [compactMemories]:
    each has content and a key that pass the guard of its loop. So the
    compaction of such rows is empty only when there is no row. *)
Theorem extracted_rows_pass_compaction :
  (∀ rows, Forall (λ c, ¬ skipped c) (toMemoryCandidates rows)) ∧
  (∀ rows, Forall (λ c, ¬ skipped c) (sanitizeMemoryCandidateRows rows)) ∧
  (∀ rows, compactMemories (toMemoryCandidates rows) = [] ↔ toMemoryCandidates rows = []) ∧
  (∀ rows, compactMemories (sanitizeMemoryCandidateRows rows) = []
           ↔ sanitizeMemoryCandidateRows rows = []).
Proof.
  assert (∀ rows, Forall sound (sanitizeMemoryCandidateRows rows)) as Hsan.
  { intros [| | | | |items|]; try constructor. simpl.
    apply Forall_forall. intros c (raw & _ & Hc)%list_elem_of_omap.
    by eapply sanitizeRow_sound. }
  assert (∀ xs, Forall sound xs → (compactMemories xs = [] ↔ xs = [])) as Hnil.
  { intros xs Hxs. rewrite compactMemories_nil_iff. split; [|by intros ->].
    destruct xs as [|x xs]; [done|]. intros [Hx _]%Forall_cons.
    apply Forall_cons in Hxs as [Hsound _]. by destruct (sound_not_skipped x). }
  split_and!.
  - intros rows. eapply Forall_impl; [apply toMemoryCandidates_sound|apply sound_not_skipped].
  - intros rows. eapply Forall_impl; [apply Hsan|apply sound_not_skipped].
  - intros rows. apply Hnil, toMemoryCandidates_sound.
  - intros rows. apply Hnil, Hsan.
Qed.

(** X12. [compactMemories] returns at most as many entries as it is
    given candidates, and it returns none exactly when every candidate is
    skipped for its empty content or its missing keys. *)
Theorem compactMemories_empty_iff_all_blank xs :
  (length (compactMemories xs) ≤ length xs)%nat ∧
  (compactMemories xs = [] ↔ Forall skipped xs).
Proof.
  split; [|apply compactMemories_nil_iff].
  pose proof (compactMemories_from_length xs []) as H. simpl in H. apply H.
Qed.

End MemoryRows.

(* ===================================================================== *)
(** ** Resume: the calls that a reloaded checkpoint saves *)
(* ===================================================================== *)

Module ResumeFacts.
Import Js Compaction Resume.

(** [resumedPersonaCalls] and [resumedMemoryCalls] of [runGenerationLlm]. *)
Definition resumedPersonaCalls (appendMemories : bool) (checkpoint : GenerationResumeCheckpoint)
    (chunksForPersona : list Packets.ConversationChunk) : nat :=
  if appendMemories then 0%nat
  else length (filter (λ chunk,
                         is_Some (personaObservationByConversation checkpoint
                                    !! Packets.chunkConversationId chunk))
                      chunksForPersona).

Definition resumedMemoryCalls (checkpoint : GenerationResumeCheckpoint)
    (chunksForMemory : list Packets.ConversationChunk) : nat :=
  length (filter (λ chunk,
                    Packets.sourceFile chunk ∈ processedMemoryFileSet checkpoint chunksForMemory)
                 chunksForMemory).

(** [personaObservationCalls] and [memoryExtractionCalls]: the planned calls
    of the two stages. *)
Definition personaObservationCalls (appendMemories : bool)
    (chunksForPersona : list Packets.ConversationChunk) : nat :=
  if appendMemories then 0%nat else length chunksForPersona.

Definition memoryExtractionCalls (chunksForMemory : list Packets.ConversationChunk) : nat :=
  length chunksForMemory.

(** *** Facts *)

Lemma filter_partition_length {A} (P Q : A → Prop) `{∀ x, Decision (P x)} `{∀ x, Decision (Q x)}
    (l : list A) :
  (∀ x, P x ↔ ¬ Q x) →
  (length (filter P l) + length (filter Q l) = length l)%nat.
Proof.
  intros HPQ. induction l as [|x l IH]; [done|].
  destruct (decide (Q x)) as [HQ|HQ].
  - rewrite (filter_cons_False P) by (by rewrite HPQ; intros ?).
    rewrite (filter_cons_True Q) by done. simpl. lia.
  - rewrite (filter_cons_True P) by (by rewrite HPQ).
    rewrite (filter_cons_False Q) by done. simpl. lia.
Qed.

(** X13. Every planned call of the two stages is either resumed or
    pending: [resumedPersonaCalls] and the number of pending persona chunks
    add up to [personaObservationCalls], and [resumedMemoryCalls] and the
    number of pending memory chunks add up to [memoryExtractionCalls]. *)
Theorem resumed_and_pending_calls appendMemories checkpoint chunksForPersona chunksForMemory :
  (resumedPersonaCalls appendMemories checkpoint chunksForPersona
   + length (personaChunksPending appendMemories checkpoint chunksForPersona)
   = personaObservationCalls appendMemories chunksForPersona)%nat ∧
  (resumedMemoryCalls checkpoint chunksForMemory
   + length (memoryChunksPending checkpoint chunksForMemory)
   = memoryExtractionCalls chunksForMemory)%nat.
Proof.
  unfold resumedPersonaCalls, personaChunksPending, personaObservationCalls,
    resumedMemoryCalls, memoryChunksPending, memoryExtractionCalls. split.
  - destruct appendMemories; [done|]. apply filter_partition_length.
    intros chunk. rewrite <- not_eq_None_Some. done.
  - apply filter_partition_length. intros chunk. split; [by intros ? ?|].
    intros Hnn. by apply dec_stable.
Qed.

(** X14. A checkpoint file that carries the signature of the run and
    lists a source file in [processedMemoryFiles] makes the run skip the
    chunk of that file, when the file name is not empty and has no white
    space at its ends (a name is trimmed when the file is read back). *)
Theorem processed_file_skipped_after_reload now root sig files chunks chunk :
  safeString (getField root (lit "signature")) [] = sig →
  getField root (lit "processedMemoryFiles") = JArr (JStr <$> files) →
  chunk ∈ chunks →
  Packets.sourceFile chunk ∈ files →
  trim (Packets.sourceFile chunk) = Packets.sourceFile chunk →
  Packets.sourceFile chunk ≠ [] →
  chunk ∉ memoryChunksPending (loadCheckpoint now false (Some (JObj root)) sig) chunks.
Proof.
  intros Hsig Hfiles Hchunk Hfile Htrim Hne.
  unfold memoryChunksPending. rewrite list_elem_of_filter. intros [Hout _]. apply Hout.
  apply elem_of_processedMemoryFileSet. split.
  - unfold validMemorySourceFiles. rewrite elem_of_list_to_set.
    apply list_elem_of_fmap. by exists chunk.
  - left. unfold loadCheckpoint, readResumeCheckpoint, normalizeResumeCheckpoint. simpl.
    rewrite Hsig. rewrite bool_decide_eq_false_2 by (by intros ?). simpl.
    unfold rawProcessedOf. rewrite Hfiles. simpl.
    apply list_elem_of_filter. split; [done|].
    apply list_elem_of_fmap. exists (Packets.sourceFile chunk). split; [done|].
    clear -Hfile. induction files as [|f files IH]; [by apply elem_of_nil in Hfile|].
    simpl. apply elem_of_cons in Hfile as [->|Hfile]; [left|right; by apply IH].
Qed.

Lemma processed_file_skipped_after_reload_witness :
  lit "a.jsonl" ∈ [lit "a.jsonl"] ∧
  chunkOf "a" "a.jsonl"
    ∉ memoryChunksPending (loadCheckpoint (lit "now") false (Some (JObj storedOld)) (lit "old"))
        [chunkOf "a" "a.jsonl"].
Proof.
  split; [left|].
  apply (processed_file_skipped_after_reload (lit "now") storedOld (lit "old")
           [lit "a.jsonl"] [chunkOf "a" "a.jsonl"] (chunkOf "a" "a.jsonl")).
  - vm_compute. reflexivity.
  - reflexivity.
  - left.
  - left.
  - vm_compute. reflexivity.
  - discriminate.
Defined.

End ResumeFacts.

(* ===================================================================== *)
(** ** Lorebook shaping: [compactMemoryCandidates] *)
(* ===================================================================== *)

Module Shaping.
Import Js Compaction TextFacts PacketFacts.

(** [safeMultiline]: [normalizeNewlines] of a string, with every NUL
    removed once more; the empty string for anything else. *)
Definition safeMultiline (value : jsval) : jsstring :=
  match value with
  | JStr s => filter (λ c, c ≠ 0) (Packets.normalizeNewlines s)
  | _ => []
  end.

(** [text.replace(/\n+/g, " ")]; [inRun] records that the previous code unit
    was a line feed. *)
Fixpoint joinLines (inRun : bool) (s : jsstring) : jsstring :=
  match s with
  | [] => []
  | c :: t =>
      if c =? 10
      then (if inRun then joinLines true t else 32 :: joinLines true t)
      else c :: joinLines false t
  end.

Definition safeSingleLine (value : jsval) : jsstring :=
  trim (joinLines false (safeMultiline value)).

(** A truthy value. *)
Definition truthy (v : jsval) : bool :=
  match v with
  | JUndefined | JNull | JBool false | JNum NaN | JNum (Finite 0) | JStr [] => false
  | _ => true
  end.

Record LorebookEntry := mkEntry {
  entryName : jsstring;
  entryKeys : list jsstring;
  entryContent : jsstring;
  entryCategory : jsstring;
  entryPriority : Z;
  entrySourceConversation : jsval;
  entrySourceDate : jsval;
}.

Section Platform.

(** [String.prototype.toLowerCase] and [Number.parseInt(text, 10)], of the
    platform. *)
Variable toLowerCase : jsstring → jsstring.
Variable parseInt : jsstring → jsnum.

(** The loop of [normalizeKeys] over the items of the array. *)
Fixpoint normalizeLoop (items : list jsval) (seen : list jsstring) : list jsstring :=
  match items with
  | [] => []
  | JStr s :: rest =>
      let key := safeSingleLine (JStr s) in
      if bool_decide (length key = 0%nat) then normalizeLoop rest seen
      else
        let normalized := toLowerCase key in
        if bool_decide (normalized ∈ seen) then normalizeLoop rest seen
        else key :: normalizeLoop rest (normalized :: seen)
  | _ :: rest => normalizeLoop rest seen
  end.

Definition normalizeKeys (value : jsval) : list jsstring :=
  match value with
  | JArr items => normalizeLoop items []
  | _ => []
  end.

(** [normalizeForDedup]. *)
Definition normalizeForDedup (value : jsstring) : jsstring :=
  trim (collapseWhiteSpace false (toLowerCase value)).

(** [toPriority]; [Math.trunc] changes no integer. *)
Definition toPriority (value : jsval) : Z :=
  match value with
  | JNum (Finite z) => z
  | JStr s =>
      match trim s with
      | [] => 0%Z
      | _ => match parseInt s with Finite z => z | NaN => 0%Z end
      end
  | _ => 0%Z
  end.

Definition signatureOfEntry (content : jsstring) (keys : list jsstring) : jsstring :=
  normalizeForDedup content ++ lit "|" ++ join (lit "|") keys.

(** The body of [if (existing)]. *)
Definition mergeEntry (existing : LorebookEntry) (candidate : MemoryCandidate)
    (content' : jsstring) (keys' : list jsstring) (priority' : Z) : LorebookEntry :=
  {| entryName := entryName existing;
     entryKeys := normalizeKeys (strings (entryKeys existing ++ keys'));
     entryContent :=
       if bool_decide (length (entryContent existing) < length content')%nat
       then content' else entryContent existing;
     entryCategory := entryCategory existing;
     entryPriority := Z.max (entryPriority existing) priority';
     entrySourceConversation :=
       if negb (truthy (entrySourceConversation existing))
          && truthy (sourceConversation candidate)
       then sourceConversation candidate else entrySourceConversation existing;
     entrySourceDate :=
       if negb (truthy (entrySourceDate existing)) && truthy (sourceDate candidate)
       then sourceDate candidate else entrySourceDate existing |}.

(** [out.find(...)] and the update of the entry found. *)
Fixpoint mergeFound (signature : jsstring) (candidate : MemoryCandidate)
    (content' : jsstring) (keys' : list jsstring) (priority' : Z) (out : list LorebookEntry)
    : option (list LorebookEntry) :=
  match out with
  | [] => None
  | entry :: rest =>
      if bool_decide (signatureOfEntry (entryContent entry)
                        (normalizeKeys (strings (entryKeys entry))) = signature)
      then Some (mergeEntry entry candidate content' keys' priority' :: rest)
      else cons entry <$> mergeFound signature candidate content' keys' priority' rest
  end.

(** The entry that a candidate without a twin becomes. *)
Definition newEntry (candidate : MemoryCandidate) (content' : jsstring)
    (keys' : list jsstring) (priority' : Z) : LorebookEntry :=
  {| entryName := match safeSingleLine (name candidate) with
                  | [] => lit "Memory"
                  | text => text
                  end;
     entryKeys := keys';
     entryContent := content';
     entryCategory := match safeSingleLine (category candidate) with
                      | [] => lit "shared_memory"
                      | text => text
                      end;
     entryPriority := priority';
     entrySourceConversation :=
       if truthy (sourceConversation candidate) then sourceConversation candidate
       else JUndefined;
     entrySourceDate :=
       if truthy (sourceDate candidate) then sourceDate candidate else JUndefined |}.

(** The loop of [compactMemoryCandidates]; it stops when [out] has
    [maxEntries] entries. *)
Fixpoint compactLoop (maxEntries : Z) (candidates : list MemoryCandidate)
    (out : list LorebookEntry) : list LorebookEntry :=
  match candidates with
  | [] => out
  | candidate :: rest =>
      let content' := trim (safeMultiline (content candidate)) in
      let keys' := normalizeKeys (keys candidate) in
      if bool_decide (length content' = 0%nat) || bool_decide (length keys' = 0%nat)
      then compactLoop maxEntries rest out
      else
        let priority' := toPriority (priority candidate) in
        let signature := signatureOfEntry content' keys' in
        match mergeFound signature candidate content' keys' priority' out with
        | Some out' => compactLoop maxEntries rest out'
        | None =>
            let out' := out ++ [newEntry candidate content' keys' priority'] in
            if (0 <? maxEntries)%Z && (maxEntries <=? Z.of_nat (length out'))%Z then out'
            else compactLoop maxEntries rest out'
        end
  end.

Definition compactMemoryCandidates (candidates : list MemoryCandidate) (maxEntries : Z)
    : list LorebookEntry :=
  compactLoop maxEntries candidates [].

(** A key as [normalizeKeys] keeps it: not empty, on one line, trimmed. *)
Definition singleLine (k : jsstring) : Prop :=
  k ≠ [] ∧ (10 ∉ k) ∧ (13 ∉ k) ∧ (0 ∉ k) ∧ trim k = k.

(** What every entry of the result has: content, and at least one key, no
    two of which differ by case only. *)
Definition goodEntry (e : LorebookEntry) : Prop :=
  entryContent e ≠ [] ∧ entryKeys e ≠ [] ∧
  Forall singleLine (entryKeys e) ∧ NoDup (toLowerCase <$> entryKeys e).

(** *** Facts *)

Lemma elem_of_joinLines inRun (s : jsstring) c :
  c ∈ joinLines inRun s → c ≠ 10 ∧ (c = 32 ∨ c ∈ s).
Proof.
  revert inRun. induction s as [|d s IH]; intros inRun; simpl; [by intros ?%elem_of_nil|].
  destruct (N.eqb_spec d 10) as [->|Hd].
  - destruct inRun.
    + intros [? [?|?]]%IH; split; [done|by left|done|right; by right].
    + intros [->|[? [?|?]]%IH]%elem_of_cons;
        (split; [done|]); [by left|by left|right; by right].
  - intros [->|[? [?|?]]%IH]%elem_of_cons;
      (split; [done|]); [right; left|by left|right; by right].
Qed.

Lemma joinLines_clean inRun (s : jsstring) : 10 ∉ s → joinLines inRun s = s.
Proof.
  revert inRun. induction s as [|d s IH]; intros inRun Hno; simpl; [done|].
  destruct (N.eqb_spec d 10) as [->|Hd]; [destruct Hno; left|].
  f_equal. apply IH. intros ?. apply Hno. by right.
Qed.

Lemma safeMultiline_no_cr_nul v : (13 ∉ safeMultiline v) ∧ (0 ∉ safeMultiline v).
Proof.
  destruct v; simpl; try (split; by intros ?%elem_of_nil).
  destruct (normalizeNewlines_no_cr_nul s) as [Hcr Hnul].
  split; by intros [_ ?]%list_elem_of_filter.
Qed.

Lemma safeSingleLine_singleLine v :
  safeSingleLine v ≠ [] → singleLine (safeSingleLine v).
Proof.
  intros Hne. unfold singleLine, safeSingleLine in *.
  destruct (safeMultiline_no_cr_nul v) as [Hcr Hnul].
  assert (∀ c, c ∈ trim (joinLines false (safeMultiline v)) →
               c ≠ 10 ∧ (c = 32 ∨ c ∈ safeMultiline v)) as Hin
    by (intros c Hc; by apply (elem_of_joinLines false), elem_of_trim).
  split_and!; [done| | | |apply trim_idem].
  - intros Hc. by destruct (Hin _ Hc).
  - intros Hc. destruct (Hin _ Hc) as [_ [?|?]]; done.
  - intros Hc. destruct (Hin _ Hc) as [_ [?|?]]; done.
Qed.

Lemma singleLine_fixed k : singleLine k → safeSingleLine (JStr k) = k.
Proof.
  intros (_ & Hlf & Hcr & Hnul & Htrim). unfold safeSingleLine, safeMultiline.
  rewrite normalizeNewlines_clean by done.
  rewrite (filter_keeps_all _ k) by (intros c Hc ->; done).
  by rewrite joinLines_clean.
Qed.

Lemma normalizeLoop_spec items seen :
  Forall singleLine (normalizeLoop items seen) ∧
  NoDup (toLowerCase <$> normalizeLoop items seen) ∧
  (∀ k, k ∈ normalizeLoop items seen → toLowerCase k ∉ seen).
Proof.
  revert seen. induction items as [|item items IH]; intros seen; simpl.
  - split_and!; [constructor|constructor|by intros ? ?%elem_of_nil].
  - destruct item; try apply IH.
    case_bool_decide as Hempty; [apply IH|].
    case_bool_decide as Hseen; [apply IH|].
    destruct (IH (toLowerCase (safeSingleLine (JStr s)) :: seen)) as (H1 & H2 & H3).
    split_and!.
    + constructor; [|done]. apply safeSingleLine_singleLine.
      intros E. by rewrite E in Hempty.
    + rewrite fmap_cons. constructor; [|done].
      intros (k & Hk & Hin)%list_elem_of_fmap. apply (H3 k Hin). rewrite <- Hk. left.
    + intros k [->|Hk]%elem_of_cons; [done|].
      intros Hin. apply (H3 k Hk). by right.
Qed.

Lemma normalizeLoop_fixed ks seen :
  Forall singleLine ks → NoDup (toLowerCase <$> ks) →
  (∀ k, k ∈ ks → toLowerCase k ∉ seen) →
  normalizeLoop (JStr <$> ks) seen = ks.
Proof.
  revert seen. induction ks as [|k ks IH]; intros seen Hall Hnd Hseen; [done|].
  apply Forall_cons in Hall as [Hk Hall]. rewrite fmap_cons in Hnd.
  apply NoDup_cons in Hnd as [Hfresh Hnd].
  rewrite fmap_cons. cbn [normalizeLoop]. rewrite (singleLine_fixed k Hk).
  rewrite bool_decide_eq_false_2
    by (destruct Hk as [Hne _]; intros ?%nil_length_inv; done).
  rewrite bool_decide_eq_false_2 by (apply Hseen; left).
  f_equal. apply IH; [done|done|].
  intros k' Hk' [E|Hin]%elem_of_cons.
  - apply Hfresh. rewrite <- E. apply list_elem_of_fmap. by exists k'.
  - apply (Hseen k'); [by right|done].
Qed.

Lemma normalizeLoop_head k ks seen :
  singleLine k → toLowerCase k ∉ seen →
  normalizeLoop (JStr <$> (k :: ks)) seen ≠ [].
Proof.
  intros Hk Hseen. rewrite fmap_cons. cbn [normalizeLoop]. rewrite (singleLine_fixed k Hk).
  rewrite bool_decide_eq_false_2
    by (destruct Hk as [Hne _]; intros ?%nil_length_inv; done).
  by rewrite bool_decide_eq_false_2.
Qed.

(** X15. Every key that [normalizeKeys] returns is not empty, holds no
    line feed, carriage return or NUL, and has no white space at its ends;
    no two of the keys are equal after lower-casing; and [normalizeKeys]
    returns its own result unchanged. *)
Theorem normalizeKeys_normal (value : jsval) :
  Forall singleLine (normalizeKeys value) ∧
  NoDup (toLowerCase <$> normalizeKeys value) ∧
  normalizeKeys (strings (normalizeKeys value)) = normalizeKeys value.
Proof.
  assert (Forall singleLine (normalizeKeys value) ∧
          NoDup (toLowerCase <$> normalizeKeys value)) as [Hall Hnd].
  { destruct value; try (split; constructor). simpl.
    by destruct (normalizeLoop_spec items []) as (? & ? & _). }
  split_and!; [done|done|].
  unfold normalizeKeys at 1, strings. apply normalizeLoop_fixed; [done|done|].
  by intros ? ? ?%elem_of_nil.
Qed.

Lemma normalizeKeys_spec value :
  Forall singleLine (normalizeKeys value) ∧ NoDup (toLowerCase <$> normalizeKeys value).
Proof.
  destruct value; try (split; constructor). simpl.
  by destruct (normalizeLoop_spec items []) as (? & ? & _).
Qed.

Lemma mergeEntry_good existing candidate content' keys' priority' :
  goodEntry existing → content' ≠ [] →
  goodEntry (mergeEntry existing candidate content' keys' priority').
Proof.
  intros (Hc & Hk & Hall & Hnd) Hne. unfold goodEntry, mergeEntry. simpl.
  destruct (normalizeKeys_spec (strings (entryKeys existing ++ keys'))) as [H1 H2].
  split_and!; [by case_bool_decide| |done|done].
  destruct (entryKeys existing) as [|k ks]; [done|].
  apply Forall_cons in Hall as [Hk0 _].
  unfold normalizeKeys, strings. apply (normalizeLoop_head k (ks ++ keys') []); [done|].
  by intros ?%elem_of_nil.
Qed.

Lemma mergeFound_good signature candidate content' keys' priority' out out' :
  Forall goodEntry out → content' ≠ [] →
  mergeFound signature candidate content' keys' priority' out = Some out' →
  Forall goodEntry out' ∧ length out' = length out.
Proof.
  intros Hall Hne. revert out'.
  induction Hall as [|entry rest Hentry Hrest IH]; intros out'; simpl; [done|].
  case_bool_decide.
  - intros [= <-]. split; [|done]. constructor; [by apply mergeEntry_good|done].
  - destruct (mergeFound _ _ _ _ _ rest) as [r|]; simpl; [|done].
    intros [= <-]. destruct (IH r eq_refl) as [? ?]. split; [by constructor|simpl; lia].
Qed.

Lemma compactLoop_spec maxEntries candidates out :
  Forall goodEntry out →
  (0 < maxEntries → Z.of_nat (length out) < maxEntries)%Z →
  Forall goodEntry (compactLoop maxEntries candidates out) ∧
  (0 < maxEntries → Z.of_nat (length (compactLoop maxEntries candidates out)) ≤ maxEntries)%Z ∧
  (length out ≤ length (compactLoop maxEntries candidates out)
   ≤ length out + length candidates)%nat.
Proof.
  revert out. induction candidates as [|candidate rest IH]; intros out Hall Hroom; simpl.
  - split_and!; [done|lia|lia|lia].
  - set (content' := trim (safeMultiline (content candidate))).
    set (keys' := normalizeKeys (keys candidate)).
    destruct (bool_decide (length content' = 0%nat) || bool_decide (length keys' = 0%nat))
      eqn:Eskip.
    { destruct (IH out Hall Hroom) as (? & ? & ?). split_and!; [done|done|lia|lia]. }
    apply orb_false_iff in Eskip as [Ec%bool_decide_eq_false Ek%bool_decide_eq_false].
    assert (content' ≠ []) as Hc by (intros E; by rewrite E in Ec).
    assert (keys' ≠ []) as Hk by (intros E; by rewrite E in Ek).
    destruct (mergeFound _ _ _ _ _ out) as [out'|] eqn:Efound.
    + destruct (mergeFound_good _ _ _ _ _ _ _ Hall Hc Efound) as [Hall' Hlen].
      destruct (IH out' Hall') as (? & ? & ?); [by rewrite Hlen|].
      rewrite Hlen in *. split_and!; [done|done|lia|lia].
    + assert (Forall goodEntry
                (out ++ [newEntry candidate content' keys' (toPriority (priority candidate))]))
        as Hall'.
      { apply Forall_app. split; [done|]. constructor; [|constructor].
        destruct (normalizeKeys_spec (keys candidate)). by split_and!. }
      destruct ((0 <? maxEntries)%Z && _) eqn:Efull.
      * rewrite length_app. simpl. split_and!; [done| |lia|lia].
        intros Hpos. specialize (Hroom Hpos). lia.
      * destruct (IH _ Hall') as (? & ? & Hlen).
        { intros Hpos. apply andb_false_iff in Efull as [E|E]; [lia|].
          apply Z.leb_gt in E. done. }
        rewrite length_app in Hlen. simpl in Hlen.
        split_and!; [done|done|lia|lia].
Qed.

(** X16. Every entry that [compactMemoryCandidates] returns has content
    and at least one key, its keys are normalized, and no two of them
    differ by case only. Under a positive [maxEntries] there are at most
    [maxEntries] entries, and never more entries than candidates. *)
Theorem compactMemoryCandidates_entries candidates maxEntries :
  Forall goodEntry (compactMemoryCandidates candidates maxEntries) ∧
  (0 < maxEntries →
   Z.of_nat (length (compactMemoryCandidates candidates maxEntries)) ≤ maxEntries)%Z ∧
  (length (compactMemoryCandidates candidates maxEntries) ≤ length candidates)%nat.
Proof.
  unfold compactMemoryCandidates.
  destruct (compactLoop_spec maxEntries candidates []) as (H1 & H2 & H3);
    [constructor|simpl; lia|].
  split_and!; [done|done|]. simpl in H3. lia.
Qed.

End Platform.
End Shaping.

(* ===================================================================== *)
(** ** The card inside a PNG image *)
(* ===================================================================== *)

Module Png.
Local Open Scope Z_scope.

(** A [Buffer] is a list of bytes. *)
Definition size (b : list N) : Z := Z.of_nat (length b).

(** [buffer.subarray(start, end)], for [0 <= start]. *)
Definition subarray (b : list N) (start finish : Z) : list N :=
  take (Z.to_nat (finish - start)) (drop (Z.to_nat start) b).

(** [bytes[index] ?? 0]. *)
Definition byteAt (b : list N) (index : Z) : N := nth (Z.to_nat index) b 0%N.

(** [buffer.readUInt32BE(offset)], where the four bytes are inside the
    buffer (the loops read at [offset] only when [offset + 8 <= length]). *)
Definition readUInt32BE (b : list N) (offset : Z) : Z :=
  Z.of_N (byteAt b offset * 2 ^ 24 + byteAt b (offset + 1) * 2 ^ 16
          + byteAt b (offset + 2) * 2 ^ 8 + byteAt b (offset + 3)).

(** [buffer.toString("ascii")]: the high bit of every byte is dropped. *)
Definition toAscii (b : list N) : list N := (λ x, N.land x 127) <$> b.

Definition PNG_SIGNATURE : list N := [137; 80; 78; 71; 13; 10; 26; 10]%N.

(** The chunk types "tEXt", "zTXt" and "IEND". *)
Definition tEXt : list N := [116; 69; 88; 116]%N.
Definition zTXt : list N := [122; 84; 88; 116]%N.
Definition IEND : list N := [73; 69; 78; 68]%N.

Inductive PngError :=
| InvalidPng
| TruncatedChunk
| MissingIend
| OutOfRange.

Definition isPngBuffer (buffer : list N) : bool :=
  (size PNG_SIGNATURE <=? size buffer)
  && bool_decide (subarray buffer 0 (size PNG_SIGNATURE) = PNG_SIGNATURE).

(** The loop of [stripTextChunks], from [offset] on: the chunks pushed, or
    the error. Every pass moves [offset] on by twelve bytes at least. *)
Equations? stripLoop (pngBuffer : list N) (offset : Z) : PngError + list N
    by wf (Z.to_nat (size pngBuffer - offset)) lt :=
  stripLoop pngBuffer offset with decide (offset + 8 ≤ size pngBuffer) := {
    | right _ => inr []
    | left _ with decide (offset + 4 + 4 + readUInt32BE pngBuffer offset + 4
                          > size pngBuffer) := {
      | left _ => inl TruncatedChunk
      | right _ =>
          let chunkStart := offset in
          let dataLength := readUInt32BE pngBuffer offset in
          let chunkType := toAscii (subarray pngBuffer (offset + 4) (offset + 4 + 4)) in
          let chunkEnd := offset + 4 + 4 + dataLength + 4 in
          let pushed :=
            if negb (bool_decide (chunkType = tEXt)) && negb (bool_decide (chunkType = zTXt))
            then subarray pngBuffer chunkStart chunkEnd else [] in
          if bool_decide (chunkType = IEND) then inr pushed
          else match stripLoop pngBuffer chunkEnd with
               | inl e => inl e
               | inr chunks => inr (pushed ++ chunks)
               end } }.
Proof. unfold size, readUInt32BE in *. lia. Qed.

(** [stripTextChunks]: the signature and the chunks that are not text. *)
Definition stripTextChunks (pngBuffer : list N) : PngError + list N :=
  if negb (isPngBuffer pngBuffer) then inl InvalidPng
  else
    match stripLoop pngBuffer (size PNG_SIGNATURE) with
    | inl e => inl e
    | inr chunks => inr (subarray pngBuffer 0 (size PNG_SIGNATURE) ++ chunks)
    end.

(** The loop of [findIendOffset]. *)
Equations? findLoop (pngBuffer : list N) (offset : Z) : Z
    by wf (Z.to_nat (size pngBuffer - offset)) lt :=
  findLoop pngBuffer offset with decide (offset + 8 ≤ size pngBuffer) := {
    | right _ => -1
    | left _ with decide (offset + 4 + 4 + readUInt32BE pngBuffer offset + 4
                          > size pngBuffer) := {
      | left _ => -1
      | right _ =>
          let chunkStart := offset in
          let dataLength := readUInt32BE pngBuffer offset in
          let chunkType := toAscii (subarray pngBuffer (offset + 4) (offset + 4 + 4)) in
          let chunkEnd := offset + 4 + 4 + dataLength + 4 in
          if bool_decide (chunkType = IEND) then chunkStart
          else findLoop pngBuffer chunkEnd } }.
Proof. unfold size, readUInt32BE in *. lia. Qed.

Definition findIendOffset (pngBuffer : list N) : Z :=
  findLoop pngBuffer (size PNG_SIGNATURE).

(** [CRC32_TABLE]: the entry of [index]. The bit operations of the source
    work on 32-bit patterns, signed or not; here a pattern is the number
    from 0 to 2^32 - 1 that it stands for. *)
Fixpoint tableBits (bit : nat) (value : N) : N :=
  match bit with
  | O => value
  | S bit' =>
      tableBits bit' (if (N.land value 1 =? 1)%N
                      then N.lxor 3988292384 (N.shiftr value 1)
                      else N.shiftr value 1)
  end.

Definition CRC32_TABLE (index : N) : N := tableBits 8 index.

(** The loop of [crc32]. *)
Definition crcStep (value : N) (byte : N) : N :=
  N.lxor (CRC32_TABLE (N.land (N.lxor value byte) 255)) (N.shiftr value 8).

Definition crc32 (bytes : list N) : N :=
  N.lxor (foldl crcStep 4294967295%N bytes) 4294967295.

(** [buffer.writeUInt32BE(value, 0)] on [Buffer.alloc(4)]; a value outside
    32 bits is a [RangeError]. *)
Definition writeUInt32BE (value : Z) : PngError + list N :=
  if (0 <=? value) && (value <? 2 ^ 32)
  then inr [Z.to_N (value / 2 ^ 24); Z.to_N (value / 2 ^ 16 mod 256);
            Z.to_N (value / 2 ^ 8 mod 256); Z.to_N (value mod 256)]
  else inl OutOfRange.

(** [createTextChunk]; [keyword] and [text] are the bytes of the two
    strings ([latin1] and [utf8]). *)
Definition createTextChunk (keyword text : list N) : PngError + list N :=
  let chunkData := keyword ++ [0%N] ++ text in
  let chunkType := tEXt in
  match writeUInt32BE (size chunkData) with
  | inl e => inl e
  | inr lengthBuffer =>
      match writeUInt32BE (Z.of_N (crc32 (chunkType ++ chunkData))) with
      | inl e => inl e
      | inr crcBuffer => inr (lengthBuffer ++ chunkType ++ chunkData ++ crcBuffer)
      end
  end.

(** The keyword "chara". *)
Definition chara : list N := [99; 104; 97; 114; 97]%N.

(** [embedCardInPng]; [encodedCard] is the text that the source computes
    from the card, [Buffer.from(JSON.stringify(cardPayload),
    "utf8").toString("base64")], as bytes. *)
Definition embedCardInPng (pngBuffer : list N) (encodedCard : list N) : PngError + list N :=
  match stripTextChunks pngBuffer with
  | inl e => inl e
  | inr cleanPng =>
      let iendOffset := findIendOffset cleanPng in
      if iendOffset <? 0 then inl MissingIend
      else
        match createTextChunk chara encodedCard with
        | inl e => inl e
        | inr textChunk =>
            inr (subarray cleanPng 0 iendOffset ++ textChunk
                 ++ drop (Z.to_nat iendOffset) cleanPng)
        end
  end.

Definition PLACEHOLDER_PNG : list N :=
  [ 137; 80; 78; 71; 13; 10; 26; 10;
    0; 0; 0; 13; 73; 72; 68; 82;
    0; 0; 0; 1; 0; 0; 0; 1;
    8; 6; 0; 0; 0; 31; 21; 196;
    137; 0; 0; 0; 10; 73; 68; 65;
    84; 120; 156; 99; 0; 1; 0; 0;
    5; 0; 1; 13; 10; 45; 180; 0;
    0; 0; 0; 0; 73; 69; 78; 68;
    174; 66; 96; 130 ]%N.

(** A chunk: its first four bytes hold the length of its data, which eight
    more bytes surround. *)
Definition isChunk (c : list N) : Prop := size c = 4 + 4 + readUInt32BE c 0 + 4.

(** The type of a chunk. *)
Definition typeOf (c : list N) : list N := toAscii (subarray c 4 (4 + 4)).

(** A small image: the signature, a header chunk, a text chunk and the end
    chunk. *)
Definition sampleHeader : list N :=
  [0; 0; 0; 13; 73; 72; 68; 82; 0; 0; 0; 1; 0; 0; 0; 1; 8; 6; 0; 0; 0; 31; 21; 196; 137]%N.
Definition sampleText : list N :=
  [0; 0; 0; 3; 116; 69; 88; 116; 107; 0; 118; 0; 0; 0; 0]%N.
Definition sampleEnd : list N := [0; 0; 0; 0; 73; 69; 78; 68; 174; 66; 96; 130]%N.
Definition samplePng : list N := PNG_SIGNATURE ++ sampleHeader ++ sampleText ++ sampleEnd.

Definition sampleCard : list N := [65; 66; 67; 68]%N.

Definition sampleOut : list N :=
  Eval vm_compute in
    match embedCardInPng samplePng sampleCard with inr out => out | inl _ => [] end.

(** *** Facts *)

Example crc_of_iend : crc32 IEND = 2923585666%N.
Proof. vm_compute. reflexivity. Qed.

Lemma stripLoop_step pngBuffer offset :
  stripLoop pngBuffer offset
  = if decide (offset + 8 ≤ size pngBuffer) then
      if decide (offset + 4 + 4 + readUInt32BE pngBuffer offset + 4 > size pngBuffer)
      then inl TruncatedChunk
      else
        let chunkType := toAscii (subarray pngBuffer (offset + 4) (offset + 4 + 4)) in
        let chunkEnd := offset + 4 + 4 + readUInt32BE pngBuffer offset + 4 in
        let pushed :=
          if negb (bool_decide (chunkType = tEXt)) && negb (bool_decide (chunkType = zTXt))
          then subarray pngBuffer offset chunkEnd else [] in
        if bool_decide (chunkType = IEND) then inr pushed
        else match stripLoop pngBuffer chunkEnd with
             | inl e => inl e
             | inr chunks => inr (pushed ++ chunks)
             end
    else inr [].
Proof.
  funelim (stripLoop pngBuffer offset); rewrite <- ?Heqcall;
    repeat match goal with H : decide _ = _ |- _ => rewrite H; clear H end; done.
Qed.

Lemma findLoop_step pngBuffer offset :
  findLoop pngBuffer offset
  = if decide (offset + 8 ≤ size pngBuffer) then
      if decide (offset + 4 + 4 + readUInt32BE pngBuffer offset + 4 > size pngBuffer)
      then -1
      else
        let chunkType := toAscii (subarray pngBuffer (offset + 4) (offset + 4 + 4)) in
        let chunkEnd := offset + 4 + 4 + readUInt32BE pngBuffer offset + 4 in
        if bool_decide (chunkType = IEND) then offset
        else findLoop pngBuffer chunkEnd
    else -1.
Proof.
  funelim (findLoop pngBuffer offset); rewrite <- ?Heqcall;
    repeat match goal with H : decide _ = _ |- _ => rewrite H; clear H end; done.
Qed.

Lemma size_app a b : size (a ++ b) = size a + size b.
Proof. unfold size. rewrite length_app. lia. Qed.

Lemma size_nonneg b : 0 ≤ size b.
Proof. unfold size. lia. Qed.

Lemma byteAt_shift pre b o : 0 ≤ o → byteAt (pre ++ b) (size pre + o) = byteAt b o.
Proof.
  intros Ho. unfold byteAt, size.
  replace (Z.to_nat (Z.of_nat (length pre) + o)) with (length pre + Z.to_nat o)%nat by lia.
  apply app_nth2_plus.
Qed.

Lemma byteAt_head c rest o : 0 ≤ o < size c → byteAt (c ++ rest) o = byteAt c o.
Proof. intros Ho. unfold byteAt, size in *. apply app_nth1. lia. Qed.

Lemma readUInt32BE_shift pre b o :
  0 ≤ o → readUInt32BE (pre ++ b) (size pre + o) = readUInt32BE b o.
Proof.
  intros Ho. unfold readUInt32BE.
  rewrite <- !Z.add_assoc, !byteAt_shift by lia. done.
Qed.

Lemma readUInt32BE_head c rest : 4 ≤ size c → readUInt32BE (c ++ rest) 0 = readUInt32BE c 0.
Proof. intros Hc. unfold readUInt32BE. rewrite !byteAt_head by lia. done. Qed.

Lemma subarray_shift pre b s e :
  0 ≤ s → subarray (pre ++ b) (size pre + s) (size pre + e) = subarray b s e.
Proof.
  intros Hs. unfold subarray, size.
  replace (Z.to_nat (Z.of_nat (length pre) + s)) with (length pre + Z.to_nat s)%nat by lia.
  rewrite drop_app_add. f_equal. lia.
Qed.

Lemma subarray_head c rest s e :
  0 ≤ s → e ≤ size c → subarray (c ++ rest) s e = subarray c s e.
Proof.
  intros Hs He. unfold subarray, size in *.
  destruct (decide (s ≤ e)) as [Hse|Hse].
  - rewrite drop_app_le by lia. rewrite take_app_le; [done|]. rewrite length_drop. lia.
  - by replace (Z.to_nat (e - s)) with 0%nat by lia.
Qed.

Lemma subarray_all c rest : subarray (c ++ rest) 0 (size c) = c.
Proof.
  unfold subarray, size. simpl. rewrite Z.sub_0_r, Nat2Z.id. apply take_app_length.
Qed.

Lemma readUInt32BE_nonneg b o : 0 ≤ readUInt32BE b o.
Proof. unfold readUInt32BE. lia. Qed.

Lemma stripLoop_shift pre b o :
  0 ≤ o → stripLoop (pre ++ b) (size pre + o) = stripLoop b o.
Proof.
  intros Ho.
  remember (Z.to_nat (size b - o)) as n eqn:Hn.
  revert o Ho Hn. induction n as [n IH] using lt_wf_ind. intros o Ho Hn.
  rewrite (stripLoop_step b o), (stripLoop_step (pre ++ b)).
  rewrite size_app, readUInt32BE_shift by done.
  pose proof (readUInt32BE_nonneg b o) as Hlen.
  destruct (decide (o + 8 ≤ size b)) as [Hroom|Hroom].
  2:{ rewrite decide_False by lia. done. }
  rewrite decide_True by lia.
  destruct (decide (o + 4 + 4 + readUInt32BE b o + 4 > size b)) as [Hcut|Hfit].
  { rewrite decide_True by lia. done. }
  rewrite decide_False by lia. cbv zeta.
  replace (size pre + o + 4 + 4) with (size pre + (o + 4 + 4)) by lia.
  replace (size pre + o + 4) with (size pre + (o + 4)) by lia.
  replace (size pre + (o + 4 + 4) + readUInt32BE b o + 4)
    with (size pre + (o + 4 + 4 + readUInt32BE b o + 4)) by lia.
  rewrite !subarray_shift by lia.
  rewrite (IH (Z.to_nat (size b - (o + 4 + 4 + readUInt32BE b o + 4)))); [done|lia|lia|done].
Qed.

Lemma findLoop_shift pre b o :
  0 ≤ o →
  findLoop (pre ++ b) (size pre + o)
  = if findLoop b o <? 0 then -1 else size pre + findLoop b o.
Proof.
  intros Ho.
  remember (Z.to_nat (size b - o)) as n eqn:Hn.
  revert o Ho Hn. induction n as [n IH] using lt_wf_ind. intros o Ho Hn.
  rewrite (findLoop_step b o), (findLoop_step (pre ++ b)).
  rewrite size_app, readUInt32BE_shift by done.
  pose proof (readUInt32BE_nonneg b o) as Hlen.
  destruct (decide (o + 8 ≤ size b)) as [Hroom|Hroom].
  2:{ rewrite decide_False by lia. done. }
  rewrite decide_True by lia.
  destruct (decide (o + 4 + 4 + readUInt32BE b o + 4 > size b)) as [Hcut|Hfit].
  { rewrite decide_True by lia. done. }
  rewrite decide_False by lia. cbv zeta.
  replace (size pre + o + 4 + 4) with (size pre + (o + 4 + 4)) by lia.
  replace (size pre + o + 4) with (size pre + (o + 4)) by lia.
  replace (size pre + (o + 4 + 4) + readUInt32BE b o + 4)
    with (size pre + (o + 4 + 4 + readUInt32BE b o + 4)) by lia.
  rewrite !subarray_shift by lia.
  case_bool_decide.
  - destruct (Z.ltb_spec o 0); [lia|done].
  - rewrite (IH (Z.to_nat (size b - (o + 4 + 4 + readUInt32BE b o + 4)))); [done|lia|lia|done].
Qed.

(** The type of a chunk, as the loops read it. *)
Lemma stripLoop_chunk c rest :
  isChunk c →
  stripLoop (c ++ rest) 0
  = let pushed :=
      if negb (bool_decide (typeOf c = tEXt)) && negb (bool_decide (typeOf c = zTXt))
      then c else [] in
    if bool_decide (typeOf c = IEND) then inr pushed
    else match stripLoop rest 0 with
         | inl e => inl e
         | inr chunks => inr (pushed ++ chunks)
         end.
Proof.
  unfold isChunk, typeOf. intros Hc.
  pose proof (readUInt32BE_nonneg c 0) as Hlen. pose proof (size_nonneg rest).
  rewrite stripLoop_step, size_app, readUInt32BE_head by lia.
  rewrite decide_True by lia. rewrite decide_False by lia. cbv zeta.
  rewrite !Z.add_0_l. rewrite (subarray_head c rest 4 (4 + 4)) by lia.
  rewrite <- Hc, subarray_all.
  pose proof (stripLoop_shift c rest 0 ltac:(lia)) as Hshift.
  rewrite Z.add_0_r in Hshift. by rewrite Hshift.
Qed.

Lemma findLoop_chunk c rest :
  isChunk c →
  findLoop (c ++ rest) 0
  = if bool_decide (typeOf c = IEND) then 0
    else if findLoop rest 0 <? 0 then -1 else size c + findLoop rest 0.
Proof.
  unfold isChunk, typeOf. intros Hc.
  pose proof (readUInt32BE_nonneg c 0) as Hlen. pose proof (size_nonneg rest).
  rewrite findLoop_step, size_app, readUInt32BE_head by lia.
  rewrite decide_True by lia. rewrite decide_False by lia. cbv zeta.
  rewrite !Z.add_0_l. rewrite (subarray_head c rest 4 (4 + 4)) by lia.
  rewrite <- Hc.
  pose proof (findLoop_shift c rest 0 ltac:(lia)) as Hshift.
  rewrite Z.add_0_r in Hshift. by rewrite Hshift.
Qed.

(** A buffer that the loop reads without an error starts with a chunk, or
    holds less than eight bytes. *)
Lemma stripLoop_first b chunks :
  stripLoop b 0 = inr chunks →
  (size b < 8 ∧ chunks = []) ∨
  ∃ c rest, b = c ++ rest ∧ isChunk c.
Proof.
  rewrite stripLoop_step. pose proof (readUInt32BE_nonneg b 0) as Hlen.
  destruct (decide (0 + 8 ≤ size b)) as [Hroom|Hroom]; [|intros [= <-]; left; split; [lia|done]].
  destruct (decide (_ > _)) as [Hcut|Hfit]; [done|]. intros _. right.
  exists (take (Z.to_nat (4 + 4 + readUInt32BE b 0 + 4)) b),
         (drop (Z.to_nat (4 + 4 + readUInt32BE b 0 + 4)) b).
  split; [by rewrite take_drop|].
  unfold isChunk. unfold size in *. rewrite length_take.
  assert (readUInt32BE (take (Z.to_nat (4 + 4 + readUInt32BE b 0 + 4)) b) 0 = readUInt32BE b 0)
    as ->; [|lia].
  rewrite <- (take_drop (Z.to_nat (4 + 4 + readUInt32BE b 0 + 4)) b) at 3.
  rewrite readUInt32BE_head; [done|]. unfold size. rewrite length_take. lia.
Qed.

Lemma writeUInt32BE_read value bytes rest :
  writeUInt32BE value = inr bytes →
  0 ≤ value < 2 ^ 32 ∧ size bytes = 4 ∧ readUInt32BE (bytes ++ rest) 0 = value.
Proof.
  unfold writeUInt32BE.
  destruct (Z.leb_spec 0 value); [|done]. destruct (Z.ltb_spec value (2 ^ 32)); [|done].
  simpl. intros [= <-]. split_and!; try done.
  unfold readUInt32BE, byteAt. simpl nth.
  rewrite !N2Z.inj_add, !N2Z.inj_mul, !Z2N.id; try (Z.div_mod_to_equations; lia).
Qed.

Section Bits.
Local Open Scope N_scope.

Lemma lxor_range (a b : N) : a < 2 ^ 32 → b < 2 ^ 32 → N.lxor a b < 2 ^ 32.
Proof.
  intros Ha Hb. destruct (N.eq_dec (N.lxor a b) 0) as [->|Hne]; [done|].
  apply N.log2_lt_pow2; [lia|].
  eapply N.le_lt_trans; [apply N.log2_lxor|].
  apply N.max_lub_lt.
  - destruct (N.eq_dec a 0) as [->|?]; [done|]. apply N.log2_lt_pow2; [lia|done].
  - destruct (N.eq_dec b 0) as [->|?]; [done|]. apply N.log2_lt_pow2; [lia|done].
Qed.

Lemma shiftr_range (a n : N) : a < 2 ^ 32 → N.shiftr a n < 2 ^ 32.
Proof.
  intros Ha. rewrite N.shiftr_div_pow2.
  eapply N.le_lt_trans; [|done]. apply N.Div0.div_le_upper_bound.
  assert (1 ≤ 2 ^ n) by (apply N.lt_pred_le, N.neq_0_lt_0, N.pow_nonzero; lia). nia.
Qed.

Lemma tableBits_range bit (value : N) : value < 2 ^ 32 → tableBits bit value < 2 ^ 32.
Proof.
  revert value. induction bit as [|bit IH]; intros value Hv; simpl; [done|].
  apply IH. destruct (_ =? _); [apply lxor_range; [done|]|]; by apply shiftr_range.
Qed.

Lemma crcStep_range (value byte : N) : value < 2 ^ 32 → crcStep value byte < 2 ^ 32.
Proof.
  intros Hv. unfold crcStep, CRC32_TABLE. apply lxor_range; [|by apply shiftr_range].
  apply tableBits_range. change 255 with (N.ones 8). rewrite N.land_ones.
  pose proof (N.mod_upper_bound (N.lxor value byte) (2 ^ 8) ltac:(done)). lia.
Qed.

Lemma crc32_range bytes : crc32 bytes < 2 ^ 32.
Proof.
  unfold crc32. apply lxor_range; [|done].
  assert (∀ value, value < 2 ^ 32 → foldl crcStep value bytes < 2 ^ 32) as H;
    [|by apply H].
  induction bytes as [|b bytes IH]; intros value Hv; simpl; [done|].
  by apply IH, crcStep_range.
Qed.

End Bits.

(** What [createTextChunk] returns. *)
Lemma createTextChunk_layout keyword text :
  size keyword + 1 + size text < 2 ^ 32 →
  ∃ lengthBuffer crcBuffer,
    createTextChunk keyword text
    = inr (lengthBuffer ++ tEXt ++ (keyword ++ [0%N] ++ text) ++ crcBuffer) ∧
    size lengthBuffer = 4 ∧ size crcBuffer = 4 ∧
    (∀ rest, readUInt32BE (lengthBuffer ++ rest) 0 = size keyword + 1 + size text).
Proof.
  intros Hsize. unfold createTextChunk.
  assert (size (keyword ++ [0%N] ++ text) = size keyword + 1 + size text) as Hdata
    by (rewrite !size_app; unfold size; simpl; lia).
  destruct (writeUInt32BE (size (keyword ++ [0%N] ++ text))) as [e|lengthBuffer] eqn:Hlen.
  { unfold writeUInt32BE in Hlen. rewrite Hdata in Hlen.
    pose proof (size_nonneg keyword). pose proof (size_nonneg text).
    destruct (Z.leb_spec 0 (size keyword + 1 + size text)); [|lia].
    destruct (Z.ltb_spec (size keyword + 1 + size text) (2 ^ 32)); [done|lia]. }
  destruct (writeUInt32BE (Z.of_N (crc32 _))) as [e|crcBuffer] eqn:Hcrc.
  { unfold writeUInt32BE in Hcrc.
    pose proof (crc32_range (tEXt ++ keyword ++ [0%N] ++ text)) as Hrange.
    destruct (Z.leb_spec 0 (Z.of_N (crc32 (tEXt ++ keyword ++ [0%N] ++ text)))); [|lia].
    destruct (Z.ltb_spec (Z.of_N (crc32 (tEXt ++ keyword ++ [0%N] ++ text))) (2 ^ 32));
      [done|]. change (2 ^ 32) with (Z.of_N (2 ^ 32)) in *. lia. }
  exists lengthBuffer, crcBuffer.
  destruct (writeUInt32BE_read _ _ [] Hcrc) as (_ & Hc4 & _).
  split_and!; [done| |done|].
  - by destruct (writeUInt32BE_read _ _ [] Hlen) as (_ & ? & _).
  - intros rest. destruct (writeUInt32BE_read _ _ rest Hlen) as (_ & _ & ->). done.
Qed.

Lemma createTextChunk_chunk keyword text chunk :
  createTextChunk keyword text = inr chunk →
  isChunk chunk ∧ typeOf chunk = tEXt ∧
  size chunk = 4 + 4 + (size keyword + 1 + size text) + 4.
Proof.
  intros Hchunk.
  assert (size keyword + 1 + size text < 2 ^ 32) as Hsize.
  { revert Hchunk. unfold createTextChunk.
    destruct (writeUInt32BE (size (keyword ++ [0%N] ++ text))) as [e|l] eqn:Hlen; [done|].
    destruct (writeUInt32BE_read _ _ [] Hlen) as ([_ Hlt] & _). intros _.
    revert Hlt. rewrite !size_app. unfold size. simpl. lia. }
  destruct (createTextChunk_layout keyword text Hsize)
    as (lengthBuffer & crcBuffer & Heq & Hl4 & Hc4 & Hread).
  rewrite Heq in Hchunk. injection Hchunk as <-.
  assert (size (lengthBuffer ++ tEXt ++ (keyword ++ [0%N] ++ text) ++ crcBuffer)
          = 4 + 4 + (size keyword + 1 + size text) + 4) as Hsz.
  { rewrite !size_app, Hl4, Hc4. unfold size. simpl. lia. }
  split_and!; [|  |done].
  - unfold isChunk. rewrite Hread. exact Hsz.
  - unfold typeOf.
    pose proof (subarray_shift lengthBuffer
                  (tEXt ++ (keyword ++ [0%N] ++ text) ++ crcBuffer) 0 4 ltac:(lia)) as Hsub.
    rewrite Hl4 in Hsub. change (4 + 0) with 4 in Hsub.
    transitivity (toAscii (subarray (tEXt ++ (keyword ++ [0%N] ++ text) ++ crcBuffer) 0 4));
      [f_equal; exact Hsub|].
    rewrite (subarray_head tEXt ((keyword ++ [0%N] ++ text) ++ crcBuffer) 0 4)
      by (unfold size; simpl; lia).
    done.
Qed.

Lemma take_app_chunk (c K : list N) i :
  0 ≤ i → take (Z.to_nat (size c + i)) (c ++ K) = c ++ take (Z.to_nat i) K.
Proof.
  intros Hi. unfold size.
  replace (Z.to_nat (Z.of_nat (length c) + i)) with (length c + Z.to_nat i)%nat by lia.
  apply take_app_add.
Qed.

Lemma drop_app_chunk (c K : list N) i :
  0 ≤ i → drop (Z.to_nat (size c + i)) (c ++ K) = drop (Z.to_nat i) K.
Proof.
  intros Hi. unfold size.
  replace (Z.to_nat (Z.of_nat (length c) + i)) with (length c + Z.to_nat i)%nat by lia.
  apply drop_app_add.
Qed.

(** The chunks that the loop keeps, read again: nothing is dropped, and a
    text chunk put before the end chunk is dropped again. *)
Lemma stripLoop_kept n rest kept :
  (length rest ≤ n)%nat → stripLoop rest 0 = inr kept →
  stripLoop kept 0 = inr kept ∧
  (size kept ≤ size rest) ∧
  ∀ textChunk, isChunk textChunk → typeOf textChunk = tEXt → 0 ≤ findLoop kept 0 →
    stripLoop (take (Z.to_nat (findLoop kept 0)) kept ++ textChunk
               ++ drop (Z.to_nat (findLoop kept 0)) kept) 0 = inr kept ∧
    findLoop (take (Z.to_nat (findLoop kept 0)) kept ++ textChunk
              ++ drop (Z.to_nat (findLoop kept 0)) kept) 0
    = findLoop kept 0 + size textChunk.
Proof.
  revert rest kept. induction n as [|n IH]; intros rest kept Hn Hstrip.
  { destruct rest; [|simpl in Hn; lia]. rewrite stripLoop_step in Hstrip.
    rewrite decide_False in Hstrip by (unfold size; simpl; lia). injection Hstrip as <-.
    split_and!; [by rewrite stripLoop_step, decide_False by (unfold size; simpl; lia)|done|].
    intros T _ _. rewrite findLoop_step, decide_False by (unfold size; simpl; lia). lia. }
  destruct (stripLoop_first _ _ Hstrip) as [[Hshort ->]|(c & rest' & -> & Hc)].
  { split_and!; [by rewrite stripLoop_step, decide_False by (unfold size; simpl; lia)
                |unfold size; simpl; lia|].
    intros T _ _. rewrite findLoop_step, decide_False by (unfold size; simpl; lia). lia. }
  rewrite (stripLoop_chunk c rest' Hc) in Hstrip. cbv zeta in Hstrip.
  assert (12 ≤ size c) as Hc12.
  { unfold isChunk in Hc. pose proof (readUInt32BE_nonneg c 0). lia. }
  assert (length rest' ≤ n)%nat as Hn'.
  { rewrite length_app in Hn. unfold size in Hc12. lia. }
  rewrite size_app.
  destruct (bool_decide (typeOf c = IEND)) eqn:Eend.
  - (* the end chunk *)
    apply bool_decide_eq_true in Eend.
    rewrite Eend in Hstrip. simpl in Hstrip. injection Hstrip as <-.
    assert (stripLoop c 0 = inr c) as Hagain.
    { rewrite <- (app_nil_r c) at 1. rewrite (stripLoop_chunk c [] Hc). cbv zeta.
      by rewrite Eend. }
    assert (findLoop c 0 = 0) as Hfind.
    { rewrite <- (app_nil_r c) at 1. rewrite (findLoop_chunk c [] Hc).
      by rewrite bool_decide_eq_true_2. }
    pose proof (size_nonneg rest').
    split_and!; [done|lia|]. intros T HT Htype _. rewrite Hfind. change (Z.to_nat 0) with 0%nat. rewrite take_0, drop_0. simpl.
    rewrite (stripLoop_chunk T c HT), (findLoop_chunk T c HT). cbv zeta.
    rewrite Htype, Hagain, Hfind. simpl. split; [done|lia].
  - destruct (stripLoop rest' 0) as [e|kept'] eqn:Hrest; [done|].
    destruct (IH rest' kept' Hn' Hrest) as (Hagain & Hsize & Hembed).
    destruct (negb (bool_decide (typeOf c = tEXt)) && negb (bool_decide (typeOf c = zTXt)))
      eqn:Ekeep.
    + (* a chunk that is kept *)
      injection Hstrip as <-.
      assert (findLoop (c ++ kept') 0
              = if findLoop kept' 0 <? 0 then -1 else size c + findLoop kept' 0) as Hfind.
      { rewrite (findLoop_chunk c kept' Hc). by rewrite Eend. }
      split_and!.
      * rewrite (stripLoop_chunk c kept' Hc). cbv zeta. by rewrite Eend, Ekeep, Hagain.
      * rewrite size_app. lia.
      * intros T HT Htype. rewrite Hfind.
        destruct (Z.ltb_spec (findLoop kept' 0) 0) as [?|Hpos]; [lia|]. intros _.
        destruct (Hembed T HT Htype Hpos) as [Hs Hf].
        rewrite take_app_chunk, drop_app_chunk by done. rewrite <- app_assoc.
        rewrite (stripLoop_chunk c _ Hc), (findLoop_chunk c _ Hc). cbv zeta.
        rewrite Eend, Ekeep, Hs, Hf.
        destruct (Z.ltb_spec (findLoop kept' 0 + size T) 0) as [Hneg|_];
          [pose proof (size_nonneg T); lia|].
        split; [done|lia].
    + (* a text chunk *)
      injection Hstrip as <-. split_and!; [done|lia|done].
Qed.

Lemma isPngBuffer_split buffer :
  isPngBuffer buffer = true → buffer = PNG_SIGNATURE ++ drop 8 buffer.
Proof.
  unfold isPngBuffer. intros [_ Hsig%bool_decide_eq_true]%andb_true_iff.
  revert Hsig. unfold subarray. change (Z.to_nat 0) with 0%nat. rewrite drop_0.
  change (Z.to_nat (size PNG_SIGNATURE - 0)) with 8%nat. intros Hsig.
  rewrite <- Hsig at 1. by rewrite take_drop.
Qed.

Lemma isPngBuffer_signature rest : isPngBuffer (PNG_SIGNATURE ++ rest) = true.
Proof.
  unfold isPngBuffer. rewrite size_app. pose proof (size_nonneg rest).
  apply andb_true_iff. split; [apply Z.leb_le; lia|].
  apply bool_decide_eq_true. apply subarray_all.
Qed.

(** [stripTextChunks] in terms of the bytes after the signature. *)
Lemma stripTextChunks_signature rest :
  stripTextChunks (PNG_SIGNATURE ++ rest)
  = match stripLoop rest 0 with
    | inl e => inl e
    | inr chunks => inr (PNG_SIGNATURE ++ chunks)
    end.
Proof.
  unfold stripTextChunks. rewrite isPngBuffer_signature. simpl negb. cbv iota.
  pose proof (stripLoop_shift PNG_SIGNATURE rest 0 ltac:(lia)) as Hshift.
  rewrite Z.add_0_r in Hshift. rewrite Hshift, subarray_all. done.
Qed.

Lemma findIendOffset_signature rest :
  findIendOffset (PNG_SIGNATURE ++ rest)
  = if findLoop rest 0 <? 0 then -1 else size PNG_SIGNATURE + findLoop rest 0.
Proof.
  unfold findIendOffset.
  pose proof (findLoop_shift PNG_SIGNATURE rest 0 ltac:(lia)) as Hshift.
  by rewrite Z.add_0_r in Hshift.
Qed.

Lemma stripTextChunks_inv pngBuffer cleanPng :
  stripTextChunks pngBuffer = inr cleanPng →
  ∃ rest kept, pngBuffer = PNG_SIGNATURE ++ rest ∧ cleanPng = PNG_SIGNATURE ++ kept ∧
               stripLoop rest 0 = inr kept.
Proof.
  intros Hstrip. assert (isPngBuffer pngBuffer = true) as Hpng.
  { unfold stripTextChunks in Hstrip. by destruct (isPngBuffer pngBuffer). }
  exists (drop 8 pngBuffer). rewrite (isPngBuffer_split _ Hpng) in Hstrip.
  rewrite stripTextChunks_signature in Hstrip.
  destruct (stripLoop (drop 8 pngBuffer) 0) as [e|kept] eqn:Hloop; [done|].
  injection Hstrip as <-. exists kept. split_and!; [by apply isPngBuffer_split|done..].
Qed.

(** Where the loop of [findIendOffset] stops, an "IEND" chunk starts that
    lies inside the buffer. *)
Lemma findLoop_found n pngBuffer offset :
  (Z.to_nat (size pngBuffer - offset) ≤ n)%nat → 0 ≤ offset →
  0 ≤ findLoop pngBuffer offset →
  offset ≤ findLoop pngBuffer offset ∧
  findLoop pngBuffer offset + 4 + 4 + readUInt32BE pngBuffer (findLoop pngBuffer offset) + 4
    ≤ size pngBuffer ∧
  toAscii (subarray pngBuffer (findLoop pngBuffer offset + 4)
                    (findLoop pngBuffer offset + 4 + 4)) = IEND.
Proof.
  revert offset. induction n as [|n IH]; intros offset Hn Hoffset; rewrite findLoop_step.
  { rewrite decide_False by lia. lia. }
  destruct (decide (offset + 8 ≤ size pngBuffer)) as [Hroom|]; [|lia].
  destruct (decide (_ > _)) as [|Hfit]; [lia|]. cbv zeta.
  pose proof (readUInt32BE_nonneg pngBuffer offset).
  destruct (bool_decide _) eqn:Eend.
  - apply bool_decide_eq_true in Eend. intros _. split_and!; [lia|lia|done].
  - intros Hfound.
    destruct (IH (offset + 4 + 4 + readUInt32BE pngBuffer offset + 4)) as (? & ? & ?);
      [lia|lia|done|]. split_and!; [lia|done..].
Qed.

Lemma subarray_middle (pre mid post : list N) :
  subarray (pre ++ mid ++ post) (size pre) (size pre + size mid) = mid.
Proof.
  pose proof (subarray_shift pre (mid ++ post) 0 (size mid) ltac:(lia)) as H.
  rewrite Z.add_0_r in H. rewrite H. apply subarray_all.
Qed.

(** X17. [createTextChunk] throws only when keyword, separator and text
    are [2^32] bytes or more together (the length does not fit its field).
    Otherwise it returns one chunk: the length field reads back as the
    length of the data, the type is "tEXt", the data are the keyword, a NUL
    and the text, and the last four bytes read back as the CRC-32 of type
    and data, which always fits its field. *)
Theorem createTextChunk_frames_text keyword text :
  match createTextChunk keyword text with
  | inr chunk =>
      size keyword + 1 + size text < 2 ^ 32 ∧
      isChunk chunk ∧ typeOf chunk = tEXt ∧
      readUInt32BE chunk 0 = size keyword + 1 + size text ∧
      subarray chunk 8 (size chunk - 4) = keyword ++ [0%N] ++ text ∧
      readUInt32BE chunk (size chunk - 4) = Z.of_N (crc32 (tEXt ++ keyword ++ [0%N] ++ text))
  | inl e => e = OutOfRange ∧ 2 ^ 32 ≤ size keyword + 1 + size text
  end.
Proof.
  assert (size (keyword ++ [0%N] ++ text) = size keyword + 1 + size text) as Hdata
    by (rewrite !size_app; unfold size; simpl; lia).
  destruct (decide (size keyword + 1 + size text < 2 ^ 32)) as [Hsize|Hsize].
  - destruct (createTextChunk keyword text) as [e|chunk] eqn:Hchunk.
    { destruct (createTextChunk_layout keyword text Hsize) as (? & ? & ? & _). congruence. }
    destruct (createTextChunk_chunk _ _ _ Hchunk) as (Hisc & Htype & Hsz).
    revert Hchunk. unfold createTextChunk.
    destruct (writeUInt32BE (size _)) as [e|lengthBuffer] eqn:Hlen; [done|].
    destruct (writeUInt32BE (Z.of_N _)) as [e|crcBuffer] eqn:Hcrc; [done|]. intros Heq.
    assert (chunk = lengthBuffer ++ tEXt ++ (keyword ++ [0%N] ++ text) ++ crcBuffer) as ->
      by congruence. clear Heq.
    destruct (writeUInt32BE_read _ _ (tEXt ++ (keyword ++ [0%N] ++ text) ++ crcBuffer) Hlen)
      as (_ & Hl4 & Hread).
    destruct (writeUInt32BE_read _ _ [] Hcrc) as (_ & Hc4 & Hreadc).
    split_and!; [done|done|done|by rewrite Hread| |].
    + rewrite Hsz.
      pose proof (subarray_middle (lengthBuffer ++ tEXt) (keyword ++ [0%N] ++ text) crcBuffer)
        as Hmid.
      rewrite <- !app_assoc in Hmid. rewrite size_app, Hl4, Hdata in Hmid.
      change (size tEXt) with 4 in Hmid.
      replace (4 + 4 + (size keyword + 1 + size text) + 4 - 4)
        with (4 + 4 + (size keyword + 1 + size text)) by lia.
      rewrite <- !app_assoc. exact Hmid.
    + rewrite Hsz.
      pose proof (readUInt32BE_shift (lengthBuffer ++ tEXt ++ keyword ++ [0%N] ++ text)
                    crcBuffer 0 ltac:(lia)) as Hshift.
      rewrite <- !app_assoc in Hshift. rewrite !size_app, Hl4 in Hshift.
      change (size tEXt) with 4 in Hshift. change (size [0%N]) with 1 in Hshift.
      replace (4 + 4 + (size keyword + 1 + size text) + 4 - 4)
        with (4 + (4 + (size keyword + (1 + size text))) + 0) by lia.
      rewrite <- !app_assoc. rewrite Hshift. rewrite <- (app_nil_r crcBuffer). exact Hreadc.
  - unfold createTextChunk. unfold writeUInt32BE at 1. rewrite Hdata.
    destruct (Z.ltb_spec (size keyword + 1 + size text) (2 ^ 32)); [lia|].
    rewrite andb_false_r. split; [done|lia].
Qed.

(** X18. What [stripTextChunks] returns is not longer than the image, and
    stripping it again returns it unchanged. *)
Theorem stripTextChunks_idempotent pngBuffer cleanPng :
  stripTextChunks pngBuffer = inr cleanPng →
  stripTextChunks cleanPng = inr cleanPng ∧ size cleanPng ≤ size pngBuffer.
Proof.
  intros (rest & kept & -> & -> & Hloop)%stripTextChunks_inv.
  destruct (stripLoop_kept (length rest) rest kept ltac:(lia) Hloop) as (Hagain & Hsize & _).
  rewrite stripTextChunks_signature, Hagain, !size_app. split; [done|lia].
Qed.

Lemma stripTextChunks_idempotent_witness :
  stripTextChunks samplePng = inr (PNG_SIGNATURE ++ sampleHeader ++ sampleEnd) ∧
  stripTextChunks (PNG_SIGNATURE ++ sampleHeader ++ sampleEnd)
  = inr (PNG_SIGNATURE ++ sampleHeader ++ sampleEnd) ∧
  size (PNG_SIGNATURE ++ sampleHeader ++ sampleEnd) ≤ size samplePng.
Proof.
  split; [vm_compute; reflexivity|].
  apply (stripTextChunks_idempotent samplePng (PNG_SIGNATURE ++ sampleHeader ++ sampleEnd)).
  vm_compute. reflexivity.
Defined.

(** What a successful [embedCardInPng] returns. *)
Lemma embedCardInPng_inv pngBuffer encodedCard out :
  embedCardInPng pngBuffer encodedCard = inr out →
  ∃ rest kept textChunk,
    pngBuffer = PNG_SIGNATURE ++ rest ∧ stripLoop rest 0 = inr kept ∧
    0 ≤ findLoop kept 0 ∧
    createTextChunk chara encodedCard = inr textChunk ∧
    out = PNG_SIGNATURE ++ take (Z.to_nat (findLoop kept 0)) kept ++ textChunk
          ++ drop (Z.to_nat (findLoop kept 0)) kept.
Proof.
  unfold embedCardInPng.
  destruct (stripTextChunks pngBuffer) as [e|cleanPng] eqn:Hstrip; [done|].
  destruct (stripTextChunks_inv _ _ Hstrip) as (rest & kept & -> & -> & Hloop).
  rewrite findIendOffset_signature.
  destruct (Z.ltb_spec (findLoop kept 0) 0) as [Hneg|Hpos]; [done|].
  destruct (Z.ltb_spec (size PNG_SIGNATURE + findLoop kept 0) 0) as [Hneg|_];
    [change (size PNG_SIGNATURE) with 8 in Hneg; lia|].
  destruct (createTextChunk chara encodedCard) as [e|textChunk] eqn:Hchunk; [done|].
  intros Heq. exists rest, kept, textChunk. split_and!; [done..|].
  match type of Heq with inr ?o = _ => assert (out = o) as -> by congruence end. clear Heq.
  unfold subarray. change (Z.to_nat 0) with 0%nat. rewrite drop_0, Z.sub_0_r.
  rewrite take_app_chunk, drop_app_chunk by done. by rewrite <- app_assoc.
Qed.

(** X19. Embedding replaces, it does not add: the image that
    [embedCardInPng] returns strips to what the given image strips to, so
    embedding any card in it gives what embedding that card in the given
    image gives. *)
Theorem embedCardInPng_replaces_card pngBuffer encodedCard out :
  embedCardInPng pngBuffer encodedCard = inr out →
  stripTextChunks out = stripTextChunks pngBuffer ∧
  ∀ otherCard, embedCardInPng out otherCard = embedCardInPng pngBuffer otherCard.
Proof.
  intros (rest & kept & textChunk & -> & Hloop & Hpos & Hchunk & ->)%embedCardInPng_inv.
  destruct (createTextChunk_chunk _ _ _ Hchunk) as (Hisc & Htype & _).
  destruct (stripLoop_kept (length rest) rest kept ltac:(lia) Hloop) as (_ & _ & Hembed).
  destruct (Hembed textChunk Hisc Htype Hpos) as [Hstrip _].
  assert (stripTextChunks (PNG_SIGNATURE ++ take (Z.to_nat (findLoop kept 0)) kept
                           ++ textChunk ++ drop (Z.to_nat (findLoop kept 0)) kept)
          = stripTextChunks (PNG_SIGNATURE ++ rest)) as Hsame
    by (by rewrite !stripTextChunks_signature, Hstrip, Hloop).
  split; [done|]. intros otherCard. unfold embedCardInPng. by rewrite Hsame.
Qed.

Lemma embedCardInPng_replaces_card_witness :
  stripTextChunks sampleOut = stripTextChunks samplePng ∧
  ∀ otherCard, embedCardInPng sampleOut otherCard = embedCardInPng samplePng otherCard.
Proof.
  apply (embedCardInPng_replaces_card samplePng sampleCard sampleOut).
  vm_compute. reflexivity.
Defined.

(** X20. When [embedCardInPng] returns, its result is the stripped image
    with the text chunk of the card put in at the offset of the "IEND"
    chunk: the bytes that follow the text chunk start with a chunk of type
    "IEND", [findIendOffset] of the result is the former offset plus the
    size of the text chunk, and the result is 18 bytes and the card longer
    than the stripped image. *)
Theorem embedCardInPng_before_iend pngBuffer encodedCard out :
  embedCardInPng pngBuffer encodedCard = inr out →
  ∃ cleanPng textChunk,
    stripTextChunks pngBuffer = inr cleanPng ∧
    createTextChunk chara encodedCard = inr textChunk ∧
    out = take (Z.to_nat (findIendOffset cleanPng)) cleanPng ++ textChunk
          ++ drop (Z.to_nat (findIendOffset cleanPng)) cleanPng ∧
    typeOf (drop (Z.to_nat (findIendOffset cleanPng)) cleanPng) = IEND ∧
    findIendOffset out = findIendOffset cleanPng + size textChunk ∧
    size out = size cleanPng + size encodedCard + 18.
Proof.
  intros (rest & kept & textChunk & -> & Hloop & Hpos & Hchunk & ->)%embedCardInPng_inv.
  destruct (createTextChunk_chunk _ _ _ Hchunk) as (Hisc & Htype & Hsz).
  destruct (stripLoop_kept (length rest) rest kept ltac:(lia) Hloop) as (_ & _ & Hembed).
  destruct (Hembed textChunk Hisc Htype Hpos) as [_ Hfind].
  exists (PNG_SIGNATURE ++ kept), textChunk.
  rewrite stripTextChunks_signature, Hloop, !findIendOffset_signature, Hfind.
  pose proof (size_nonneg textChunk).
  destruct (Z.ltb_spec (findLoop kept 0) 0) as [|_]; [lia|].
  destruct (Z.ltb_spec (findLoop kept 0 + size textChunk) 0) as [|_]; [lia|].
  rewrite take_app_chunk, drop_app_chunk by done.
  split_and!; [done|done|by rewrite <- app_assoc| |lia|].
  - destruct (findLoop_found (Z.to_nat (size kept - 0)) kept 0 ltac:(lia) ltac:(lia) Hpos)
      as (_ & Hin & Hend).
    pose proof (readUInt32BE_nonneg kept (findLoop kept 0)).
    rewrite <- Hend. unfold typeOf. f_equal.
    assert (size (take (Z.to_nat (findLoop kept 0)) kept) = findLoop kept 0) as Hpre.
    { unfold size in *. rewrite length_take. lia. }
    pose proof (subarray_shift (take (Z.to_nat (findLoop kept 0)) kept)
                  (drop (Z.to_nat (findLoop kept 0)) kept) 4 (4 + 4) ltac:(lia)) as Hshift.
    rewrite Hpre, take_drop in Hshift. rewrite <- Hshift. f_equal. lia.
  - rewrite !size_app. rewrite Hsz. change (size chara) with 5.
    assert (size (take (Z.to_nat (findLoop kept 0)) kept)
            + size (drop (Z.to_nat (findLoop kept 0)) kept) = size kept) as Hparts.
    { rewrite <- size_app. by rewrite take_drop. }
    lia.
Qed.

Lemma embedCardInPng_before_iend_witness :
  ∃ cleanPng textChunk,
    stripTextChunks samplePng = inr cleanPng ∧
    createTextChunk chara sampleCard = inr textChunk ∧
    sampleOut = take (Z.to_nat (findIendOffset cleanPng)) cleanPng ++ textChunk
                ++ drop (Z.to_nat (findIendOffset cleanPng)) cleanPng ∧
    typeOf (drop (Z.to_nat (findIendOffset cleanPng)) cleanPng) = IEND ∧
    findIendOffset sampleOut = findIendOffset cleanPng + size textChunk ∧
    size sampleOut = size cleanPng + size sampleCard + 18.
Proof.
  apply (embedCardInPng_before_iend samplePng sampleCard sampleOut).
  vm_compute. reflexivity.
Defined.

(** X21. On [PLACEHOLDER_PNG], the image that the export uses when the
    persona has none, [embedCardInPng] throws "PNG image is missing IEND
    chunk" for every card: the constant holds one byte between its "IDAT"
    and "IEND" chunks, so the loops read a chunk of type NUL "IEN" there and
    find no "IEND". *)
Theorem embedCardInPng_placeholder encodedCard :
  embedCardInPng PLACEHOLDER_PNG encodedCard = inl MissingIend.
Proof.
  unfold embedCardInPng.
  assert (stripTextChunks PLACEHOLDER_PNG = inr (take 67 PLACEHOLDER_PNG)) as ->
    by (vm_compute; reflexivity).
  assert (findIendOffset (take 67 PLACEHOLDER_PNG) = -1) as -> by (vm_compute; reflexivity).
  done.
Qed.

End Png.

(* ===================================================================== *)
(** ** File names *)
(* ===================================================================== *)

Module FileNames.
Import Js.

(** The class [[\w.-]]: an ASCII letter, a digit, "_", "." or "-". *)
Definition isFileChar (c : jschar) : bool :=
  ((97 <=? c) && (c <=? 122)) || ((65 <=? c) && (c <=? 90)) || ((48 <=? c) && (c <=? 57))
  || (c =? 95) || (c =? 46) || (c =? 45).

(** [name.replace(/[^\w.-]+/g, "_")]; [inRun] records that the previous
    code unit was outside the class, so that a run is replaced once. *)
Fixpoint replaceUnsafe (inRun : bool) (s : jsstring) : jsstring :=
  match s with
  | [] => []
  | c :: t =>
      if isFileChar c then c :: replaceUnsafe false t
      else if inRun then replaceUnsafe true t
      else 95 :: replaceUnsafe true t
  end.

(** The match of [^_+]: the underscores at the start are dropped. *)
Fixpoint dropUnderscores (s : jsstring) : jsstring :=
  match s with
  | c :: t => if c =? 95 then dropUnderscores t else s
  | [] => []
  end.

(** The second [replace]: the underscores at the two ends are dropped. *)
Definition stripUnderscores (s : jsstring) : jsstring :=
  reverse (dropUnderscores (reverse (dropUnderscores s))).

(** [sanitizeFilename] of the pipeline. *)
Definition sanitizeFilename (name : jsstring) : jsstring :=
  match stripUnderscores (replaceUnsafe false name) with
  | [] => lit "unknown"
  | sanitized => sanitized
  end.

(** [sanitizeFileStem] of the engine. *)
Definition sanitizeFileStem (value : jsstring) : jsstring :=
  match stripUnderscores (replaceUnsafe false value) with
  | [] => lit "run"
  | cleaned => cleaned
  end.

(** A name that both functions leave alone: not empty, of the class, with
    no underscore at either end. *)
Definition safeName (s : jsstring) : Prop :=
  s ≠ [] ∧ Forall (λ c, isFileChar c = true) s ∧
  head s ≠ Some 95 ∧ last s ≠ Some 95.

(** *** Facts *)

Lemma replaceUnsafe_class inRun s : Forall (λ c, isFileChar c = true) (replaceUnsafe inRun s).
Proof.
  revert inRun. induction s as [|c s IH]; intros inRun; simpl; [constructor|].
  destruct (isFileChar c) eqn:Hc; [by constructor|].
  destruct inRun; [done|]. by constructor.
Qed.

Lemma replaceUnsafe_fixed inRun s :
  Forall (λ c, isFileChar c = true) s → replaceUnsafe inRun s = s.
Proof.
  intros Hall. revert inRun. induction Hall as [|c s Hc _ IH]; intros inRun; simpl; [done|].
  by rewrite Hc, IH.
Qed.

Lemma dropUnderscores_suffix s : dropUnderscores s `suffix_of` s.
Proof.
  induction s as [|c s IH]; simpl; [done|].
  destruct (c =? 95); [by apply suffix_cons_r|done].
Qed.

Lemma dropUnderscores_head s : head (dropUnderscores s) ≠ Some 95.
Proof.
  induction s as [|c s IH]; simpl; [done|].
  destruct (N.eqb_spec c 95) as [->|Hc]; [done|]. simpl. congruence.
Qed.

Lemma dropUnderscores_fixed s : head s ≠ Some 95 → dropUnderscores s = s.
Proof.
  destruct s as [|c s]; simpl; [done|]. intros Hc.
  destruct (N.eqb_spec c 95) as [->|_]; [done|done].
Qed.

Lemma dropUnderscores_last s : last s ≠ Some 95 → last (dropUnderscores s) ≠ Some 95.
Proof.
  induction s as [|c s IH]; simpl; [done|].
  destruct (N.eqb_spec c 95) as [->|Hc]; [|done].
  intros Hlast. apply IH. destruct s as [|d s]; [done|]. by rewrite last_cons_cons in Hlast.
Qed.

Lemma head_reverse (s : jsstring) : head (reverse s) = last s.
Proof.
  induction s as [|c s IH] using rev_ind; [done|].
  by rewrite reverse_app, last_snoc.
Qed.

Lemma last_reverse (s : jsstring) : last (reverse s) = head s.
Proof. by rewrite <- head_reverse, reverse_involutive. Qed.

Lemma stripUnderscores_class s :
  Forall (λ c, isFileChar c = true) s → Forall (λ c, isFileChar c = true) (stripUnderscores s).
Proof.
  intros Hall. unfold stripUnderscores. apply Forall_reverse.
  destruct (dropUnderscores_suffix (reverse (dropUnderscores s))) as [k Hk].
  assert (Forall (λ c, isFileChar c = true) (reverse (dropUnderscores s))) as Hrev.
  { apply Forall_reverse. destruct (dropUnderscores_suffix s) as [k' Hk'].
    rewrite Hk' in Hall. by apply Forall_app in Hall as [_ ?]. }
  rewrite Hk in Hrev. by apply Forall_app in Hrev as [_ ?].
Qed.

Lemma stripUnderscores_ends s :
  head (stripUnderscores s) ≠ Some 95 ∧ last (stripUnderscores s) ≠ Some 95.
Proof.
  unfold stripUnderscores. rewrite head_reverse, last_reverse. split.
  - apply dropUnderscores_last. rewrite last_reverse. apply dropUnderscores_head.
  - apply dropUnderscores_head.
Qed.

Lemma stripUnderscores_fixed s :
  head s ≠ Some 95 → last s ≠ Some 95 → stripUnderscores s = s.
Proof.
  intros Hhead Hlast. unfold stripUnderscores.
  rewrite (dropUnderscores_fixed s Hhead).
  rewrite dropUnderscores_fixed by (by rewrite head_reverse).
  apply reverse_involutive.
Qed.

Lemma safeName_fixed s fallback :
  safeName s →
  match stripUnderscores (replaceUnsafe false s) with [] => fallback | t => t end = s.
Proof.
  intros (Hne & Hall & Hhead & Hlast).
  rewrite replaceUnsafe_fixed by done. rewrite stripUnderscores_fixed by done.
  by destruct s.
Qed.

Lemma sanitized_safeName s fallback :
  safeName fallback →
  safeName (match stripUnderscores (replaceUnsafe false s) with [] => fallback | t => t end).
Proof.
  intros Hfallback.
  pose proof (stripUnderscores_class _ (replaceUnsafe_class false s)) as Hall.
  pose proof (stripUnderscores_ends (replaceUnsafe false s)) as [Hhead Hlast].
  destruct (stripUnderscores (replaceUnsafe false s)) as [|c t]; [done|].
  by split_and!.
Qed.

Lemma safeName_unknown : safeName (lit "unknown").
Proof. split_and!; [done|by repeat constructor|done|done]. Qed.

Lemma safeName_run : safeName (lit "run").
Proof. split_and!; [done|by repeat constructor|done|done]. Qed.

(** X22. The name that [sanitizeFilename] returns is not empty, holds only
    ASCII letters, digits, "_", "." and "-", and neither starts nor ends
    with "_"; so it holds no slash and no backslash. Sanitizing it again
    returns it unchanged. The same holds of [sanitizeFileStem]. *)
Theorem sanitizeFilename_safe (name : jsstring) :
  safeName (sanitizeFilename name) ∧
  (47 ∉ sanitizeFilename name) ∧ (92 ∉ sanitizeFilename name) ∧
  sanitizeFilename (sanitizeFilename name) = sanitizeFilename name ∧
  safeName (sanitizeFileStem name) ∧
  sanitizeFileStem (sanitizeFileStem name) = sanitizeFileStem name.
Proof.
  pose proof (sanitized_safeName name _ safeName_unknown) as Hsafe.
  pose proof (sanitized_safeName name _ safeName_run) as Hstem.
  split_and!; [done| | |by apply safeName_fixed|done|by apply safeName_fixed].
  - destruct Hsafe as (_ & Hall & _). rewrite Forall_forall in Hall.
    intros Hin. by specialize (Hall _ Hin).
  - destruct Hsafe as (_ & Hall & _). rewrite Forall_forall in Hall.
    intros Hin. by specialize (Hall _ Hin).
Qed.

(** A name of dots only is kept: the parent directory is a safe name. *)
Example sanitizeFilename_keeps_dots : sanitizeFilename (lit "..") = lit "..".
Proof. reflexivity. Qed.

End FileNames.

(* ===================================================================== *)
(** ** The sampling seed *)
(* ===================================================================== *)

Module Hashing.
Import Js.
Local Open Scope Z_scope.

(** [ToInt32] and [ToUint32] of an integer. *)
Definition toInt32 (z : Z) : Z := (z + 2 ^ 31) mod 2 ^ 32 - 2 ^ 31.
Definition toUint32 (z : Z) : Z := z mod 2 ^ 32.

(** [a ^ b] on numbers: the exclusive or of the two 32-bit patterns, as a
    signed number. *)
Definition xor32 (a b : Z) : Z := Z.lxor (toInt32 a) (toInt32 b).

(** [Math.imul(a, b)]. *)
Definition imul (a b : Z) : Z := toInt32 (toUint32 a * toUint32 b).

(** The body of the loop of [stableHashInt]. *)
Definition hashStep (hash : Z) (c : jschar) : Z :=
  imul (xor32 hash (Z.of_N c)) 16777619.

(** [stableHashInt]. *)
Definition stableHashInt (value : jsstring) : Z :=
  toUint32 (foldl hashStep 2166136261 value).

(** FNV-1a on 32 bits, over numbers from 0 to [2^32 - 1]: for every unit
    the hash is combined with the unit by exclusive or, then multiplied by
    the prime 16777619 modulo [2^32]. *)
Definition fnv1a (value : jsstring) : Z :=
  foldl (λ hash c, (Z.lxor hash (Z.of_N c) * 16777619) mod 2 ^ 32) 2166136261 value.

(** *** Facts *)

Lemma toInt32_mod z : toInt32 z mod 2 ^ 32 = z mod 2 ^ 32.
Proof.
  unfold toInt32.
  rewrite Zminus_mod_idemp_l. f_equal. lia.
Qed.

Lemma lxor_mod a b : Z.lxor a b mod 2 ^ 32 = Z.lxor (a mod 2 ^ 32) (b mod 2 ^ 32).
Proof.
  apply Z.bits_inj'. intros n Hn.
  destruct (decide (n < 32)) as [Hlow|Hhigh].
  - rewrite Z.mod_pow2_bits_low, !Z.lxor_spec, !Z.mod_pow2_bits_low by lia. done.
  - rewrite Z.mod_pow2_bits_high, Z.lxor_spec, !Z.mod_pow2_bits_high by lia. done.
Qed.

Lemma hashStep_mod hash unsigned c :
  hash mod 2 ^ 32 = unsigned → (c < 2 ^ 32)%N →
  hashStep hash c mod 2 ^ 32 = (Z.lxor unsigned (Z.of_N c) * 16777619) mod 2 ^ 32.
Proof.
  intros Hhash Hc. unfold hashStep, imul, xor32, toUint32.
  rewrite !toInt32_mod. rewrite lxor_mod, !toInt32_mod, Hhash.
  rewrite (Z.mod_small (Z.of_N c)) by (change (2 ^ 32) with (Z.of_N (2 ^ 32)); lia).
  rewrite (Z.mod_small 16777619) by lia.
  done.
Qed.

Lemma stableHashInt_from value hash unsigned :
  Forall (λ c, (c < 65536)%N) value →
  hash mod 2 ^ 32 = unsigned →
  foldl hashStep hash value mod 2 ^ 32
  = foldl (λ hash c, (Z.lxor hash (Z.of_N c) * 16777619) mod 2 ^ 32) unsigned value.
Proof.
  intros Hall. revert hash unsigned.
  induction Hall as [|c value Hc _ IH]; intros hash unsigned Hhash; simpl; [done|].
  apply IH. apply hashStep_mod; [done|lia].
Qed.

(** The hash of "a", as the tables of FNV-1a give it. *)
Example stableHashInt_of_a : stableHashInt (lit "a") = 3826002220.
Proof. reflexivity. Qed.

(** X23. On a string of UTF-16 code units, [stableHashInt] computes the
    32-bit FNV-1a hash of the units: the signed 32-bit steps of the loop
    give the same result as the arithmetic modulo [2^32]. The result lies
    between 0 and [2^32 - 1], so a derived sampling seed is never
    negative. *)
Theorem stableHashInt_is_fnv1a (value : jsstring) :
  Forall (λ c, (c < 65536)%N) value →
  stableHashInt value = fnv1a value ∧ 0 ≤ stableHashInt value < 2 ^ 32.
Proof.
  intros Hall. split.
  - unfold stableHashInt, toUint32, fnv1a. by apply stableHashInt_from.
  - unfold stableHashInt, toUint32. apply Z.mod_pos_bound. lia.
Qed.

Lemma stableHashInt_is_fnv1a_witness :
  stableHashInt (lit "a|b") = fnv1a (lit "a|b") ∧ 0 ≤ stableHashInt (lit "a|b") < 2 ^ 32.
Proof.
  apply (stableHashInt_is_fnv1a (lit "a|b")).
  repeat constructor.
Defined.

End Hashing.
